(** * wotc_story_scraper: a shallow embedding and its properties

    The development follows [scripts/万智牌官方小故事爬虫/wotc_story_scraper.py]:
    the retrying fetcher, the metadata and variant extractors, the content
    extractor, the image rewriter, the asset manager and the orchestrator.

    Conventions.
    - A Python [str] is a [string] of UTF-8 bytes.
    - A [dict] is a [gmap]; a value decoded from JSON is a [json].
    - Effects are explicit: a [state] holds the requests sent so far, the
      files on disk and the asset cache; an exception is a value of [exn].
    - Functions of third-party packages (urllib, pathlib, lxml, json,
      markdownify) are the fields of the class [Lib].
    - [time.sleep] and [print] change nothing that the program reads
      back and are left out. *)

From Stdlib Require Import ZArith Ascii Lia.
From Stdlib Require Import Floats.SpecFloat.
From stdpp Require Import base option strings list gmap pretty.

Set Warnings "-register-all".
Set Default Proof Using "Type".

(** ** Strings *)

Module Str.

(** [sep.join(parts)] *)
Fixpoint join (sep : string) (parts : list string) : string :=
  match parts with
  | [] => ""
  | [p] => p
  | p :: rest => p +:+ sep +:+ join sep rest
  end.

(** [sub in s] *)
Fixpoint contains_b (sub s : string) : bool :=
  String.prefix sub s ||
  match s with
  | "" => false
  | String _ s' => contains_b sub s'
  end.

Definition contains (sub s : string) : Prop :=
  ∃ before after, s = before +:+ sub +:+ after.

Definition lower_char (c : ascii) : ascii :=
  let n := nat_of_ascii c in
  if (65 <=? n)%nat && (n <=? 90)%nat then ascii_of_nat (n + 32) else c.

(** [s.lower()], on the ASCII letters *)
Fixpoint lower (s : string) : string :=
  match s with
  | "" => ""
  | String c s' => String (lower_char c) (lower s')
  end.

(** The ASCII characters for which [str.isspace] holds. *)
Definition is_space (c : ascii) : bool :=
  let n := nat_of_ascii c in
  ((9 <=? n)%nat && (n <=? 13)%nat) || ((28 <=? n)%nat && (n <=? 32)%nat).

Fixpoint lstrip (s : string) : string :=
  match s with
  | "" => ""
  | String c s' => if is_space c then lstrip s' else s
  end.

Definition rstrip (s : string) : string :=
  String.rev (lstrip (String.rev s)).

(** [s.strip()] *)
Definition strip (s : string) : string := rstrip (lstrip s).

(** Truth value of a [str]: the empty string is false. *)
Definition truthy (s : string) : bool :=
  match s with "" => false | _ => true end.

Definition quote : string := String "034"%char "".

End Str.

(** [f"{n:02d}"] for an index that is not negative *)
Definition fmt_02d (n : nat) : string :=
  if (n <? 10)%nat then "0" +:+ pretty n else pretty n.

(** ** Data *)

(** A value as [json.loads] returns it. *)
Inductive json :=
| JNull
| JBool (b : bool)
| JInt (z : Z)
| JFloat (f : spec_float)
| JStr (s : string)
| JList (items : list json)
| JObj (fields : gmap string json).

Inductive exn :=
| NameError (name : string)
| TypeError (msg : string)
| AssertionError.

(** An HTML tree as lxml holds it: elements with a tag, attributes and
    children, and the text between them. *)
Inductive node :=
| Element (tag : string) (attrs : list (string * string)) (children : list node)
| Text (text : string).

Record ArticleMeta := {
  title : json;
  author : json;
  published : json;
  source_url : string;
  language : string;
}.

Record DownloadResult := {
  meta : ArticleMeta;
  markdown_path : string;
  assets : list string;
  warnings : list string;
}.

(** ** Third-party functions *)

Class Lib := {
  (** [urllib.parse.urljoin(base, url)] *)
  urljoin : string → string → string;
  (** [urllib.parse.urlparse(url).path] *)
  url_path : string → string;
  (** [pathlib.Path(p).name] and [pathlib.Path(p).suffix] *)
  path_name : string → string;
  path_suffix : string → string;
  (** [Path(os.path.relpath(path, start)).as_posix()] *)
  relpath : string → string → string;
  (** [json.loads(text)]; [None] stands for [json.JSONDecodeError] *)
  json_loads : string → option json;
  (** [lxml.html.fromstring(text)] *)
  fromstring : string → node;
  (** [lxml.html.tostring(element, encoding="unicode")] *)
  tostring : node → string;
  (** [str(value)] inside an f-string *)
  py_str : json → string;
  (** [str(exc)] of the [httpx.HTTPStatusError] that [raise_for_status]
      raises for a status and a URL *)
  status_error : Z → string → string;
}.

(** ** Constants *)

Definition TARGET_ARTICLES : list string := [
  "https://magic.wizards.com/en/news/magic-story/episode-1-class-session-2021-03-25";
  "https://magic.wizards.com/en/news/magic-story/cry-magic-2021-03-26";
  "https://magic.wizards.com/en/news/magic-story/episode-2-lessons-2021-03-31";
  "https://magic.wizards.com/en/news/magic-story/episode-3-extracurriculars-2021-04-07";
  "https://magic.wizards.com/en/news/magic-story/chains-bind-2021-04-09";
  "https://magic.wizards.com/en/news/magic-story/episode-4-put-test-2021-04-14";
  "https://magic.wizards.com/en/news/magic-story/mentor-2021-04-16";
  "https://magic.wizards.com/en/news/magic-story/episode-5-final-exam-2021-04-21";
  "https://magic.wizards.com/en/news/magic-story/blue-green-ribbons-2021-04-23";
  "https://magic.wizards.com/en/news/magic-story/silent-voice-calls-2021-04-30"
].

Definition BASE_HEADERS : list (string * string) := [
  ("User-Agent",
   "Mozilla/5.0 (Windows NT 10.0; Win64; x64) " +:+
   "AppleWebKit/537.36 (KHTML, like Gecko) Chrome/120.0 Safari/537.36")
].

(** ** The network and the disk *)

Inductive verb := GET | STREAM.

Record request := {
  req_verb : verb;
  req_url : string;
  req_headers : list (string * string);
}.

(** What the site does with a request: it answers with a status and a
    body, of which [body] arrived before the transfer broke with the
    [httpx.HTTPError] [broken] (if any); or the request itself fails with
    an [httpx.HTTPError]. *)
Inductive reply :=
| Answer (status : Z) (body : string) (broken : option string)
| Failure (msg : string).

(** The site, as the client sees it: the reply to a request, given the
    requests made before it. *)
Definition network := list request → request → reply.

Record state := {
  requests : list request;
  files : gmap string string;
  cache : gmap string (gmap string string);
}.

Definition sent (rq : request) (st : state) : state :=
  {| requests := requests st ++ [rq]; files := files st; cache := cache st |}.

Definition with_files (fs : gmap string string) (st : state) : state :=
  {| requests := requests st; files := fs; cache := cache st |}.

Definition with_cache (c : gmap string (gmap string string)) (st : state) : state :=
  {| requests := requests st; files := files st; cache := c |}.

(** [pathlib]'s [parent / child] *)
Definition path_join (parent child : string) : string :=
  parent +:+ "/" +:+ child.

(** ** Basic helpers *)

Definition unsafe_char (c : ascii) : bool :=
  bool_decide (c ∈ ["\"; "/"; ":"; "*"; "?"; "034"; "<"; ">"; "|"]%char).

(** [re.sub] of the class of unsafe characters, repeated once or more, by
    an underscore: every maximal run of unsafe characters becomes one
    underscore. [in_run] tells that the previous
    character was unsafe. *)
Fixpoint replace_unsafe (in_run : bool) (name : string) : string :=
  match name with
  | "" => ""
  | String c rest =>
      if unsafe_char c
      then (if in_run then replace_unsafe true rest
            else String "_" (replace_unsafe true rest))
      else String c (replace_unsafe false rest)
  end.

Definition sanitize_filename (name fallback : string) : string :=
  let cleaned := Str.strip (replace_unsafe false name) in
  if Str.truthy cleaned then cleaned else fallback.

Definition derive_slug `{Lib} (source_url : string) : string :=
  sanitize_filename (path_name (url_path source_url)) "untitled".

Definition build_headers (language_code : string) : list (string * string) :=
  BASE_HEADERS ++
  [("Accept-Language",
    if String.prefix "zh" (Str.lower language_code)
    then "zh-CN,zh;q=0.9,en;q=0.6"
    else "en-US,en;q=0.8")].

(** ** fetch_html *)

Definition attempt_tag (attempt max_retries : Z) : string :=
  " (尝试 " +:+ pretty attempt +:+ "/" +:+ pretty max_retries +:+ ")".

Definition http_warning (status : Z) (url : string) (attempt max_retries : Z) : string :=
  "HTTP " +:+ pretty status +:+ "：" +:+ url +:+ attempt_tag attempt max_retries.

Definition exception_warning (exc : string) (attempt max_retries : Z) : string :=
  "请求异常：" +:+ exc +:+ attempt_tag attempt max_retries.

Definition get_request (url language_code : string) : request :=
  {| req_verb := GET; req_url := url; req_headers := build_headers language_code |}.

(** The body of the [for attempt in range(1, max_retries + 1)] loop, over
    the attempts that are left. *)
Fixpoint fetch_attempts (net : network) (url language_code : string)
    (max_retries : Z) (attempts : list Z) (warnings : list string) (st : state)
    : option string * list string * state :=
  match attempts with
  | [] => (None, warnings, st)
  | attempt :: rest =>
      let rq := get_request url language_code in
      let st' := sent rq st in
      match net (requests st) rq with
      | Answer status text None =>
          if (status =? 200)%Z && Str.truthy text
          then (Some text, warnings, st')
          else fetch_attempts net url language_code max_retries rest
                 (warnings ++ [http_warning status url attempt max_retries]) st'
      | Answer _ _ (Some exc) | Failure exc =>
          fetch_attempts net url language_code max_retries rest
            (warnings ++ [exception_warning exc attempt max_retries]) st'
      end
  end.

Definition fetch_html (net : network) (url language_code : string)
    (max_retries : Z) (st : state) : option string * list string * state :=
  fetch_attempts net url language_code max_retries
    (seqZ 1 max_retries) [] st.

(** ** XPath queries on the tree *)

(** The nodes of [descendant-or-self::node()], in document order. *)
Fixpoint descendants (n : node) : list node :=
  match n with
  | Element _ _ children => n :: flat_map descendants children
  | Text _ => [n]
  end.

Definition tag_is (name : string) (n : node) : bool :=
  match n with
  | Element t _ _ => bool_decide (t = name)
  | Text _ => false
  end.

Fixpoint assoc (key : string) (pairs : list (string * string)) : option string :=
  match pairs with
  | [] => None
  | (k, v) :: rest => if bool_decide (k = key) then Some v else assoc key rest
  end.

(** [element.get(name)] *)
Definition get_attr (name : string) (n : node) : option string :=
  match n with
  | Element _ attrs _ => assoc name attrs
  | Text _ => None
  end.

Definition attr_is (name value : string) (n : node) : bool :=
  bool_decide (get_attr name n = Some value).

Definition has_attr (name : string) (n : node) : bool :=
  bool_decide (is_Some (get_attr name n)).

Definition children_of (n : node) : list node :=
  match n with
  | Element _ _ children => children
  | Text _ => []
  end.

Definition text_of (n : node) : option string :=
  match n with
  | Text s => Some s
  | Element _ _ _ => None
  end.

(** The XPath string value of a node: the text below it, concatenated. *)
Fixpoint string_value (n : node) : string :=
  match n with
  | Element _ _ children => Str.join "" (map string_value children)
  | Text s => s
  end.

(** [string(nodes)]: the string value of the first node, if any. *)
Definition xpath_string (nodes : list node) : string :=
  match nodes with
  | [] => ""
  | n :: _ => string_value n
  end.

(** [//script[@type="application/ld+json"]/text()] *)
Definition ld_json_texts (tree : node) : list string :=
  flat_map (λ n, omap text_of (children_of n))
    (filter (λ n, tag_is "script" n && attr_is "type" "application/ld+json" n)
       (descendants tree)).

(** [//h1] and [//*[@data-testid=value]] *)
Definition by_tag (name : string) (tree : node) : list node :=
  filter (λ n, tag_is name n) (descendants tree).

Definition by_testid (value : string) (tree : node) : list node :=
  filter (λ n, attr_is "data-testid" value n) (descendants tree).

(** [//link[@rel="alternate"][@hreflang]] *)
Definition alternate_links (tree : node) : list node :=
  filter (λ n, tag_is "link" n && attr_is "rel" "alternate" n && has_attr "hreflang" n)
    (descendants tree).

(** [//article | //main | //*[@data-component="Article"]]: the union of
    the three node sets, which XPath returns in document order. *)
Definition is_main_block (n : node) : bool :=
  tag_is "article" n || tag_is "main" n || attr_is "data-component" "Article" n.

Definition main_blocks (tree : node) : list node :=
  filter (λ n, is_main_block n) (descendants tree).

(** [//article//img | //main//img]: the [img] elements strictly below an
    [article] or a [main] element, in document order. [inside] tells that
    such an ancestor was passed. *)
Fixpoint body_images (inside : bool) (n : node) : list node :=
  match n with
  | Element t _ children =>
      (if inside && bool_decide (t = "img") then [n] else []) ++
      flat_map
        (body_images (inside || bool_decide (t = "article") || bool_decide (t = "main")))
        children
  | Text _ => []
  end.

(** ** extract_article_meta *)

Definition is_zero (f : spec_float) : bool :=
  match f with
  | S754_zero _ => true
  | _ => false
  end.

(** Truth value of a decoded JSON value. *)
Definition json_truthy (v : json) : bool :=
  match v with
  | JNull => false
  | JBool b => b
  | JInt z => negb (z =? 0)%Z
  | JFloat f => negb (is_zero f)
  | JStr s => Str.truthy s
  | JList items => match items with [] => false | _ => true end
  | JObj fields => negb (bool_decide (fields = ∅))
  end.

(** [a or b] *)
Definition py_or (a b : json) : json :=
  if json_truthy a then a else b.

(** [d.get(key)], where Python's [None] is [JNull] *)
Definition dict_get (d : gmap string json) (key : string) : json :=
  default JNull (d !! key).

Definition as_dict (v : json) : option (gmap string json) :=
  match v with
  | JObj d => Some d
  | _ => None
  end.

(** [value not in {"Article", "NewsArticle"}]; a list or a dict cannot be
    hashed, and the test raises. *)
Definition not_article_type (value : json) : exn + bool :=
  match value with
  | JStr s => inr (negb (bool_decide (s = "Article") || bool_decide (s = "NewsArticle")))
  | JList _ => inl (TypeError "unhashable type: 'list'")
  | JObj _ => inl (TypeError "unhashable type: 'dict'")
  | _ => inr true
  end.

(** [", ".join(parts)], which raises on a part that is not a [str] *)
Fixpoint join_names (parts : list json) : exn + list string :=
  match parts with
  | [] => inr []
  | JStr s :: rest =>
      match join_names rest with
      | inr names => inr (s :: names)
      | inl e => inl e
      end
  | _ :: _ => inl (TypeError "sequence item: expected str instance")
  end.

(** The three fields that the scan of the JSON-LD blocks fills in. *)
Record fields := {
  f_title : json;
  f_author : json;
  f_published : json;
}.

Definition author_after (author_data author : json) : exn + json :=
  match author_data with
  | JList entries =>
      let names := map (λ a, dict_get a "name") (omap as_dict entries) in
      match join_names (filter (λ v, json_truthy v = true) names) with
      | inr kept => inr (py_or (JStr (Str.join ", " kept)) author)
      | inl e => inl e
      end
  | JObj d => inr (default author (d !! "name"))
  | _ => inr author
  end.

(** One turn of [for item in candidates]. *)
Definition scan_item (item : gmap string json) (acc : fields) : exn + fields :=
  match not_article_type (dict_get item "@type") with
  | inl e => inl e
  | inr true => inr acc
  | inr false =>
      let title := py_or (dict_get item "headline") (f_title acc) in
      let published := py_or (dict_get item "datePublished") (f_published acc) in
      match author_after (dict_get item "author") (f_author acc) with
      | inl e => inl e
      | inr author =>
          inr {| f_title := title; f_author := author; f_published := published |}
      end
  end.

Fixpoint scan_items (items : list (gmap string json)) (acc : fields) : exn + fields :=
  match items with
  | [] => inr acc
  | item :: rest =>
      match scan_item item acc with
      | inl e => inl e
      | inr acc' => scan_items rest acc'
      end
  end.

(** The candidates of one script text: none when it does not parse or is
    neither a list nor a dict. *)
Definition candidates `{Lib} (text : string) : list (gmap string json) :=
  match json_loads text with
  | Some (JList data) => omap as_dict data
  | Some (JObj data) => [data]
  | _ => []
  end.

(** The items in the order in which the two nested loops meet them. *)
Definition ld_json_items `{Lib} (tree : node) : list (gmap string json) :=
  flat_map candidates (ld_json_texts tree).

Definition fallback_field (current : json) (found : string) : json :=
  if json_truthy current then current else JStr (Str.strip found).

Definition extract_article_meta `{Lib} (tree : node)
    (language_code source_url : string) : exn + ArticleMeta :=
  match scan_items (ld_json_items tree)
          {| f_title := JStr ""; f_author := JStr ""; f_published := JStr "" |} with
  | inl e => inl e
  | inr acc =>
      let title := fallback_field (f_title acc) (xpath_string (by_tag "h1" tree)) in
      let author :=
        fallback_field (f_author acc) (xpath_string (by_testid "byline-name" tree)) in
      let published :=
        fallback_field (f_published acc) (xpath_string (by_testid "publish-date" tree)) in
      inr {| title := py_or title (JStr "未命名文章");
             author := py_or author (JStr "未知作者");
             published := published;
             source_url := source_url;
             language := language_code |}
  end.

(** ** extract_language_variants *)

Definition variant_of `{Lib} (base_url : string) (link : node)
    (variants : gmap string string) : gmap string string :=
  let lang := Str.strip (default "" (get_attr "hreflang" link)) in
  let href := Str.strip (default "" (get_attr "href" link)) in
  if Str.truthy lang && Str.truthy href
  then <[Str.lower lang := urljoin base_url href]> variants
  else variants.

Definition extract_language_variants `{Lib} (tree : node) (base_url : string)
    : gmap string string :=
  fold_left (λ variants link, variant_of base_url link variants)
    (alternate_links tree) ∅.

(** ** html_to_markdown *)

(** What the module-level [try: import trafilatura ... except: from
    markdownify import markdownify as md] leaves behind: either
    [trafilatura] with [HAVE_TRAF = True], or the name [md] with
    [HAVE_TRAF = False]. *)
Inductive extractor :=
| Trafilatura (extract : string → string → option string)
| Markdownify (md : string → string).

Definition html_fragment `{Lib} (tree : node) : string :=
  let found := main_blocks tree in
  Str.join "" (map tostring (match found with [] => [tree] | _ => found end)).

Definition html_to_markdown `{Lib} (ex : extractor) (html_text source_url : string)
    : exn + string :=
  match ex with
  | Trafilatura extract =>
      match extract html_text source_url with
      | Some result =>
          if Str.truthy result then inr result else inl (NameError "md")
      | None => inl (NameError "md")
      end
  | Markdownify md => inr (md (html_fragment (fromstring html_text)))
  end.

(** ** collect_images *)

Definition image_of `{Lib} (base_url : string) (img : node) : list (string * string) :=
  let src :=
    match get_attr "src" img with
    | Some s => if Str.truthy s then s else default "" (get_attr "data-src" img)
    | None => default "" (get_attr "data-src" img)
    end in
  if Str.truthy src
  then [(urljoin base_url src, Str.strip (default "" (get_attr "alt" img)))]
  else [].

Definition collect_images `{Lib} (tree : node) (base_url : string)
    : list (string * string) :=
  flat_map (image_of base_url) (body_images false tree).

(** ** rewrite_markdown_images *)

(** The text before the first [c] and the text after it. *)
Fixpoint split_at (c : ascii) (s : string) : option (string * string) :=
  match s with
  | "" => None
  | String x rest =>
      if bool_decide (x = c) then Some ("", rest)
      else match split_at c rest with
           | Some (before, after) => Some (String x before, after)
           | None => None
           end
  end.

(** A match of [MD_IMAGE_PATTERN] at the start of [s]: the groups [alt]
    and [src] and the text after the match. Neither group can hold its
    closing character, so each ends at the first one. *)
Definition match_image (s : string) : option (string * string * string) :=
  match s with
  | String "!" (String "[" s1) =>
      match split_at "]" s1 with
      | Some (alt, String "(" s2) =>
          match split_at ")" s2 with
          | Some (src, rest) =>
              if Str.truthy src then Some (alt, src, rest) else None
          | None => None
          end
      | _ => None
      end
  | _ => None
  end.

(** [_replace(match)] *)
Definition replace_image (replacement_map : gmap string string) (alt src : string)
    : string :=
  "![" +:+ alt +:+ "](" +:+ default src (replacement_map !! src) +:+ ")".

(** [MD_IMAGE_PATTERN.sub(_replace, text)]: the matches are taken from
    left to right and do not overlap. *)
Fixpoint sub_images (fuel : nat) (replacement_map : gmap string string)
    (s : string) : string :=
  match fuel, s with
  | S fuel', String c rest =>
      match match_image s with
      | Some (alt, src, after) =>
          replace_image replacement_map alt src +:+
          sub_images fuel' replacement_map after
      | None => String c (sub_images fuel' replacement_map rest)
      end
  | _, _ => s
  end.

Definition rewrite_markdown_images (markdown_text : string)
    (replacement_map : gmap string string) : string :=
  sub_images (String.length markdown_text) replacement_map markdown_text.

(** ** Computations *)

(** How a call ends when it does not return: an exception that nothing
    catches, or a loop that the model stopped for lack of fuel. *)
Inductive failure :=
| Raised (e : exn)
| OutOfFuel.

Definition M (A : Type) : Type := state → (failure + A) * state.

Definition ret {A} (a : A) : M A := λ st, (inr a, st).

Definition bind {A B} (c : M A) (k : A → M B) : M B :=
  λ st, match c st with
        | (inr a, st') => k a st'
        | (inl f, st') => (inl f, st')
        end.

Definition lift_exn {A} (r : exn + A) : M A :=
  λ st, match r with
        | inr a => (inr a, st)
        | inl e => (inl (Raised e), st)
        end.

Declare Scope scraper_scope.
Delimit Scope scraper_scope with scraper.
Notation "'let*' x := c 'in' k" := (bind c (λ x, k))
  (at level 10, x pattern, c at level 100, k at level 200) : scraper_scope.
Open Scope scraper_scope.

(** ** AssetManager *)

(** The two roots that [StoryScraper.__init__] stores; the asset manager
    gets [asset_root] as its [base_dir]. *)
Record StoryScraper := {
  output_root : string;
  asset_root : string;
}.

(** [httpx.Response.is_success], which [raise_for_status] tests *)
Definition is_success (status : Z) : bool :=
  (200 <=? status)%Z && (status <=? 299)%Z.

Definition download_warning (remote_url exc : string) : string :=
  "图片下载失败：" +:+ remote_url +:+ " -> " +:+ exc.

Definition file_stem (index : nat) (safe_alt : string) : string :=
  fmt_02d index +:+ "_" +:+ safe_alt.

(** The candidate that [while candidate.exists()] sets for a counter. *)
Definition numbered_name (slug_dir stem ext : string) (suffix_counter : nat) : string :=
  path_join slug_dir (stem +:+ "_" +:+ pretty suffix_counter +:+ ext).

(** [while candidate.exists(): ...], run for at most [fuel] turns; [None]
    when the fuel is used up. *)
Fixpoint free_candidate (fuel : nat) (fs : gmap string string)
    (numbered : nat → string) (candidate : string) (suffix_counter : nat)
    : option string :=
  match fs !! candidate with
  | None => Some candidate
  | Some _ =>
      match fuel with
      | 0 => None
      | S fuel' =>
          free_candidate fuel' fs numbered (numbered suffix_counter) (S suffix_counter)
      end
  end.

(** [self.cache.setdefault(slug, {})]: the inner dict and the cache with
    it in place. *)
Definition setdefault (slug : string) (c : gmap string (gmap string string))
    : gmap string string * gmap string (gmap string string) :=
  match c !! slug with
  | Some slug_cache => (slug_cache, c)
  | None => (∅, <[slug := ∅]> c)
  end.

Definition stream_request (remote_url : string) : request :=
  {| req_verb := STREAM; req_url := remote_url; req_headers := BASE_HEADERS |}.

(** The extension and the stem of the file name of an image. *)
Definition extension `{Lib} (remote_url : string) : string :=
  let suffix := path_suffix (url_path remote_url) in
  if Str.truthy suffix then suffix else ".jpg".

Definition stem_of (alt_text : string) (index : nat) : string :=
  file_stem index (sanitize_filename alt_text ("image-" +:+ fmt_02d index)).

(** The first candidate, and the candidate for a counter. *)
Definition derived_name `{Lib} (base_dir slug remote_url alt_text : string)
    (index : nat) : string :=
  path_join (path_join base_dir slug) (stem_of alt_text index +:+ extension remote_url).

Definition numbered `{Lib} (base_dir slug remote_url alt_text : string)
    (index : nat) (suffix_counter : nat) : string :=
  numbered_name (path_join base_dir slug) (stem_of alt_text index)
    (extension remote_url) suffix_counter.

(** The path that the [while] loop leaves in [candidate]. The fuel is
    one more than the number of paths that exist. *)
Definition choose_candidate `{Lib} (base_dir slug remote_url alt_text : string)
    (index : nat) (fs : gmap string string) : option string :=
  free_candidate (S (size fs)) fs
    (numbered base_dir slug remote_url alt_text index)
    (derived_name base_dir slug remote_url alt_text index) 1.

(** [ensure_download]. The directories are not part of the state:
    [slug_dir.mkdir(parents=True, exist_ok=True)] is taken to succeed. The
    request is sent when the [with client.stream(...)] block is entered;
    [raise_for_status] comes before the file is opened, so that a bad
    status leaves no file, while a transfer that breaks leaves the part
    that arrived. *)
Definition ensure_download `{Lib} (net : network) (base_dir : string)
    (slug remote_url alt_text : string) (index : nat)
    : M (option string * option string) :=
  λ st,
  let '(slug_cache, c) := setdefault slug (cache st) in
  let st := with_cache c st in
  match slug_cache !! remote_url with
  | Some path => (inr (Some path, None), st)
  | None =>
      match choose_candidate base_dir slug remote_url alt_text index (files st) with
      | None => (inl OutOfFuel, st)
      | Some candidate =>
          let rq := stream_request remote_url in
          let st' := sent rq st in
          match net (requests st) rq with
          | Failure exc =>
              (inr (None, Some (download_warning remote_url exc)), st')
          | Answer status body broken =>
              if is_success status then
                let st' := with_files (<[candidate := body]> (files st')) st' in
                match broken with
                | Some exc =>
                    (inr (None, Some (download_warning remote_url exc)), st')
                | None =>
                    (inr (Some candidate, None),
                     with_cache
                       (<[slug := <[remote_url := candidate]> slug_cache]> (cache st'))
                       st')
                end
              else
                (inr (None,
                      Some (download_warning remote_url
                              (status_error status remote_url))), st')
          end
      end
  end.

(** [cache[slug][remote_url]], when both keys are there *)
Definition cached_path (c : gmap string (gmap string string))
    (slug remote_url : string) : option string :=
  c !! slug ≫= (.!! remote_url).

(** ** StoryScraper *)

(** What the image loop of [scrape_article] builds up. *)
Record gathered := {
  g_assets : list string;
  g_map : gmap string string;
  g_warnings : list string;
}.

(** [for idx, (img_url, alt) in enumerate(images, start=1)], from [idx] on *)
Fixpoint download_images `{Lib} (net : network) (cfg : StoryScraper)
    (slug markdown_dir : string) (images : list (string * string)) (idx : nat)
    (acc : gathered) : M gathered :=
  match images with
  | [] => ret acc
  | (img_url, alt) :: rest =>
      let* (local_path, warn) :=
        ensure_download net (asset_root cfg) slug img_url alt idx in
      let acc' :=
        match warn, local_path with
        | Some w, _ =>
            if Str.truthy w
            then {| g_assets := g_assets acc; g_map := g_map acc;
                    g_warnings := g_warnings acc ++ [w] |}
            else
              match local_path with
              | Some p =>
                  {| g_assets := g_assets acc ++ [p];
                     g_map := <[img_url := relpath p markdown_dir]> (g_map acc);
                     g_warnings := g_warnings acc |}
              | None => acc
              end
        | None, Some p =>
            {| g_assets := g_assets acc ++ [p];
               g_map := <[img_url := relpath p markdown_dir]> (g_map acc);
               g_warnings := g_warnings acc |}
        | None, None => acc
        end in
      download_images net cfg slug markdown_dir rest (S idx) acc'
  end.

Definition newline : string := String "010"%char "".

Definition to_str `{Lib} (v : json) : string :=
  match v with
  | JStr s => s
  | _ => py_str v
  end.

Definition front_matter `{Lib} (m : ArticleMeta) : list string := [
  "---";
  "title: " +:+ Str.quote +:+ to_str (title m) +:+ Str.quote;
  "author: " +:+ to_str (author m);
  "published: " +:+ to_str (published m);
  "source: " +:+ source_url m;
  "language: " +:+ language m;
  "tags: [Strixhaven, Magic Story]";
  "---";
  "";
  "_注：非盈利同人整理，遵循威世智粉丝内容政策，仅供教学与跑团使用。_";
  ""
].

(** [path.write_text(content)] *)
Definition write_text (path content : string) : M unit :=
  λ st, (inr (), with_files (<[path := content]> (files st)) st).

(** [fetch_html] with the default [max_retries=3] *)
Definition fetch (net : network) (url language_code : string)
    : M (option string * list string) :=
  λ st, let '(text, warnings, st') := fetch_html net url language_code 3 st in
        (inr (text, warnings), st').

(** The record of a language whose page could not be fetched. *)
Definition failed_result (cfg : StoryScraper) (slug lang_code lang_url : string)
    (warnings : list string) : DownloadResult :=
  {| meta := {| title := JStr "抓取失败"; author := JStr ""; published := JStr "";
                source_url := lang_url; language := lang_code |};
     markdown_path := path_join (path_join (output_root cfg) slug) (lang_code +:+ ".md");
     assets := [];
     warnings := warnings |}.

(** The part of the loop body of [scrape_article] below the two [assert]
    statements: from the metadata to the result record. *)
Definition process_page `{Lib} (net : network) (ex : extractor) (cfg : StoryScraper)
    (slug lang_code lang_url : string) (tree : node) (html : string)
    (warnings : list string) : M DownloadResult :=
  let* meta := lift_exn (extract_article_meta tree lang_code lang_url) in
  let* markdown := lift_exn (html_to_markdown ex html lang_url) in
  let images := collect_images tree lang_url in
  let markdown_dir := path_join (output_root cfg) slug in
  let* got :=
    download_images net cfg slug markdown_dir images 1
      {| g_assets := []; g_map := ∅; g_warnings := warnings |} in
  let markdown := rewrite_markdown_images markdown (g_map got) in
  let markdown_path := path_join markdown_dir (lang_code +:+ ".md") in
  let* _ := write_text markdown_path
              (Str.join newline (front_matter meta) +:+ markdown) in
  ret {| meta := meta; markdown_path := markdown_path;
         assets := g_assets got; warnings := g_warnings got |}.

(** An entry of [language_plan]. *)
Record planned := {
  lang_code : string;
  lang_url : string;
  cached_tree : option node;
  cached_html : option string;
  plan_warnings : list string;
}.

(** One turn of [for ... in language_plan]: the record that the turn
    appends to [results]. *)
Definition process_variant `{Lib} (net : network) (ex : extractor) (cfg : StoryScraper)
    (slug : string) (p : planned) : M DownloadResult :=
  match cached_html p with
  | None =>
      let* (html_text, new_warnings) := fetch net (lang_url p) (lang_code p) in
      let warnings := plan_warnings p ++ new_warnings in
      match html_text with
      | Some text =>
          if Str.truthy text
          then process_page net ex cfg slug (lang_code p) (lang_url p)
                 (fromstring text) text warnings
          else ret (failed_result cfg slug (lang_code p) (lang_url p)
                      (warnings ++ ["多语言页面不可用：" +:+ lang_code p +:+ " -> " +:+ lang_url p]))
      | None =>
          ret (failed_result cfg slug (lang_code p) (lang_url p)
                 (warnings ++ ["多语言页面不可用：" +:+ lang_code p +:+ " -> " +:+ lang_url p]))
      end
  | Some html =>
      match cached_tree p with
      | None => lift_exn (inl AssertionError)
      | Some tree =>
          process_page net ex cfg slug (lang_code p) (lang_url p) tree html
            (plan_warnings p)
      end
  end.

Fixpoint process_plan `{Lib} (net : network) (ex : extractor) (cfg : StoryScraper)
    (slug : string) (plan : list planned) (results : list DownloadResult)
    : M (list DownloadResult) :=
  match plan with
  | [] => ret results
  | p :: rest =>
      let* r := process_variant net ex cfg slug p in
      process_plan net ex cfg slug rest (results ++ [r])
  end.

(** [variants.get(key)], with [None] for a missing key or (read by [or]
    and [if]) an empty value *)
Definition truthy_get (variants : gmap string string) (key : string) : option string :=
  match variants !! key with
  | Some v => if Str.truthy v then Some v else None
  | None => None
  end.

(** [variants.get("zh") or variants.get("zh-cn") or variants.get("zh-hans")],
    then [if zh_url] *)
Definition zh_url (variants : gmap string string) : option string :=
  match truthy_get variants "zh" with
  | Some u => Some u
  | None =>
      match truthy_get variants "zh-cn" with
      | Some u => Some u
      | None => truthy_get variants "zh-hans"
      end
  end.

Definition language_plan (url : string) (en_tree : node) (en_html : string)
    (en_warnings : list string) (variants : gmap string string) : list planned :=
  {| lang_code := "en"; lang_url := url; cached_tree := Some en_tree;
     cached_html := Some en_html; plan_warnings := en_warnings |} ::
  match zh_url variants with
  | Some u =>
      [{| lang_code := "zh-Hans"; lang_url := u; cached_tree := None;
          cached_html := None; plan_warnings := [] |}]
  | None => []
  end.

Definition scrape_article `{Lib} (net : network) (ex : extractor) (cfg : StoryScraper)
    (url : string) : M (list DownloadResult) :=
  let slug := derive_slug url in
  let* (en_html, en_warnings) := fetch net url "en" in
  match en_html with
  | None => ret []
  | Some en_html =>
      if Str.truthy en_html then
        let en_tree := fromstring en_html in
        let variants := extract_language_variants en_tree url in
        process_plan net ex cfg slug
          (language_plan url en_tree en_html en_warnings variants) []
      else ret []
  end.

(** [run]: the loop over the target articles, from the one numbered [idx]. *)
Fixpoint run_from `{Lib} (net : network) (ex : extractor) (cfg : StoryScraper)
    (limit : option Z) (articles : list string) (idx : Z)
    (all_results : list DownloadResult) : M (list DownloadResult) :=
  match articles with
  | [] => ret all_results
  | url :: rest =>
      let over :=
        match limit with
        | Some l => (l <? idx)%Z
        | None => false
        end in
      if over then ret all_results
      else
        let* results := scrape_article net ex cfg url in
        run_from net ex cfg limit rest (idx + 1) (all_results ++ results)
  end.

Definition run `{Lib} (net : network) (ex : extractor) (cfg : StoryScraper)
    (limit : option Z) : M (list DownloadResult) :=
  run_from net ex cfg limit TARGET_ARTICLES 1 [].

(** ** Notions used in the statements *)

Definition initial : state := {| requests := []; files := ∅; cache := ∅ |}.

(** A reply that [fetch_html] does not take for the page: a status other
    than 200, an empty body, or an exception. *)
Definition rejected (r : reply) : bool :=
  match r with
  | Answer status text None => negb ((status =? 200)%Z && Str.truthy text)
  | _ => true
  end.

(** The site fails on every attempt to get [url]. *)
Definition always_fails (net : network) (url language_code : string) : Prop :=
  ∀ history, rejected (net history (get_request url language_code)) = true.

(** The state after [n] more requests [rq]. *)
Definition after (n : nat) (rq : request) (st : state) : state :=
  {| requests := requests st ++ replicate n rq; files := files st; cache := cache st |}.

(** A site for which every request times out, and one that fails in three
    different ways. *)
Definition story_url : string := "https://example.org/story".

Definition timeout_site : network := λ _ _, Failure "timed out".

Definition failing_site : network := λ history _,
  match length history with
  | 0 => Answer 503 "busy" None
  | 1 => Answer 200 "" None
  | _ => Failure "timed out"
  end.

(** The text as [MD_IMAGE_PATTERN] cuts it: the matches, from left to
    right, and the characters between them. *)
Inductive piece :=
| Plain (c : ascii)
| Image (alt src : string).

Fixpoint pieces (fuel : nat) (s : string) : list piece :=
  match fuel, s with
  | S fuel', String c rest =>
      match match_image s with
      | Some (alt, src, after) => Image alt src :: pieces fuel' after
      | None => Plain c :: pieces fuel' rest
      end
  | _, _ => []
  end.

Definition occurrences (text : string) : list piece :=
  pieces (String.length text) text.

(** The text of a piece, and its text after the rewriting. *)
Definition source_of (p : piece) : string :=
  match p with
  | Plain c => String c ""
  | Image alt src => "![" +:+ alt +:+ "](" +:+ src +:+ ")"
  end.

Definition rewritten (replacement_map : gmap string string) (p : piece) : string :=
  match p with
  | Plain c => String c ""
  | Image alt src =>
      match replacement_map !! src with
      | Some path => "![" +:+ alt +:+ "](" +:+ path +:+ ")"
      | None => source_of p
      end
  end.

Fixpoint has_char (c : ascii) (s : string) : bool :=
  match s with
  | "" => false
  | String x rest => bool_decide (x = c) || has_char c rest
  end.

(** What [MD_IMAGE_PATTERN] asks of the two groups of an image reference:
    [alt] has no closing bracket, and [src] is not empty and has no
    closing parenthesis. *)
Definition reference (alt src : string) : bool :=
  negb (has_char "]" alt) && negb (has_char ")" src) && Str.truthy src.

(** The text starts with an image reference: the pattern matches at its
    first character. *)
Definition starts_with_reference (s : string) : Prop :=
  ∃ alt src after,
    reference alt src = true ∧
    s = "![" +:+ alt +:+ "](" +:+ src +:+ ")" +:+ after.

(** The characters of a text, each as a piece of its own. *)
Fixpoint plain (s : string) : list piece :=
  match s with
  | "" => []
  | String c rest => Plain c :: plain rest
  end.

(** A reply with which the download of an image fails: the request
    raises, the status is not a success, or the transfer breaks. *)
Definition download_fails (r : reply) : bool :=
  match r with
  | Failure _ => true
  | Answer status _ broken => negb (is_success status) || bool_decide (is_Some broken)
  end.

(** What may happen between two calls of [ensure_download] in a run:
    another call of it, or anything that leaves the cache alone and
    removes no file (a fetch, the writing of a Markdown file). *)
Inductive step `{Lib} (net : network) (base_dir : string) : state → state → Prop :=
| step_download slug remote_url alt_text index st :
    step net base_dir st
      (ensure_download net base_dir slug remote_url alt_text index st).2
| step_other st st' :
    cache st' = cache st →
    dom (files st) ⊆ dom (files st') →
    step net base_dir st st'.

(** An item whose declared type is an article type. *)
Definition is_article (item : gmap string json) : bool :=
  match dict_get item "@type" with
  | JStr s => bool_decide (s = "Article") || bool_decide (s = "NewsArticle")
  | _ => false
  end.

(** What an item has to say about a field: its value, when the scan
    takes it. *)
Definition headline_of (item : gmap string json) : option json :=
  let v := dict_get item "headline" in
  if json_truthy v then Some v else None.

Definition date_of (item : gmap string json) : option json :=
  let v := dict_get item "datePublished" in
  if json_truthy v then Some v else None.

Definition names_of (entries : list json) : list json :=
  filter (λ v, json_truthy v = true)
    (map (λ a, dict_get a "name") (omap as_dict entries)).

Definition author_of (item : gmap string json) : option json :=
  match dict_get item "author" with
  | JList entries =>
      match join_names (names_of entries) with
      | inr kept =>
          if Str.truthy (Str.join ", " kept)
          then Some (JStr (Str.join ", " kept)) else None
      | inl _ => None
      end
  | JObj d => d !! "name"
  | _ => None
  end.


Definition is_str (v : json) : bool :=
  match v with
  | JStr _ => true
  | _ => false
  end.

(** An item on which the scan does not raise: its type can be hashed,
    and the names of an article's author list are strings. *)
Definition well_typed (item : gmap string json) : bool :=
  match dict_get item "@type" with
  | JList _ | JObj _ => false
  | _ => true
  end &&
  (negb (is_article item) ||
   match dict_get item "author" with
   | JList entries => forallb is_str (names_of entries)
   | _ => true
   end).

(** The selection as the specification words it: the [article] elements,
    else the [main] elements, else the elements flagged as the article
    component. *)
Definition first_matching_block (tree : node) : list node :=
  match by_tag "article" tree with
  | (_ :: _) as found => found
  | [] =>
      match by_tag "main" tree with
      | (_ :: _) as found => found
      | [] => filter (λ n, attr_is "data-component" "Article" n) (descendants tree)
      end
  end.

(** The first of the keys that the mapping has. *)
Fixpoint first_present (keys : list string) (variants : gmap string string)
    : option string :=
  match keys with
  | [] => None
  | key :: rest =>
      match variants !! key with
      | Some url => Some url
      | None => first_present rest variants
      end
  end.

(** A computation all of whose runs are sequences of such steps. *)
Definition steady `{Lib} (net : network) (base_dir : string) {A} (c : M A) : Prop :=
  ∀ st, rtc (step net base_dir) st (c st).2.

(** ** A small site, for the examples

    Stand-ins for the third-party functions that know the pages and the
    JSON texts of the examples, and a site that serves them. *)

Module Sample.

Fixpoint attrs_text (attrs : list (string * string)) : string :=
  match attrs with
  | [] => ""
  | (k, v) :: rest =>
      " " +:+ k +:+ "=" +:+ Str.quote +:+ v +:+ Str.quote +:+ attrs_text rest
  end.

Fixpoint serialize (n : node) : string :=
  match n with
  | Text s => s
  | Element t attrs children =>
      "<" +:+ t +:+ attrs_text attrs +:+ ">" +:+
      Str.join "" (map serialize children) +:+ "</" +:+ t +:+ ">"
  end.

(** The text after the last [c] of [s], if [c] occurs. *)
Fixpoint after_last (c : ascii) (s : string) : option string :=
  match s with
  | "" => None
  | String x rest =>
      match after_last c rest with
      | Some t => Some t
      | None => if bool_decide (x = c) then Some rest else None
      end
  end.

Definition name_of (path : string) : string :=
  default path (after_last "/" path).

Definition suffix_of (path : string) : string :=
  match after_last "." (name_of path) with
  | Some ext => "." +:+ ext
  | None => ""
  end.

Definition origin : string := "https://example.org".

Definition zh_story_url : string := "https://example.org/zh-Hans/story".

Definition first_block : gmap string json :=
  {[ "@type" := JStr "Article"; "headline" := JStr "Draft title";
     "datePublished" := JStr "2021-03-24";
     "author" := JObj {[ "name" := JStr "A. Writer" ]} ]}.

Definition second_block : gmap string json :=
  {[ "@type" := JStr "NewsArticle"; "headline" := JStr "Class Session";
     "datePublished" := JStr "2021-03-25";
     "author" := JList [JObj {[ "name" := JStr "A. Writer" ]};
                        JObj {[ "name" := JStr "B. Editor" ]}] ]}.

Definition script (text : string) : node :=
  Element "script" [("type", "application/ld+json")] [Text text].

Definition cover : node :=
  Element "img" [("src", "/img/cover.jpg"); ("alt", "cover")] [].

Definition article_block : node :=
  Element "article" []
    [Element "h1" [] [Text "Class Session"]; cover; Text "Once upon a time."].

Definition main_block : node :=
  Element "main" [] [Text "More stories."].

Definition en_tree : node :=
  Element "html" []
    [Element "head" []
       [Element "link"
          [("rel", "alternate"); ("hreflang", "zh-Hans"); ("href", "/zh-Hans/story")] [];
        script "first block"; script "second block"];
     Element "body" [] [article_block; main_block]].

Definition zh_tree : node :=
  Element "html" []
    [Element "body" [] [Element "article" [] [Text "很久以前。"]]].

(** A page without an alternate link. *)
Definition plain_tree : node :=
  Element "html" [] [Element "body" [] [Element "article" [] [Text "Alone."]]].

Definition en_html : string := serialize en_tree.
Definition zh_html : string := serialize zh_tree.
Definition plain_html : string := serialize plain_tree.

#[export] Instance lib : Lib := {|
  urljoin base href :=
    if String.prefix "http" href then href else origin +:+ href;
  url_path url := url;
  path_name := name_of;
  path_suffix := suffix_of;
  relpath path start := path;
  json_loads text :=
    if bool_decide (text = "first block") then Some (JObj first_block)
    else if bool_decide (text = "second block") then Some (JObj second_block)
    else None;
  fromstring text :=
    if bool_decide (text = en_html) then en_tree
    else if bool_decide (text = zh_html) then zh_tree
    else if bool_decide (text = plain_html) then plain_tree
    else Text text;
  tostring := serialize;
  py_str _ := "?";
  status_error status url := "status " +:+ pretty status +:+ " for url " +:+ url;
|}.

Definition cover_url : string := "https://example.org/img/cover.jpg".

(** The site serves the story and the cover; the Chinese page is served
    when [zh_up] holds and times out otherwise. *)
Definition site (zh_up : bool) : network := λ _ rq,
  if bool_decide (req_url rq = story_url) then Answer 200 en_html None
  else if bool_decide (req_url rq = zh_story_url) then
    (if zh_up then Answer 200 zh_html None else Failure "timed out")
  else if bool_decide (req_url rq = cover_url) then Answer 200 "JPEG" None
  else Answer 404 "not found" None.

(** A site whose only page has no alternate link. *)
Definition plain_site : network := λ _ _, Answer 200 plain_html None.

Definition cfg : StoryScraper := {| output_root := "output"; asset_root := "assets" |}.

Definition markdownify : extractor := Markdownify (λ fragment, fragment).

(** A disk on which the name derived for the cover is taken. *)
Definition taken : state :=
  {| requests := []; files := {[ "assets/story/01_cover.jpg" := "old" ]}; cache := ∅ |}.

(** The states of a run on the story: after the English page was
    fetched, and after it was processed. *)
Definition fetched (zh_up : bool) : state :=
  (fetch_html (site zh_up) story_url "en" 3 initial).2.

Definition en_done (zh_up : bool) : state :=
  (process_page (site zh_up) markdownify cfg "story" "en" story_url en_tree en_html []
     (fetched zh_up)).2.

Definition en_record : DownloadResult :=
  {| meta := {| title := JStr "Class Session"; author := JStr "A. Writer, B. Editor";
                published := JStr "2021-03-25"; source_url := story_url;
                language := "en" |};
     markdown_path := "output/story/en.md";
     assets := ["assets/story/01_cover.jpg"];
     warnings := [] |}.

Definition zh_record : DownloadResult :=
  {| meta := {| title := JStr "未命名文章"; author := JStr "未知作者";
                published := JStr ""; source_url := zh_story_url;
                language := "zh-Hans" |};
     markdown_path := "output/story/zh-Hans.md";
     assets := [];
     warnings := [] |}.

Definition zh_plan : planned :=
  {| lang_code := "zh-Hans"; lang_url := zh_story_url; cached_tree := None;
     cached_html := None; plan_warnings := [] |}.

Definition timeout_warnings : list string :=
  ["请求异常：timed out (尝试 1/3)";
   "请求异常：timed out (尝试 2/3)";
   "请求异常：timed out (尝试 3/3)"].

End Sample.

(** ** Notions used in the further statements *)

(** Every character of the string passes the test. *)
Fixpoint all_chars (test : ascii → bool) (s : string) : bool :=
  match s with
  | "" => true
  | String c rest => test c && all_chars test rest
  end.

(** A string without any of the characters that [sanitize_filename]
    replaces. *)
Definition safe (s : string) : bool :=
  all_chars (λ c, negb (unsafe_char c)) s.

(** A string that neither starts nor ends with white space. *)
Definition starts_clean (s : string) : bool :=
  match s with
  | "" => true
  | String c _ => negb (Str.is_space c)
  end.

Definition trimmed (s : string) : bool :=
  starts_clean s && starts_clean (String.rev s).

(** A text of ASCII characters only, as [str.isascii] tells. On such a
    text [Str.lower] is [str.lower]. *)
Definition isascii (s : string) : bool :=
  all_chars (λ c, (nat_of_ascii c <? 128)%nat) s.

(** The characters outside ASCII that [str.strip] takes for white space,
    in UTF-8: U+0085, U+00A0, U+1680, U+2000 to U+200A, U+2028, U+2029,
    U+202F, U+205F and U+3000. *)
Definition utf8 (bytes : list nat) : string :=
  String.string_of_list_ascii (ascii_of_nat <$> bytes).

Definition wide_spaces : list string :=
  utf8 <$> [[194; 133]; [194; 160]; [225; 154; 128]] ++
           ((λ b, [226; 128; b]) <$> seq 128 11) ++
           [[226; 128; 168]; [226; 128; 169]; [226; 128; 175];
            [226; 129; 159]; [227; 128; 128]].

(** A text all of whose white space is ASCII. [Str.strip] knows the
    ASCII white space only, and on such a text it removes what
    [str.strip] removes. *)
Definition ascii_spaces (s : string) : bool :=
  forallb (λ w, negb (Str.contains_b w s)) wide_spaces.

(** The attribute, where an element of the tree has it, passes the
    test. *)
Definition attribute_all (test : string → bool) (name : string) (tree : node) : bool :=
  forallb (λ n, test (default "" (get_attr name n))) (descendants tree).

(** The page requests among the requests sent. *)
Definition is_get (rq : request) : bool :=
  match req_verb rq with
  | GET => true
  | STREAM => false
  end.

Definition page_requests (st : state) : nat :=
  length (filter (λ rq, is_get rq) (requests st)).

Definition image_requests (st : state) : nat :=
  length (filter (λ rq, negb (is_get rq)) (requests st)).

(** A link of which [extract_language_variants] makes an entry, and the
    key and the URL of the entry. *)
Definition link_lang (link : node) : string :=
  Str.strip (default "" (get_attr "hreflang" link)).

Definition link_href (link : node) : string :=
  Str.strip (default "" (get_attr "href" link)).

Definition usable_link (link : node) : bool :=
  Str.truthy (link_lang link) && Str.truthy (link_href link).

(** The source that [collect_images] reads off an [img]. *)
Definition image_src (img : node) : string :=
  match get_attr "src" img with
  | Some s => if Str.truthy s then s else default "" (get_attr "data-src" img)
  | None => default "" (get_attr "data-src" img)
  end.

(** An [article] or a [main] element. *)
Definition is_block (n : node) : bool := tag_is "article" n || tag_is "main" n.

(** A computation that sends at most [k] page requests, and one none of
    whose loops runs out of fuel. *)
Definition page_bound {A} (k : nat) (c : M A) : Prop :=
  ∀ st, page_requests (c st).2 ≤ page_requests st + k.

Definition fueled {A} (c : M A) : Prop :=
  ∀ st, (c st).1 ≠ inl OutOfFuel.

(** ** More pages, for the further examples *)

Module Pages.

(** A site that is busy once and then serves a page. *)
Definition recovering_site : network := λ history _,
  match length history with
  | 0 => Answer 503 "busy" None
  | _ => Answer 200 "<p>page</p>" None
  end.

(** A site on which every transfer breaks after three bytes. *)
Definition broken_site : network := λ _ _,
  Answer 200 "JPE" (Some "connection reset").

Definition alternate (lang href : string) : node :=
  Element "link" [("rel", "alternate"); ("hreflang", lang); ("href", href)] [].

(** A page that names its Chinese variant twice. *)
Definition twice_tree : node :=
  Element "html" []
    [Element "head" [] [alternate "ZH-Hans" "/old"; alternate "zh-hans" "/new"]].

(** A page whose text sits in a block flagged as the article component. *)
Definition flagged_tree : node :=
  Element "html" []
    [Element "body" []
       [Element "div" [("data-component", "Article")]
          [Sample.cover; Text "Once upon a time."]]].

(** A block that describes the site, and one that gives two types. *)
Definition site_block : gmap string json :=
  {[ "@type" := JStr "WebSite"; "headline" := JStr "Magic: The Gathering" ]}.

Definition typed_block : gmap string json :=
  {[ "@type" := JList [JStr "Article"; JStr "WebPage"];
     "headline" := JStr "Class Session" ]}.

(** A page with a heading and a date, whose one JSON-LD block is about
    the site. *)
Definition bare_tree : node :=
  Element "html" []
    [Element "head" [] [Sample.script "site block"];
     Element "body" []
       [Element "h1" [] [Text "  Cry of "; Element "em" [] [Text "Magic"]];
        Element "span" [("data-testid", "publish-date")] [Text "March 26, 2021 "]]].

Definition typed_tree : node :=
  Element "html" [] [Element "head" [] [Sample.script "typed block"]].

(** The image loop on the page of the story: where it starts, what it
    gathers and the state it leaves. *)
Definition nothing : gathered :=
  {| g_assets := []; g_map := ∅; g_warnings := [] |}.

Definition gathered_cover : gathered :=
  {| g_assets := ["assets/story/01_cover.jpg"];
     g_map := {[ Sample.cover_url := "assets/story/01_cover.jpg" ]};
     g_warnings := [] |}.

Definition images_done : state :=
  (download_images (H := Sample.lib) (Sample.site true) Sample.cfg "story"
     "output/story" [(Sample.cover_url, "cover")] 1 nothing
     (Sample.fetched true)).2.

(** The stand-ins of [Sample], with a [json.loads] that knows the two
    blocks as well. *)
Definition lib : Lib := {|
  urljoin := @urljoin Sample.lib;
  url_path := @url_path Sample.lib;
  path_name := @path_name Sample.lib;
  path_suffix := @path_suffix Sample.lib;
  relpath := @relpath Sample.lib;
  json_loads text :=
    if bool_decide (text = "site block") then Some (JObj site_block)
    else if bool_decide (text = "typed block") then Some (JObj typed_block)
    else @json_loads Sample.lib text;
  fromstring := @fromstring Sample.lib;
  tostring := @tostring Sample.lib;
  py_str := @py_str Sample.lib;
  status_error := @status_error Sample.lib;
|}.

End Pages.

(** * Properties *)

(** The examples use the stand-ins of [Sample] for the third-party
    functions. *)
Import (hints) Sample.

(** ** Strings *)

Section strings.
Implicit Types s t u : string.

Lemma str_app_nil_l s : "" +:+ s = s.
Proof. reflexivity. Qed.

Lemma str_app_cons c s t : String c s +:+ t = String c (s +:+ t).
Proof. reflexivity. Qed.

Lemma str_app_nil_r s : s +:+ "" = s.
Proof. induction s as [|c s IH]; [done | by rewrite str_app_cons, IH]. Qed.

Lemma str_app_assoc s t u : (s +:+ t) +:+ u = s +:+ t +:+ u.
Proof. induction s as [|c s IH]; [done | by rewrite !str_app_cons, IH]. Qed.

Lemma str_length_app s t : String.length (s +:+ t) = String.length s + String.length t.
Proof. induction s as [|c s IH]; [done | by rewrite str_app_cons; simpl; rewrite IH]. Qed.

Lemma prefix_app s t : String.prefix s (s +:+ t) = true.
Proof.
  induction s as [|c s IH]; rewrite ?str_app_cons, ?str_app_nil_l; simpl.
  - by destruct t.
  - destruct (ascii_dec c c); [done | congruence].
Qed.

Lemma prefix_inv s t : String.prefix s t = true → ∃ r, t = s +:+ r.
Proof.
  revert t; induction s as [|c s IH]; intros t Hp.
  - by exists t.
  - destruct t as [|d t]; simpl in Hp; [done |].
    destruct (ascii_dec c d) as [-> |]; [| done].
    destruct (IH _ Hp) as [r ->]. by exists r.
Qed.

Lemma contains_b_nil sub : Str.contains_b sub "" = String.prefix sub "" || false.
Proof. reflexivity. Qed.

Lemma contains_b_cons sub c s :
  Str.contains_b sub (String c s) =
  String.prefix sub (String c s) || Str.contains_b sub s.
Proof. reflexivity. Qed.

Lemma contains_b_true sub s : Str.contains_b sub s = true ↔ Str.contains sub s.
Proof.
  split.
  - induction s as [|c s IH]; intros Hc.
    + rewrite contains_b_nil in Hc. apply orb_prop in Hc as [Hc | Hc]; [| done].
      apply prefix_inv in Hc as [r ->]. by exists "", r.
    + rewrite contains_b_cons in Hc. apply orb_prop in Hc as [Hc | Hc].
      * apply prefix_inv in Hc as [r Hr]. exists "", r. by rewrite Hr.
      * destruct (IH Hc) as (b & a & ->). by exists (String c b), a.
  - intros (b & a & ->). induction b as [|c b IH].
    + rewrite str_app_nil_l. destruct (sub +:+ a) eqn:E.
      * rewrite contains_b_nil, <-E, prefix_app. done.
      * rewrite contains_b_cons, <-E, prefix_app. done.
    + rewrite str_app_cons, contains_b_cons, IH. by rewrite orb_true_r.
Qed.

Lemma contains_here sub before after : Str.contains sub (before +:+ sub +:+ after).
Proof. by exists before, after. Qed.

Lemma contains_refl s : Str.contains s s.
Proof. exists "", "". by rewrite str_app_nil_l, str_app_nil_r. Qed.

Lemma contains_app_l sub s t : Str.contains sub s → Str.contains sub (s +:+ t).
Proof.
  intros (b & a & ->). exists b, (a +:+ t). by rewrite !str_app_assoc.
Qed.

Lemma contains_app_r sub s t : Str.contains sub t → Str.contains sub (s +:+ t).
Proof.
  intros (b & a & ->). exists (s +:+ b), a. by rewrite !str_app_assoc.
Qed.

Example sanitize_filename_runs :
  sanitize_filename "  a/b:c??d  " "untitled" = "a_b_c_d" ∧
  sanitize_filename " // " "untitled" = "_" ∧
  sanitize_filename "   " "untitled" = "untitled".
Proof. repeat split; reflexivity. Qed.

Example fmt_02d_pads : fmt_02d 3 = "03" ∧ fmt_02d 12 = "12" ∧ fmt_02d 123 = "123".
Proof. repeat split; reflexivity. Qed.

Lemma truthy_true s : Str.truthy s = true ↔ s ≠ "".
Proof. by destruct s. Qed.

Lemma truthy_false s : Str.truthy s = false ↔ s = "".
Proof. by destruct s. Qed.
End strings.

(** ** fetch_html *)

Section fetch.
Variable net : network.
Variables url language_code : string.
Variable max_retries : Z.

Local Abbreviation rq := (get_request url language_code).

Lemma after_0 st : after 0 rq st = st.
Proof. destruct st; unfold after; simpl. by rewrite app_nil_r. Qed.

Lemma after_sent n st : after n rq (sent rq st) = after (S n) rq st.
Proof. unfold after, sent; simpl. by rewrite <-app_assoc. Qed.

Lemma contains_attempt_tag attempt :
  Str.contains (pretty attempt +:+ "/" +:+ pretty max_retries)
    (attempt_tag attempt max_retries).
Proof.
  unfold attempt_tag. exists " (尝试 ", ")". by rewrite !str_app_assoc.
Qed.

Lemma http_warning_tag status attempt :
  Str.contains (pretty attempt +:+ "/" +:+ pretty max_retries)
    (http_warning status url attempt max_retries).
Proof. unfold http_warning. do 4 apply contains_app_r. apply contains_attempt_tag. Qed.

Lemma http_warning_url status attempt :
  Str.contains url (http_warning status url attempt max_retries).
Proof.
  unfold http_warning. do 3 apply contains_app_r. apply contains_app_l.
  apply contains_refl.
Qed.

Lemma exception_warning_tag exc attempt :
  Str.contains (pretty attempt +:+ "/" +:+ pretty max_retries)
    (exception_warning exc attempt max_retries).
Proof. unfold exception_warning. do 2 apply contains_app_r. apply contains_attempt_tag. Qed.

Lemma exception_warning_exc exc attempt :
  Str.contains exc (exception_warning exc attempt max_retries).
Proof.
  unfold exception_warning. apply contains_app_r, contains_app_l.
  apply contains_refl.
Qed.

(** The loop never leaves the files or the cache changed, and sends one
    request per turn. *)
Lemma fetch_attempts_requests attempts ws st doc ws' st' :
  fetch_attempts net url language_code max_retries attempts ws st = (doc, ws', st') →
  ∃ n, st' = after n rq st ∧ n ≤ length attempts ∧
       (doc = None → n = length attempts) ∧
       (∀ text, doc = Some text → text ≠ "").
Proof.
  revert ws st. induction attempts as [|a attempts IH]; intros ws st Hrun; simpl in Hrun.
  - injection Hrun as <- <- <-. exists 0. by rewrite after_0.
  - fold rq in Hrun.
    assert (∀ ws1,
      fetch_attempts net url language_code max_retries attempts ws1 (sent rq st)
        = (doc, ws', st') →
      ∃ n, st' = after n rq st ∧ n ≤ S (length attempts) ∧
           (doc = None → n = S (length attempts)) ∧
           (∀ text, doc = Some text → text ≠ "")) as Hrest.
    { intros ws1 H1. destruct (IH _ _ H1) as (n & -> & Hn & Hnone & Hsome).
      exists (S n). rewrite after_sent. repeat split; auto with lia. }
    destruct (net (requests st) rq) as [status text [exc|] | exc]; eauto.
    destruct ((status =? 200)%Z && Str.truthy text) eqn:Hok; eauto.
    injection Hrun as <- <- <-. exists 1. rewrite <-after_sent, after_0.
    repeat split; [simpl; lia | done |].
    intros ? [= <-]. apply andb_prop in Hok as [_ Hok]. by apply truthy_true.
Qed.

(** Without a page, every turn has added a warning. *)
Lemma fetch_attempts_None attempts ws st ws' st' :
  fetch_attempts net url language_code max_retries attempts ws st = (None, ws', st') →
  st' = after (length attempts) rq st ∧ length ws' = length ws + length attempts.
Proof.
  revert ws st. induction attempts as [|a attempts IH]; intros ws st Hrun; simpl in Hrun.
  - injection Hrun as <- <-. by rewrite after_0.
  - fold rq in Hrun.
    assert (∀ w,
      fetch_attempts net url language_code max_retries attempts (ws ++ [w]) (sent rq st)
        = (None, ws', st') →
      st' = after (S (length attempts)) rq st ∧
      length ws' = length ws + S (length attempts)) as Hrest.
    { intros w [-> ->]%IH. rewrite after_sent, length_app. simpl. split; [done | lia]. }
    destruct (net (requests st) rq) as [status text [exc|] | exc]; eauto.
    destruct ((status =? 200)%Z && Str.truthy text); [done | eauto].
Qed.

(** When the site rejects every attempt, each turn of the loop adds one
    warning. *)
Lemma fetch_attempts_rejected attempts ws st :
  always_fails net url language_code →
  ∃ ws', fetch_attempts net url language_code max_retries attempts ws st
           = (None, ws ++ ws', after (length attempts) rq st) ∧
         length ws' = length attempts ∧
         ∀ i attempt, attempts !! i = Some attempt →
           ∃ w, ws' !! i = Some w ∧
                Str.contains (pretty attempt +:+ "/" +:+ pretty max_retries) w ∧
                match net (requests st ++ replicate i rq) rq with
                | Answer _ _ None => Str.contains url w
                | Answer _ _ (Some exc) | Failure exc => Str.contains exc w
                end.
Proof.
  intros Hfail. revert ws st.
  induction attempts as [|a attempts IH]; intros ws st.
  - exists []. rewrite app_nil_r, after_0. by split; [| split; [| intros ?? [=]]].
  - simpl. fold rq.
    set (w := match net (requests st) rq with
              | Answer status _ None => http_warning status url a max_retries
              | Answer _ _ (Some exc) | Failure exc =>
                  exception_warning exc a max_retries
              end).
    destruct (IH (ws ++ [w]) (sent rq st)) as (ws' & Hrun & Hlen & Hws).
    exists (w :: ws'). split; [| split].
    + pose proof (Hfail (requests st)) as Hrej. fold rq in Hrej.
      rewrite after_sent, <-app_assoc in Hrun. subst w.
      destruct (net (requests st) rq) as [status text [exc|] | exc]; try done.
      simpl in Hrej. apply negb_true_iff in Hrej. by rewrite Hrej.
    + simpl. by rewrite Hlen.
    + intros [|i] attempt Hi; simpl in Hi.
      * injection Hi as ->. exists w. split; [done |]. rewrite app_nil_r. subst w.
        destruct (net (requests st) rq) as [status text [exc|] | exc];
          auto using http_warning_tag, http_warning_url,
            exception_warning_tag, exception_warning_exc.
      * destruct (Hws i attempt Hi) as (w' & Hw' & Htag & Hnet).
        exists w'. split; [done | split; [done |]].
        simpl in Hnet. by rewrite <-app_assoc in Hnet.
Qed.
End fetch.

Lemma fetch_html_None (net : network) (url language_code : string) (max_retries : Z)
    (st : state) (ws : list string) (st' : state) :
  fetch_html net url language_code max_retries st = (None, ws, st') →
  st' = after (Z.to_nat max_retries) (get_request url language_code) st ∧
  length ws = Z.to_nat max_retries.
Proof.
  unfold fetch_html. intros [-> Hlen]%fetch_attempts_None.
  by rewrite length_seqZ in *.
Qed.

Lemma fetch_html_Some (net : network) (url language_code : string) (max_retries : Z)
    (st : state) (text : string) (ws : list string) (st' : state) :
  fetch_html net url language_code max_retries st = (Some text, ws, st') →
  text ≠ "".
Proof.
  unfold fetch_html. intros (n & _ & _ & _ & Hsome)%fetch_attempts_requests. eauto.
Qed.

(** C3, as amended. When the site rejects every attempt, [fetch_html]
    sends exactly [max_retries] requests (three for the default) and returns
    no page and exactly [max_retries] warnings. The i-th warning names the
    attempt as [i/max_retries]. It holds the URL when the attempt ended in a
    status other than 200 or an empty body; when the attempt ended in an
    [httpx.HTTPError] it holds the text of the exception instead. The
    result is a value: no exception leaves the function. *)
Theorem fetch_html_exhausts_retries (net : network) (url language_code : string)
    (max_retries : Z) (st : state) :
  always_fails net url language_code →
  ∃ ws,
    fetch_html net url language_code max_retries st
      = (None, ws, after (Z.to_nat max_retries) (get_request url language_code) st) ∧
    length ws = Z.to_nat max_retries ∧
    ∀ i, i < Z.to_nat max_retries →
      ∃ w, ws !! i = Some w ∧
           Str.contains (pretty (Z.of_nat i + 1)%Z +:+ "/" +:+ pretty max_retries) w ∧
           match net (requests st ++ replicate i (get_request url language_code))
                   (get_request url language_code) with
           | Answer _ _ None => Str.contains url w
           | Answer _ _ (Some exc) | Failure exc => Str.contains exc w
           end.
Proof.
  intros Hfail. unfold fetch_html.
  destruct (fetch_attempts_rejected net url language_code max_retries
              (seqZ 1 max_retries) [] st Hfail) as (ws & Hrun & Hlen & Hws).
  rewrite length_seqZ in Hrun, Hlen. exists ws. split; [done | split; [done |]].
  intros i Hi. apply (Hws i). apply lookup_seqZ. lia.
Qed.

Lemma fetch_html_exhausts_retries_witness :
  always_fails failing_site story_url "en" ∧
  ∃ ws,
    fetch_html failing_site story_url "en" 3 initial
      = (None, ws, after 3 (get_request story_url "en") initial) ∧
    length ws = 3 ∧
    ∀ i, i < 3 →
      ∃ w, ws !! i = Some w ∧
           Str.contains (pretty (Z.of_nat i + 1)%Z +:+ "/" +:+ pretty 3%Z) w ∧
           match failing_site
                   (requests initial ++ replicate i (get_request story_url "en"))
                   (get_request story_url "en") with
           | Answer _ _ None => Str.contains story_url w
           | Answer _ _ (Some exc) | Failure exc => Str.contains exc w
           end.
Proof.
  split.
  - intros [|? [|? ?]]; reflexivity.
  - apply (fetch_html_exhausts_retries failing_site story_url "en" 3 initial).
    intros [|? [|? ?]]; reflexivity.
Defined.

(** C3 as it was stated fails: when every attempt ends in a timeout,
    [fetch_html] returns three warnings and none of them holds the URL. *)
Lemma fetch_html_timeout_warnings_lack_url :
  always_fails timeout_site story_url "en" ∧
  ∃ st, fetch_html timeout_site story_url "en" 3 initial
          = (None,
             ["请求异常：timed out (尝试 1/3)";
              "请求异常：timed out (尝试 2/3)";
              "请求异常：timed out (尝试 3/3)"], st) ∧
        Forall (λ w, ¬ Str.contains story_url w)
          ["请求异常：timed out (尝试 1/3)";
           "请求异常：timed out (尝试 2/3)";
           "请求异常：timed out (尝试 3/3)"].
Proof.
  split; [done |]. eexists. split; [reflexivity |].
  repeat constructor; intros Hc%contains_b_true; vm_compute in Hc; discriminate.
Qed.

(** ** rewrite_markdown_images *)

Section rewrite.
Implicit Types s alt src : string.
Implicit Types m : gmap string string.

Lemma join_empty_cons p ps : Str.join "" (p :: ps) = p +:+ Str.join "" ps.
Proof.
  destruct ps as [|q ps]; simpl.
  - by rewrite str_app_nil_r.
  - by rewrite str_app_nil_l.
Qed.

Lemma split_at_inv c s before after :
  split_at c s = Some (before, after) →
  s = before +:+ String c after ∧ has_char c before = false.
Proof.
  revert before. induction s as [|x s IH]; intros before Hs; simpl in Hs; [done |].
  case_bool_decide as Hx.
  - injection Hs as <- <-. by subst x.
  - destruct (split_at c s) as [[b a]|]; [| done].
    injection Hs as <- <-. destruct (IH b eq_refl) as [-> Hb].
    split; [done |]. simpl. rewrite Hb. by rewrite bool_decide_false.
Qed.

(** A match is the text of an image reference followed by the rest. *)
Lemma match_image_inv s alt src after :
  match_image s = Some (alt, src, after) →
  s = source_of (Image alt src) +:+ after ∧
  has_char "]" alt = false ∧ has_char ")" src = false ∧ src ≠ "".
Proof.
  unfold match_image. intros Hm.
  destruct s as [|c0 [|c1 s1]]; try (by repeat case_match).
  repeat (case_match; try done); subst.
  injection Hm as <- <- <-.
  match goal with H : split_at "]" _ = _ |- _ => apply split_at_inv in H as [-> ?] end.
  match goal with H : split_at ")" _ = _ |- _ => apply split_at_inv in H as [-> ?] end.
  split; [| by rewrite <-truthy_true].
  simpl. rewrite !str_app_cons, !str_app_assoc, !str_app_cons, !str_app_nil_l.
  by rewrite !str_app_assoc.
Qed.

Lemma match_image_shorter s alt src after :
  match_image s = Some (alt, src, after) → String.length after < String.length s.
Proof.
  intros [-> _]%match_image_inv. simpl.
  rewrite !str_app_cons, !str_length_app. simpl. lia.
Qed.

(** With enough fuel the pieces make up the text. *)
Lemma pieces_source fuel s :
  String.length s ≤ fuel → Str.join "" (map source_of (pieces fuel s)) = s.
Proof.
  revert s. induction fuel as [|fuel IH]; intros s Hlen.
  - destruct s; [done | simpl in Hlen; lia].
  - destruct s as [|c rest]; [done |].
    cbn [pieces]. destruct (match_image (String c rest)) as [[[alt src] after]|] eqn:Hm.
    + cbn [map]. rewrite join_empty_cons, IH.
      * by apply match_image_inv in Hm as [-> _].
      * apply match_image_shorter in Hm. lia.
    + cbn [map]. rewrite join_empty_cons, IH; [done |]. simpl in Hlen. lia.
Qed.

(** With enough fuel the substitution rewrites piece by piece. *)
Lemma sub_images_pieces fuel m s :
  String.length s ≤ fuel →
  sub_images fuel m s = Str.join "" (map (rewritten m) (pieces fuel s)).
Proof.
  revert s. induction fuel as [|fuel IH]; intros s Hlen.
  - destruct s; [done | simpl in Hlen; lia].
  - destruct s as [|c rest]; [done |].
    cbn [pieces sub_images].
    destruct (match_image (String c rest)) as [[[alt src] after]|] eqn:Hm.
    + cbn [map]. rewrite join_empty_cons, IH.
      * f_equal. unfold replace_image, rewritten, source_of.
        by destruct (m !! src).
      * apply match_image_shorter in Hm. lia.
    + cbn [map]. rewrite join_empty_cons, IH; [done |]. simpl in Hlen. lia.
Qed.

Lemma pieces_well_formed fuel s alt src :
  Image alt src ∈ pieces fuel s →
  has_char "]" alt = false ∧ has_char ")" src = false ∧ src ≠ "".
Proof.
  revert s. induction fuel as [|fuel IH]; intros s Hin.
  - destruct s; by apply elem_of_nil in Hin.
  - destruct s as [|c rest]; [by apply elem_of_nil in Hin |].
    cbn [pieces] in Hin.
    destruct (match_image (String c rest)) as [[[alt' src'] after]|] eqn:Hm.
    + apply elem_of_cons in Hin as [[= -> ->] | Hin]; [| by eapply IH].
      by apply match_image_inv in Hm as [_ ?].
    + apply elem_of_cons in Hin as [[=] | Hin]. by eapply IH.
Qed.

(** The converse: the pattern finds every image reference at the start of
    a text, with the groups as they are written. *)
Lemma split_at_complete c before after :
  has_char c before = false →
  split_at c (before +:+ String c after) = Some (before, after).
Proof.
  induction before as [|x before IH]; intros Hc.
  - rewrite str_app_nil_l. simpl. by rewrite bool_decide_true.
  - simpl in Hc. apply orb_false_iff in Hc as [Hx Hc].
    rewrite str_app_cons. simpl. rewrite Hx. by rewrite IH.
Qed.

Lemma source_app alt src after :
  "![" +:+ alt +:+ "](" +:+ src +:+ ")" +:+ after
  = String "!" (String "[" (alt +:+ String "]" (String "(" (src +:+ String ")" after)))).
Proof. by rewrite !str_app_cons, !str_app_nil_l. Qed.

Lemma match_image_complete alt src after :
  reference alt src = true →
  match_image ("![" +:+ alt +:+ "](" +:+ src +:+ ")" +:+ after)
  = Some (alt, src, after).
Proof.
  unfold reference. intros [[Halt Hsrc]%andb_prop Hne]%andb_prop.
  apply negb_true_iff in Halt, Hsrc.
  rewrite source_app. unfold match_image.
  rewrite (split_at_complete "]" alt _ Halt), (split_at_complete ")" src _ Hsrc).
  by rewrite Hne.
Qed.

Lemma match_image_reference s alt src after :
  match_image s = Some (alt, src, after) →
  reference alt src = true ∧ s = "![" +:+ alt +:+ "](" +:+ src +:+ ")" +:+ after.
Proof.
  intros (-> & Halt & Hsrc & Hne)%match_image_inv. unfold reference.
  rewrite Halt, Hsrc. simpl. split; [by apply truthy_true |].
  by rewrite !str_app_assoc.
Qed.

Lemma match_image_none s : ¬ starts_with_reference s → match_image s = None.
Proof.
  intros Hno. destruct (match_image s) as [[[alt src] after]|] eqn:Hm; [| done].
  destruct Hno. exists alt, src, after. by apply match_image_reference.
Qed.

(** Fuel beyond the length of the text changes nothing. *)
Lemma pieces_fuel fuel fuel' s :
  String.length s ≤ fuel → String.length s ≤ fuel' → pieces fuel s = pieces fuel' s.
Proof.
  revert fuel' s. induction fuel as [|fuel IH]; intros fuel' s Hlen Hlen'.
  - destruct s; [by destruct fuel' | simpl in Hlen; lia].
  - destruct s as [|c rest]; [by destruct fuel' |].
    destruct fuel' as [|fuel']; [simpl in Hlen'; lia |].
    cbn [pieces]. destruct (match_image (String c rest)) as [[[alt src] after]|] eqn:Hm.
    + apply match_image_shorter in Hm. f_equal. apply IH; lia.
    + f_equal. simpl in Hlen, Hlen'. apply IH; lia.
Qed.

Lemma occurrences_reference alt src after :
  reference alt src = true →
  occurrences ("![" +:+ alt +:+ "](" +:+ src +:+ ")" +:+ after)
  = Image alt src :: occurrences after.
Proof.
  intros Href. pose proof (match_image_complete alt src after Href) as Hm.
  pose proof (match_image_shorter _ _ _ _ Hm) as Hshort.
  unfold occurrences.
  destruct ("![" +:+ alt +:+ "](" +:+ src +:+ ")" +:+ after) as [|c rest] eqn:Hs;
    [simpl in Hshort; lia |].
  cbn [String.length pieces]. rewrite Hm. f_equal.
  apply pieces_fuel; simpl in Hshort; lia.
Qed.

Lemma occurrences_plain c rest :
  ¬ starts_with_reference (String c rest) →
  occurrences (String c rest) = Plain c :: occurrences rest.
Proof.
  intros Hno. unfold occurrences. cbn [String.length pieces].
  by rewrite (match_image_none _ Hno).
Qed.

Lemma not_reference_start c rest :
  c ≠ "!"%char → ¬ starts_with_reference (String c rest).
Proof.
  intros Hc (alt & src & after & _ & Hs). rewrite source_app in Hs. congruence.
Qed.

(** Where there is no exclamation mark no reference starts. *)
Lemma occurrences_plain_app before s :
  has_char "!" before = false →
  occurrences (before +:+ s) = plain before ++ occurrences s.
Proof.
  induction before as [|c before IH]; intros Hno.
  - by rewrite str_app_nil_l.
  - simpl in Hno. apply orb_false_iff in Hno as [Hc Hno].
    apply bool_decide_eq_false in Hc.
    rewrite str_app_cons, occurrences_plain by by apply not_reference_start.
    simpl. by rewrite IH.
Qed.

Lemma join_empty_app ps qs :
  Str.join "" (ps ++ qs) = Str.join "" ps +:+ Str.join "" qs.
Proof.
  induction ps as [|p ps IH].
  - by rewrite str_app_nil_l.
  - rewrite <-app_comm_cons, !join_empty_cons, IH. by rewrite str_app_assoc.
Qed.

Lemma rewritten_plain m s : Str.join "" (map (rewritten m) (plain s)) = s.
Proof.
  induction s as [|c s IH]; [done |].
  cbn [plain map]. rewrite join_empty_cons, IH. simpl.
  by rewrite str_app_cons, str_app_nil_l.
Qed.

Lemma rewrite_pieces text m :
  rewrite_markdown_images text m
  = Str.join "" (map (rewritten m) (occurrences text)).
Proof. unfold rewrite_markdown_images, occurrences. by apply sub_images_pieces. Qed.
End rewrite.

(** C8. How [MD_IMAGE_PATTERN] cuts a text, from left to right: a text that
    starts with an image reference [![alt](src)], whose [alt] has no [ ] ]
    and whose [src] is not empty and has no [ ) ], gives that reference and
    goes on behind it; a text that starts with no image reference gives
    its first character and goes on behind it. So every image reference
    that does not lie inside an earlier one is an occurrence.
    The text is the concatenation of its pieces. [rewrite_markdown_images]
    returns the concatenation of the same pieces, in which an image
    reference whose [src] is a key of the mapping has the mapped path in
    the place of [src], and every other piece is unchanged. When no [src]
    of the text is a key, the result is the text. In particular an image
    reference that comes after a text without an exclamation mark is
    rewritten with the path that the mapping has for its [src], or left
    as it is when there is none, and the rewriting goes on behind it. *)
Theorem rewrite_markdown_images_spec (text : string) (m : gmap string string) :
  occurrences "" = [] ∧
  (∀ alt src after, reference alt src = true →
     occurrences ("![" +:+ alt +:+ "](" +:+ src +:+ ")" +:+ after)
     = Image alt src :: occurrences after) ∧
  (∀ c rest, ¬ starts_with_reference (String c rest) →
     occurrences (String c rest) = Plain c :: occurrences rest) ∧
  Str.join "" (map source_of (occurrences text)) = text ∧
  rewrite_markdown_images text m = Str.join "" (map (rewritten m) (occurrences text)) ∧
  (∀ alt src, Image alt src ∈ occurrences text →
     has_char "]" alt = false ∧ has_char ")" src = false ∧ src ≠ "" ∧
     (∀ path, m !! src = Some path →
        rewritten m (Image alt src) = "![" +:+ alt +:+ "](" +:+ path +:+ ")") ∧
     (m !! src = None →
        rewritten m (Image alt src) = "![" +:+ alt +:+ "](" +:+ src +:+ ")")) ∧
  (∀ c, rewritten m (Plain c) = source_of (Plain c)) ∧
  ((∀ alt src, Image alt src ∈ occurrences text → m !! src = None) →
   rewrite_markdown_images text m = text) ∧
  (∀ before alt src after,
     text = before +:+ "![" +:+ alt +:+ "](" +:+ src +:+ ")" +:+ after →
     has_char "!" before = false → reference alt src = true →
     rewrite_markdown_images text m
     = before +:+ "![" +:+ alt +:+ "](" +:+ default src (m !! src) +:+ ")" +:+
       rewrite_markdown_images after m).
Proof.
  split; [done |].
  split; [by apply occurrences_reference |].
  split; [by apply occurrences_plain |].
  split; [by apply pieces_source |].
  split; [by apply rewrite_pieces |].
  split.
  { intros alt src Hin.
    destruct (pieces_well_formed _ _ _ _ Hin) as (? & ? & ?).
    repeat split; try done; simpl; by intros; simplify_option_eq. }
  split; [done |].
  split.
  { intros Hnone. rewrite rewrite_pieces.
    rewrite <-(pieces_source (String.length text) text) at 2 by done.
    f_equal. apply map_ext_in. intros [c | alt src] Hin; [done |].
    simpl. rewrite (Hnone alt src); [done |]. by apply list_elem_of_In. }
  intros before alt src after -> Hbefore Href.
  rewrite !rewrite_pieces, occurrences_plain_app, occurrences_reference by done.
  rewrite map_app, join_empty_app, rewritten_plain. cbn [map].
  rewrite join_empty_cons. f_equal. simpl.
  destruct (m !! src); simpl; by rewrite !str_app_assoc.
Qed.

(** A reference is rewritten wherever it stands, also right behind
    another one and after an exclamation mark that starts none. *)
Example rewrite_markdown_images_everywhere :
  rewrite_markdown_images "!![a](k)![b](k)! [c](k) ![d](k)" {[ "k" := "p" ]}
  = "!![a](p)![b](p)! [c](k) ![d](p)".
Proof. vm_compute. reflexivity. Qed.

Example rewrite_markdown_images_sample :
  rewrite_markdown_images "a ![x](u) b ![y](v) ![z]() ![w](u" {[ "u" := "img/u.png" ]}
  = "a ![x](img/u.png) b ![y](v) ![z]() ![w](u".
Proof. vm_compute. reflexivity. Qed.

(** The matches do not overlap: a reference that lies inside the [src] of
    a match is not a match of its own. *)
Example rewrite_markdown_images_nested :
  occurrences "![x](a![y](k)" = [Image "x" "a![y](k"] ∧
  rewrite_markdown_images "![x](a![y](k)" {[ "k" := "local.png" ]} = "![x](a![y](k)".
Proof. split; vm_compute; reflexivity. Qed.

(** ** AssetManager *)

Section names.
Implicit Types s t u : string.

Lemma str_app_inj_r s t u : s +:+ u = t +:+ u → s = t.
Proof.
  revert t. induction s as [|c s IH]; intros [|d t] Heq; [done | | |].
  - apply (f_equal String.length) in Heq.
    rewrite !str_length_app in Heq. simpl in Heq. lia.
  - apply (f_equal String.length) in Heq.
    rewrite !str_length_app in Heq. simpl in Heq. lia.
  - rewrite !str_app_cons in Heq. injection Heq as -> Heq. f_equal. by apply IH.
Qed.

Lemma numbered_name_inj slug_dir stem ext : Inj (=) (=) (numbered_name slug_dir stem ext).
Proof.
  intros j k Heq. unfold numbered_name, path_join in Heq.
  do 4 apply String.app_inj in Heq.
  apply str_app_inj_r in Heq. by apply (inj pretty).
Qed.
End names.

Section free_candidate.
Variable fs : gmap string string.
Variable name : nat → string.
Hypothesis name_inj : Inj (=) (=) name.

(** What the loop returns does not exist; it is the candidate it was
    entered with, or the first free numbered name. *)
Lemma free_candidate_Some fuel candidate k p :
  free_candidate fuel fs name candidate k = Some p →
  fs !! p = None ∧
  (p = candidate ∨
   is_Some (fs !! candidate) ∧
   ∃ j, k ≤ j ∧ p = name j ∧ ∀ i, k ≤ i < j → is_Some (fs !! name i)).
Proof.
  revert candidate k. induction fuel as [|fuel IH]; intros candidate k Hfree;
    simpl in Hfree; destruct (fs !! candidate) eqn:Hc; simplify_eq; auto.
  destruct (IH _ _ Hfree) as [Hp [-> | (Hk & j & Hj & -> & Hall)]].
  - split; [done |]. right. split; [done |]. exists k. split; [lia |].
    split; [done |]. intros i ?; lia.
  - split; [done |]. right. split; [done |]. exists j. split; [lia |].
    split; [done |]. intros i Hi. destruct (decide (i = k)) as [-> |]; [done |].
    apply Hall. lia.
Qed.

(** When the fuel runs out, every name that was tried exists. *)
Lemma free_candidate_None fuel candidate k :
  free_candidate fuel fs name candidate k = None →
  ∀ i, k ≤ i < k + fuel → is_Some (fs !! name i).
Proof.
  revert candidate k. induction fuel as [|fuel IH]; intros candidate k Hfree i Hi;
    [lia |].
  simpl in Hfree. destruct (fs !! candidate); [| done].
  destruct (decide (i = k)) as [-> |].
  - destruct fuel; simpl in Hfree; destruct (fs !! name k); done.
  - apply (IH _ _ Hfree). lia.
Qed.

(** There are not more distinct names that exist than paths. *)
Lemma names_bounded k n :
  (∀ i, k ≤ i < k + n → is_Some (fs !! name i)) → n ≤ size fs.
Proof using name_inj.
  intros Hall.
  assert (length (name <$> seq k n) = n) as Hlen by by rewrite length_fmap, length_seq.
  rewrite <-(size_dom (D := gset string)), <-Hlen at 1.
  rewrite <-(size_list_to_set (C := gset string)) by by apply NoDup_fmap_2, NoDup_seq.
  apply subseteq_size. intros p [i [-> Hi]]%elem_of_list_to_set%list_elem_of_fmap.
  apply elem_of_seq in Hi. apply elem_of_dom, Hall. lia.
Qed.

(** The loop ends before the fuel does. *)
Lemma free_candidate_total candidate k :
  is_Some (free_candidate (S (size fs)) fs name candidate k).
Proof using name_inj.
  destruct (free_candidate _ _ _ _ _) eqn:Hfree; [done |].
  pose proof (names_bounded k (S (size fs)) (free_candidate_None _ _ _ Hfree)). lia.
Qed.
End free_candidate.

Section ensure_download.
Context `{Lib} (net : network) (base_dir : string).
Implicit Types slug remote_url alt_text : string.
Implicit Types c : gmap string (gmap string string).

Lemma with_cache_same st : with_cache (cache st) st = st.
Proof. by destruct st. Qed.

Lemma cached_path_Some c slug remote_url p :
  cached_path c slug remote_url = Some p ↔
  ∃ slug_cache, c !! slug = Some slug_cache ∧ slug_cache !! remote_url = Some p.
Proof.
  unfold cached_path. destruct (c !! slug) as [sc|]; simpl; split.
  - by exists sc.
  - by intros (? & [= <-] & ?).
  - done.
  - by intros (? & [=] & _).
Qed.

Lemma setdefault_fst c slug remote_url :
  (setdefault slug c).1 !! remote_url = cached_path c slug remote_url.
Proof. unfold setdefault, cached_path. by destruct (c !! slug). Qed.

Lemma setdefault_snd_lookup c slug :
  (setdefault slug c).2 !! slug = Some (setdefault slug c).1.
Proof.
  unfold setdefault. destruct (c !! slug) eqn:Hc; simpl; [done |].
  by rewrite lookup_insert_eq.
Qed.

Lemma setdefault_snd c slug :
  (setdefault slug c).2 = c ∨
  c !! slug = None ∧ (setdefault slug c).2 = <[slug := ∅]> c.
Proof. unfold setdefault. destruct (c !! slug) eqn:Hc; simpl; auto. Qed.

(** [setdefault] adds no path to the cache. *)
Lemma cached_path_setdefault c slug s u :
  cached_path (setdefault slug c).2 s u = cached_path c s u.
Proof.
  destruct (setdefault_snd c slug) as [-> | [Hnone ->]]; [done |].
  unfold cached_path. destruct (decide (s = slug)) as [-> |].
  - by rewrite lookup_insert_eq, Hnone.
  - by rewrite lookup_insert_ne.
Qed.

Lemma cached_path_insert c slug remote_url p slug_cache s u :
  cached_path (<[slug := <[remote_url := p]> slug_cache]> c) s u =
  if decide (s = slug)
  then (if decide (u = remote_url) then Some p else slug_cache !! u)
  else cached_path c s u.
Proof.
  unfold cached_path. destruct (decide (s = slug)) as [-> |].
  - rewrite lookup_insert_eq. simpl. destruct (decide (u = remote_url)) as [-> |].
    + by rewrite lookup_insert_eq.
    + by rewrite lookup_insert_ne.
  - by rewrite lookup_insert_ne.
Qed.

(** The [while] loop ends, on a path that does not exist: the derived
    name, or the first numbered name that is free. *)
Lemma choose_candidate_fresh slug remote_url alt_text index fs :
  ∃ candidate,
    choose_candidate base_dir slug remote_url alt_text index fs = Some candidate ∧
    fs !! candidate = None ∧
    (candidate = derived_name base_dir slug remote_url alt_text index ∨
     is_Some (fs !! derived_name base_dir slug remote_url alt_text index) ∧
     ∃ k, 1 ≤ k ∧ candidate = numbered base_dir slug remote_url alt_text index k ∧
          ∀ j, 1 ≤ j < k →
            is_Some (fs !! numbered base_dir slug remote_url alt_text index j)).
Proof.
  unfold choose_candidate.
  destruct (free_candidate_total fs (numbered base_dir slug remote_url alt_text index)
              (numbered_name_inj _ _ _)
              (derived_name base_dir slug remote_url alt_text index) 1)
    as [candidate Hfree].
  exists candidate. split; [done |]. by apply free_candidate_Some in Hfree.
Qed.

(** A hit: the stored path, no warning, and the state as it was. *)
Lemma ensure_download_hit slug remote_url alt_text index st p :
  cached_path (cache st) slug remote_url = Some p →
  ensure_download net base_dir slug remote_url alt_text index st
    = (inr (Some p, None), st).
Proof.
  intros (slug_cache & Hslug & Hurl)%cached_path_Some.
  unfold ensure_download, setdefault. rewrite Hslug, Hurl.
  by rewrite with_cache_same.
Qed.

(** A miss: one request is sent, and the reply decides the rest. *)
Lemma ensure_download_miss slug remote_url alt_text index st :
  cached_path (cache st) slug remote_url = None →
  ∃ candidate r st',
    choose_candidate base_dir slug remote_url alt_text index (files st)
      = Some candidate ∧
    ensure_download net base_dir slug remote_url alt_text index st = (inr r, st') ∧
    requests st' = requests st ++ [stream_request remote_url] ∧
    (files st' = files st ∨ ∃ body, files st' = <[candidate := body]> (files st)) ∧
    if download_fails (net (requests st) (stream_request remote_url))
    then (∃ w, r = (None, Some w) ∧ Str.contains remote_url w) ∧
         cache st' = (setdefault slug (cache st)).2
    else r = (Some candidate, None) ∧
         is_Some (files st' !! candidate) ∧
         cache st' = <[slug := <[remote_url := candidate]> (setdefault slug (cache st)).1]>
                       (setdefault slug (cache st)).2.
Proof.
  intros Hmiss.
  destruct (choose_candidate_fresh slug remote_url alt_text index (files st))
    as (candidate & Hchoose & Hfree & _).
  exists candidate. unfold ensure_download.
  pose proof (setdefault_fst (cache st) slug remote_url) as Hfst.
  destruct (setdefault slug (cache st)) as [slug_cache c] eqn:Hsd.
  simpl in Hfst. rewrite Hfst, Hmiss. cbn [files with_cache requests]. rewrite Hchoose.
  assert (∀ exc, Str.contains remote_url (download_warning remote_url exc)) as Hwarn.
  { intros exc. unfold download_warning. apply contains_app_r, contains_app_l.
    apply contains_refl. }
  destruct (net (requests st) (stream_request remote_url))
    as [status body [exc|] | exc]; cbn [download_fails].
  - destruct (is_success status); cbn [negb orb];
      rewrite ?bool_decide_true by done; eexists _, _;
      (split; [done | split; [done | split; [done |]]]); eauto 10.
  - destruct (is_success status); cbn [negb orb];
      rewrite ?bool_decide_false by (by intros [? [=]]); eexists _, _;
      (split; [done | split; [done | split; [done |]]]); eauto 10.
    split; [eauto |]. split; [done |]. split; [| done].
    cbn. by rewrite lookup_insert_eq.
  - eexists _, _. (split; [done | split; [done | split; [done |]]]); eauto 10.
Qed.

(** A call leaves the paths it finds in the cache, and adds at most the
    one it returns. *)
Lemma ensure_download_cache slug remote_url alt_text index st s u :
  cached_path
    (cache (ensure_download net base_dir slug remote_url alt_text index st).2) s u
  = match cached_path (cache st) s u with
    | Some p => Some p
    | None =>
        match (ensure_download net base_dir slug remote_url alt_text index st).1 with
        | inr (Some p, None) =>
            if decide (s = slug ∧ u = remote_url) then Some p else None
        | _ => None
        end
    end.
Proof.
  destruct (cached_path (cache st) slug remote_url) as [p|] eqn:Hc.
  - rewrite (ensure_download_hit _ _ _ _ _ _ Hc). cbn [fst snd].
    destruct (cached_path (cache st) s u) eqn:Hsu; [done |].
    case_decide as Heq; [| done]. destruct Heq as [-> ->]. congruence.
  - destruct (ensure_download_miss slug remote_url alt_text index st Hc)
      as (candidate & r & st' & _ & -> & _ & _ & Hout). cbn [fst snd].
    destruct (download_fails _).
    + destruct Hout as [(w & -> & _) ->]. rewrite cached_path_setdefault.
      by destruct (cached_path (cache st) s u).
    + destruct Hout as (-> & _ & ->). rewrite cached_path_insert.
      destruct (decide (s = slug)) as [-> |].
      * rewrite setdefault_fst. destruct (decide (u = remote_url)) as [-> |].
        -- rewrite Hc. by rewrite decide_True.
        -- destruct (cached_path (cache st) slug u); [done |].
           by rewrite decide_False by (by intros [? ?]).
      * rewrite cached_path_setdefault.
        destruct (cached_path (cache st) s u); [done |].
        by rewrite decide_False by (by intros [? ?]).
Qed.

(** A call removes no file and changes none that exists. *)
Lemma ensure_download_files slug remote_url alt_text index st path content :
  files st !! path = Some content →
  files (ensure_download net base_dir slug remote_url alt_text index st).2 !! path
    = Some content.
Proof.
  intros Hpath.
  destruct (cached_path (cache st) slug remote_url) as [p|] eqn:Hc.
  - by rewrite (ensure_download_hit _ _ _ _ _ _ Hc).
  - destruct (ensure_download_miss slug remote_url alt_text index st Hc)
      as (candidate & r & st' & Hchoose & -> & _ & Hfiles & _). cbn [snd].
    destruct Hfiles as [-> | [body ->]]; [done |].
    destruct (choose_candidate_fresh slug remote_url alt_text index (files st))
      as (candidate' & Hchoose' & Hfree & _).
    rewrite Hchoose in Hchoose'. injection Hchoose' as <-.
    rewrite lookup_insert_ne; [done |]. congruence.
Qed.

Lemma step_cached st st' s u p :
  step net base_dir st st' →
  cached_path (cache st) s u = Some p → cached_path (cache st') s u = Some p.
Proof.
  intros [slug remote_url alt_text index st0 | st0 st1 Hcache _] Hp.
  - by rewrite ensure_download_cache, Hp.
  - by rewrite Hcache.
Qed.

Lemma step_files st st' path :
  step net base_dir st st' →
  is_Some (files st !! path) → is_Some (files st' !! path).
Proof.
  intros [slug remote_url alt_text index st0 | st0 st1 _ Hdom] [content Hp].
  - erewrite ensure_download_files; done.
  - apply elem_of_dom, Hdom, elem_of_dom. eauto.
Qed.

Lemma steps_cached st st' s u p :
  rtc (step net base_dir) st st' →
  cached_path (cache st) s u = Some p → cached_path (cache st') s u = Some p.
Proof. induction 1; eauto using step_cached. Qed.

Lemma steps_files st st' path :
  rtc (step net base_dir) st st' →
  is_Some (files st !! path) → is_Some (files st' !! path).
Proof. induction 1; eauto using step_files. Qed.
End ensure_download.

(** C1. Once a call of [ensure_download] has returned a path for an
    article and a URL, every later call of the run for the same article
    and URL, whatever happened in between and whatever its [alt_text] and
    [index], returns that path and no warning and leaves the state as it
    found it: it sends no request, writes no file and does not touch the
    cache. So the image of a pair is transferred at most once. *)
Theorem ensure_download_at_most_once `{Lib} (net : network) (base_dir : string)
    (slug remote_url alt_text : string) (index : nat) (st st1 st2 : state)
    (p : string) (alt_text' : string) (index' : nat) :
  ensure_download net base_dir slug remote_url alt_text index st
    = (inr (Some p, None), st1) →
  rtc (step net base_dir) st1 st2 →
  ensure_download net base_dir slug remote_url alt_text' index' st2
    = (inr (Some p, None), st2).
Proof.
  intros Hfirst Hsteps. apply ensure_download_hit.
  apply (steps_cached net base_dir st1 st2); [done |].
  pose proof (ensure_download_cache net base_dir slug remote_url alt_text index st
                slug remote_url) as Hcache.
  rewrite Hfirst in Hcache. cbn [fst snd] in Hcache. rewrite Hcache.
  destruct (cached_path (cache st) slug remote_url) as [q|] eqn:Hq.
  - rewrite (ensure_download_hit _ _ _ _ _ _ _ _ Hq) in Hfirst. congruence.
  - by rewrite decide_True.
Qed.

Lemma ensure_download_at_most_once_witness :
  ensure_download (Sample.site true) "assets" "story" Sample.cover_url "cover" 1
    initial
  = (inr (Some "assets/story/01_cover.jpg", None),
     (ensure_download (Sample.site true) "assets" "story" Sample.cover_url "cover" 1
        initial).2) ∧
  rtc (step (Sample.site true) "assets")
    (ensure_download (Sample.site true) "assets" "story" Sample.cover_url "cover" 1
       initial).2
    (ensure_download (Sample.site true) "assets" "story" Sample.cover_url "cover" 1
       initial).2 ∧
  ensure_download (Sample.site true) "assets" "story" Sample.cover_url "" 2
    (ensure_download (Sample.site true) "assets" "story" Sample.cover_url "cover" 1
       initial).2
  = (inr (Some "assets/story/01_cover.jpg", None),
     (ensure_download (Sample.site true) "assets" "story" Sample.cover_url "cover" 1
        initial).2).
Proof.
  split; [reflexivity |]. split; [apply rtc_refl |].
  apply (ensure_download_at_most_once (Sample.site true) "assets" "story"
           Sample.cover_url "cover" 1 initial
           (ensure_download (Sample.site true) "assets" "story" Sample.cover_url
              "cover" 1 initial).2);
    [reflexivity | apply rtc_refl].
Defined.

(** C9. On a miss the loop that looks for a free name ends, and the path
    it chooses does not exist: it is the derived name
    [<index>_<sanitized alt><ext>] when that is free, and otherwise the
    name with the least counter from 1 on that is free. The call changes no
    file that exists, and creates at most the chosen path. A path that it
    returns exists afterwards, so that a later miss for the same article,
    for whatever image, returns another path. *)
Theorem ensure_download_fresh_name `{Lib} (net : network) (base_dir : string)
    (slug remote_url alt_text : string) (index : nat) (st : state) :
  cached_path (cache st) slug remote_url = None →
  ∃ candidate r st',
    choose_candidate base_dir slug remote_url alt_text index (files st)
      = Some candidate ∧
    files st !! candidate = None ∧
    (candidate = derived_name base_dir slug remote_url alt_text index ∨
     is_Some (files st !! derived_name base_dir slug remote_url alt_text index) ∧
     ∃ k, 1 ≤ k ∧ candidate = numbered base_dir slug remote_url alt_text index k ∧
          ∀ j, 1 ≤ j < k →
            is_Some (files st !! numbered base_dir slug remote_url alt_text index j)) ∧
    ensure_download net base_dir slug remote_url alt_text index st = (inr r, st') ∧
    (∀ path content, files st !! path = Some content → files st' !! path = Some content) ∧
    (∀ path, is_Some (files st' !! path) → is_Some (files st !! path) ∨ path = candidate) ∧
    (∀ p, r.1 = Some p →
       p = candidate ∧ is_Some (files st' !! p) ∧
       ∀ st2 remote_url2 alt_text2 index2 p2 st3,
         rtc (step net base_dir) st' st2 →
         cached_path (cache st2) slug remote_url2 = None →
         ensure_download net base_dir slug remote_url2 alt_text2 index2 st2
           = (inr (Some p2, None), st3) →
         p2 ≠ p).
Proof.
  intros Hmiss.
  destruct (choose_candidate_fresh base_dir slug remote_url alt_text index (files st))
    as (candidate & Hchoose & Hfree & Hname).
  destruct (ensure_download_miss net base_dir slug remote_url alt_text index st Hmiss)
    as (candidate' & r & st' & Hchoose' & Hrun & _ & Hfiles & Hout).
  rewrite Hchoose in Hchoose'. injection Hchoose' as <-.
  exists candidate, r, st'. repeat (split; [done |]).
  split; [| split].
  - intros path content Hpath.
    pose proof (ensure_download_files net base_dir slug remote_url alt_text index st
                  path content Hpath) as Hkept.
    by rewrite Hrun in Hkept.
  - intros path Hpath. destruct Hfiles as [Hf | [body Hf]]; rewrite Hf in Hpath;
      [by left |].
    destruct (decide (path = candidate)) as [-> |]; [by right | left].
    by rewrite lookup_insert_ne in Hpath.
  - intros p Hp. destruct (download_fails _).
    { destruct Hout as [(w & -> & _) _]. done. }
    destruct Hout as (-> & Hexists & _). injection Hp as <-.
    split; [done |]. split; [done |].
    intros st2 remote_url2 alt_text2 index2 p2 st3 Hsteps Hmiss2 Hrun2 ->.
    destruct (ensure_download_miss net base_dir slug remote_url2 alt_text2 index2 st2
                Hmiss2) as (candidate2 & r2 & st3' & Hchoose2 & Hrun2' & _ & _ & Hout2).
    rewrite Hrun2 in Hrun2'. injection Hrun2' as <- <-.
    destruct (download_fails _).
    { by destruct Hout2 as [(w & [=] & _) _]. }
    destruct Hout2 as ([= ->] & _).
    destruct (choose_candidate_fresh base_dir slug remote_url2 alt_text2 index2
                (files st2)) as (c2 & Hc2 & Hfree2 & _).
    rewrite Hchoose2 in Hc2. injection Hc2 as <-.
    pose proof (steps_files net base_dir st' st2 candidate2 Hsteps Hexists) as [? Hin].
    congruence.
Qed.

Lemma ensure_download_fresh_name_witness :
  cached_path (cache Sample.taken) "story" Sample.cover_url = None ∧
  ∃ candidate r st',
    choose_candidate "assets" "story" Sample.cover_url "cover" 1 (files Sample.taken)
      = Some candidate ∧
    files Sample.taken !! candidate = None ∧
    (candidate = derived_name "assets" "story" Sample.cover_url "cover" 1 ∨
     is_Some (files Sample.taken
                !! derived_name "assets" "story" Sample.cover_url "cover" 1) ∧
     ∃ k, 1 ≤ k ∧ candidate = numbered "assets" "story" Sample.cover_url "cover" 1 k ∧
          ∀ j, 1 ≤ j < k →
            is_Some (files Sample.taken
                       !! numbered "assets" "story" Sample.cover_url "cover" 1 j)) ∧
    ensure_download (Sample.site true) "assets" "story" Sample.cover_url "cover" 1
      Sample.taken = (inr r, st') ∧
    (∀ path content,
       files Sample.taken !! path = Some content → files st' !! path = Some content) ∧
    (∀ path, is_Some (files st' !! path) →
       is_Some (files Sample.taken !! path) ∨ path = candidate) ∧
    (∀ p, r.1 = Some p →
       p = candidate ∧ is_Some (files st' !! p) ∧
       ∀ st2 remote_url2 alt_text2 index2 p2 st3,
         rtc (step (Sample.site true) "assets") st' st2 →
         cached_path (cache st2) "story" remote_url2 = None →
         ensure_download (Sample.site true) "assets" "story" remote_url2 alt_text2
           index2 st2 = (inr (Some p2, None), st3) →
         p2 ≠ p).
Proof.
  split; [reflexivity |].
  apply (ensure_download_fresh_name (Sample.site true) "assets" "story"
           Sample.cover_url "cover" 1 Sample.taken).
  reflexivity.
Defined.

(** C10. When the download fails on a miss, the call returns no path and a
    warning that holds the URL, and the cache maps no pair of an article
    and a URL to anything else than before (at most, the article got an
    empty dict of its own). The pair is still missing, so the next call for
    it sends a request again. In general, a pair that is in the cache
    after a call was there before it, or is the pair of the call, which
    returned its path without a warning. *)
Theorem ensure_download_failure_not_cached `{Lib} (net : network) (base_dir : string)
    (slug remote_url alt_text : string) (index : nat) (st : state) :
  cached_path (cache st) slug remote_url = None →
  download_fails (net (requests st) (stream_request remote_url)) = true →
  ∃ w st',
    ensure_download net base_dir slug remote_url alt_text index st
      = (inr (None, Some w), st') ∧
    Str.contains remote_url w ∧
    requests st' = requests st ++ [stream_request remote_url] ∧
    (∀ s u, cached_path (cache st') s u = cached_path (cache st) s u) ∧
    (cache st' = cache st ∨
     cache st !! slug = None ∧ cache st' = <[slug := ∅]> (cache st)) ∧
    (∀ alt_text' index',
       requests (ensure_download net base_dir slug remote_url alt_text' index' st').2
       = requests st' ++ [stream_request remote_url]) ∧
    (∀ slug2 remote_url2 alt_text2 index2 st2 s u p,
       cached_path
         (cache (ensure_download net base_dir slug2 remote_url2 alt_text2 index2 st2).2)
         s u = Some p →
       cached_path (cache st2) s u = Some p ∨
       s = slug2 ∧ u = remote_url2 ∧
       (ensure_download net base_dir slug2 remote_url2 alt_text2 index2 st2).1
         = inr (Some p, None)).
Proof.
  intros Hmiss Hfails.
  destruct (ensure_download_miss net base_dir slug remote_url alt_text index st Hmiss)
    as (candidate & r & st' & _ & Hrun & Hreq & _ & Hout).
  rewrite Hfails in Hout. destruct Hout as [(w & -> & Hw) Hcache].
  exists w, st'. split; [done |]. split; [done |]. split; [done |].
  assert (∀ s u, cached_path (cache st') s u = cached_path (cache st) s u) as Hsame.
  { intros s u. by rewrite Hcache, cached_path_setdefault. }
  split; [done |]. split; [rewrite Hcache; apply setdefault_snd |].
  split.
  - intros alt_text' index'.
    destruct (ensure_download_miss net base_dir slug remote_url alt_text' index' st')
      as (? & ? & ? & _ & Hrun' & Hreq' & _); [by rewrite Hsame |].
    by rewrite Hrun'.
  - intros slug2 remote_url2 alt_text2 index2 st2 s u p.
    rewrite ensure_download_cache.
    destruct (cached_path (cache st2) s u); [by left |].
    destruct (ensure_download _ _ _ _ _ _ st2).1 as [| [[q|] [|]]]; try done.
    case_decide as Heq; [| done]. intros [= ->]. right. by destruct Heq.
Qed.

Lemma ensure_download_failure_not_cached_witness :
  cached_path (cache initial) "story" "https://example.org/img/gone.jpg" = None ∧
  download_fails
    (Sample.site true (requests initial)
       (stream_request "https://example.org/img/gone.jpg")) = true ∧
  ∃ w st',
    ensure_download (Sample.site true) "assets" "story"
      "https://example.org/img/gone.jpg" "gone" 2 initial = (inr (None, Some w), st') ∧
    Str.contains "https://example.org/img/gone.jpg" w ∧
    requests st' = requests initial ++ [stream_request "https://example.org/img/gone.jpg"] ∧
    (∀ s u, cached_path (cache st') s u = cached_path (cache initial) s u) ∧
    (cache st' = cache initial ∨
     cache initial !! "story" = None ∧ cache st' = <["story" := ∅]> (cache initial)) ∧
    (∀ alt_text' index',
       requests (ensure_download (Sample.site true) "assets" "story"
                   "https://example.org/img/gone.jpg" alt_text' index' st').2
       = requests st' ++ [stream_request "https://example.org/img/gone.jpg"]) ∧
    (∀ slug2 remote_url2 alt_text2 index2 st2 s u p,
       cached_path
         (cache (ensure_download (Sample.site true) "assets" slug2 remote_url2
                   alt_text2 index2 st2).2) s u = Some p →
       cached_path (cache st2) s u = Some p ∨
       s = slug2 ∧ u = remote_url2 ∧
       (ensure_download (Sample.site true) "assets" slug2 remote_url2 alt_text2
          index2 st2).1 = inr (Some p, None)).
Proof.
  split; [reflexivity |]. split; [reflexivity |].
  apply (ensure_download_failure_not_cached (Sample.site true) "assets" "story"
           "https://example.org/img/gone.jpg" "gone" 2 initial); reflexivity.
Defined.

(** ** extract_article_meta *)

Section scan.
Implicit Types item : gmap string json.
Implicit Types acc : fields.

Lemma not_article_type_spec item :
  well_typed item = true →
  not_article_type (dict_get item "@type") = inr (negb (is_article item)).
Proof.
  unfold well_typed, is_article. intros [Htype _]%andb_prop.
  by destruct (dict_get item "@type").
Qed.

Lemma join_names_str parts :
  forallb is_str parts = true → ∃ kept, join_names parts = inr kept.
Proof.
  induction parts as [|[] parts IH]; simpl; try done; [by exists [] |].
  intros [kept ->]%IH. by eexists.
Qed.

Lemma author_after_spec item author :
  well_typed item = true → is_article item = true →
  author_after (dict_get item "author") author
    = inr (default author (author_of item)).
Proof.
  unfold well_typed, author_of, author_after. intros [_ Hwt]%andb_prop Hart.
  rewrite Hart in Hwt. simpl in Hwt.
  destruct (dict_get item "author") as [| | | | |entries|d]; try done.
  fold (names_of entries). destruct (join_names_str _ Hwt) as [kept ->].
  unfold py_or. simpl. by destruct (Str.truthy _).
Qed.

(** One turn: an article item overrides each field for which it has a
    value; any other item changes nothing. *)
Lemma scan_item_spec item acc :
  well_typed item = true →
  scan_item item acc =
  inr (if is_article item
       then {| f_title := default (f_title acc) (headline_of item);
               f_author := default (f_author acc) (author_of item);
               f_published := default (f_published acc) (date_of item) |}
       else acc).
Proof.
  intros Hwt. unfold scan_item. rewrite not_article_type_spec by done.
  destruct (is_article item) eqn:Hart; simpl; [| done].
  rewrite author_after_spec by done.
  unfold py_or, headline_of, date_of.
  by destruct (json_truthy (dict_get item "headline")),
              (json_truthy (dict_get item "datePublished")).
Qed.





End scan.



(** The two blocks of the example carry different titles; the title of
    the second one is returned. *)
Example extract_article_meta_two_blocks :
  ld_json_items Sample.en_tree = [Sample.first_block; Sample.second_block] ∧
  dict_get Sample.first_block "headline" = JStr "Draft title" ∧
  dict_get Sample.second_block "headline" = JStr "Class Session" ∧
  extract_article_meta Sample.en_tree "en" story_url =
  inr {| title := JStr "Class Session"; author := JStr "A. Writer, B. Editor";
         published := JStr "2021-03-25"; source_url := story_url; language := "en" |}.
Proof. repeat split; reflexivity. Qed.

(** ** html_to_markdown *)

Lemma descendants_self (tree : node) : ∃ below, descendants tree = tree :: below.
Proof. destruct tree; simpl; eauto. Qed.

(** C2, as amended. When [md] is bound (markdownify was imported, as
    [trafilatura] was not), the result is [md] of the concatenated markup
    of the chosen blocks. The blocks are all the elements of the document
    that are an [article], a [main] or flagged as the article component,
    each once and in document order: an [article] and a [main] of one
    document are both used. When there is no such element, the one block is
    the whole tree. When [trafilatura] is there and extracts a text that
    is not empty, that text is the result. *)
Theorem html_to_markdown_blocks `{Lib} (md : string → string)
    (html_text source_url : string) :
  (∃ blocks,
     html_to_markdown (Markdownify md) html_text source_url
       = inr (md (Str.join "" (map tostring blocks))) ∧
     blocks `sublist_of` descendants (fromstring html_text) ∧
     (∀ n, n ∈ descendants (fromstring html_text) → is_main_block n = true →
           n ∈ blocks) ∧
     ((∀ n, n ∈ blocks → is_main_block n = true) ∨
      blocks = [fromstring html_text] ∧
      ∀ n, n ∈ descendants (fromstring html_text) → is_main_block n = false)) ∧
  (∀ extract result,
     extract html_text source_url = Some result → result ≠ "" →
     html_to_markdown (Trafilatura extract) html_text source_url = inr result).
Proof.
  split.
  - unfold html_to_markdown, html_fragment.
    destruct (main_blocks (fromstring html_text)) as [|b found] eqn:Hfound.
    + exists [fromstring html_text]. split; [done |].
      assert (∀ n, n ∈ descendants (fromstring html_text) → is_main_block n = false)
        as Hnone.
      { intros n Hn. destruct (is_main_block n) eqn:Hb; [| done].
        assert (n ∈ main_blocks (fromstring html_text)) as Hin.
        { apply list_elem_of_filter. by rewrite Hb. }
        rewrite Hfound in Hin. by apply elem_of_nil in Hin. }
      split; [| split; [| by right]].
      * destruct (descendants_self (fromstring html_text)) as [below ->].
        apply sublist_skip, sublist_nil_l.
      * intros n Hn Hb. rewrite (Hnone n Hn) in Hb. done.
    + exists (b :: found). split; [done |]. rewrite <-Hfound.
      split; [apply sublist_filter | split; [| left]].
      * intros n Hn Hb. apply list_elem_of_filter. by rewrite Hb.
      * intros n [Hb _]%list_elem_of_filter. by apply Is_true_true.
  - intros extract result Hres Hne. unfold html_to_markdown. rewrite Hres.
    by apply truthy_true in Hne as ->.
Qed.

(** C2 as it was stated fails. The page of the example has an [article]
    and a [main]. The claim selects the [article] alone; the code takes
    both, and the markup of the [main] is part of the result. *)
Lemma html_to_markdown_takes_article_and_main :
  first_matching_block (fromstring Sample.en_html) = [Sample.article_block] ∧
  main_blocks (fromstring Sample.en_html) = [Sample.article_block; Sample.main_block] ∧
  html_to_markdown Sample.markdownify Sample.en_html story_url
    = inr (tostring Sample.article_block +:+ tostring Sample.main_block) ∧
  html_to_markdown Sample.markdownify Sample.en_html story_url
    ≠ inr (Str.join "" (map tostring (first_matching_block (fromstring Sample.en_html)))).
Proof.
  split; [vm_compute; reflexivity |]. split; [vm_compute; reflexivity |].
  split; [vm_compute; reflexivity |]. vm_compute. discriminate.
Qed.

(** When [trafilatura] is there and extracts nothing, the fallback calls
    [md], which the module did not bind. *)
Example html_to_markdown_md_unbound :
  html_to_markdown (Trafilatura (λ _ _, None)) Sample.en_html story_url
  = inl (NameError "md").
Proof. vm_compute. reflexivity. Qed.

(** ** StoryScraper *)

Section scrape.
Context `{Lib} (net : network) (ex : extractor) (cfg : StoryScraper).

Lemma extract_article_meta_source tree language_code url m :
  extract_article_meta tree language_code url = inr m →
  language m = language_code ∧ source_url m = url.
Proof.
  unfold extract_article_meta. destruct (scan_items _ _); [done |].
  by intros [= <-].
Qed.

(** The record of a page names the language and the URL of the page. *)
Lemma process_page_source slug language_code url tree html ws st r st' :
  process_page net ex cfg slug language_code url tree html ws st = (inr r, st') →
  language (meta r) = language_code ∧ source_url (meta r) = url.
Proof.
  unfold process_page, bind, lift_exn, write_text, ret.
  destruct (extract_article_meta tree language_code url) as [|m] eqn:Hm; [done |].
  destruct (html_to_markdown ex html url); [done |].
  destruct (download_images _ _ _ _ _ _ _ _) as [[|got] st1]; [done |].
  intros [= <- _]. by apply extract_article_meta_source in Hm.
Qed.

Lemma process_variant_source slug p st r st' :
  process_variant net ex cfg slug p st = (inr r, st') →
  language (meta r) = lang_code p ∧ source_url (meta r) = lang_url p.
Proof.
  unfold process_variant. destruct (cached_html p) as [html|].
  - destruct (cached_tree p); [apply process_page_source | done].
  - unfold bind at 1. destruct (fetch _ _ _ st) as [[|[[text|] ws]] st1]; [done | |].
    + destruct (Str.truthy text); [apply process_page_source |].
      by intros [= <- _].
    + by intros [= <- _].
Qed.

(** The first of the keys with a value is the first of the keys, when
    no value is empty. *)
Lemma zh_url_first_present variants :
  (∀ key v, variants !! key = Some v → v ≠ "") →
  zh_url variants = first_present ["zh"; "zh-cn"; "zh-hans"] variants.
Proof.
  intros Hne. unfold zh_url, truthy_get, first_present.
  repeat (lazymatch goal with
          | |- context [variants !! ?k] =>
              let Hk := fresh "Hk" in
              destruct (variants !! k) as [v|] eqn:Hk;
              [apply Hne, truthy_true in Hk; rewrite Hk |]
          end; try done).
Qed.

Lemma scrape_article_fetched url st en_html en_ws st1 :
  fetch_html net url "en" 3 st = (Some en_html, en_ws, st1) →
  scrape_article net ex cfg url st =
  process_plan net ex cfg (derive_slug url)
    (language_plan url (fromstring en_html) en_html en_ws
       (extract_language_variants (fromstring en_html) url)) [] st1.
Proof.
  intros Hfetch. unfold scrape_article, bind, fetch. rewrite Hfetch.
  by apply fetch_html_Some, truthy_true in Hfetch as ->.
Qed.

Lemma process_plan_en url en_html en_ws rest st1 r st2 :
  process_page net ex cfg (derive_slug url) "en" url (fromstring en_html) en_html
    en_ws st1 = (inr r, st2) →
  process_plan net ex cfg (derive_slug url)
    ({| lang_code := "en"; lang_url := url; cached_tree := Some (fromstring en_html);
        cached_html := Some en_html; plan_warnings := en_ws |} :: rest) [] st1
  = process_plan net ex cfg (derive_slug url) rest [r] st2.
Proof.
  intros Hen. cbn [process_plan]. unfold bind at 1.
  unfold process_variant. cbn [cached_html cached_tree lang_code lang_url plan_warnings].
  by rewrite Hen.
Qed.
End scrape.

(** ** A run is a sequence of steps

    Whatever the orchestrator does between two calls of
    [ensure_download] is a step: the properties of the asset manager that
    are stated over [rtc step] hold across a whole run. *)

Section steady.
Context `{Lib} (net : network) (ex : extractor) (cfg : StoryScraper).

Local Abbreviation steady' := (steady net (asset_root cfg)).

Lemma steady_ret {A} (a : A) : steady' (ret a).
Proof. intros st. apply rtc_refl. Qed.

Lemma steady_lift_exn {A} (r : exn + A) : steady' (lift_exn r).
Proof. intros st. unfold lift_exn. destruct r; apply rtc_refl. Qed.

Lemma steady_bind {A B} (c : M A) (k : A → M B) :
  steady' c → (∀ a, steady' (k a)) → steady' (bind c k).
Proof.
  intros Hc Hk st. unfold bind. pose proof (Hc st) as Hst.
  destruct (c st) as [[f|a] st']; [done |].
  etrans; [exact Hst | apply Hk].
Qed.

Lemma steady_fetch url language_code : steady' (fetch net url language_code).
Proof.
  intros st. unfold fetch.
  destruct (fetch_html net url language_code 3 st) as [[doc ws] st'] eqn:Hfetch.
  apply fetch_attempts_requests in Hfetch as (n & -> & _).
  apply rtc_once, step_other; done.
Qed.

Lemma steady_write_text path content : steady' (write_text path content).
Proof.
  intros st. apply rtc_once, step_other; [done |]. simpl.
  rewrite dom_insert_L. set_solver.
Qed.

Lemma steady_ensure_download slug remote_url alt_text index :
  steady' (ensure_download net (asset_root cfg) slug remote_url alt_text index).
Proof. intros st. apply rtc_once, step_download. Qed.

Lemma steady_download_images slug markdown_dir images idx acc :
  steady' (download_images net cfg slug markdown_dir images idx acc).
Proof.
  revert idx acc. induction images as [|[img_url alt] images IH]; intros idx acc.
  - apply steady_ret.
  - cbn [download_images]. apply steady_bind; [apply steady_ensure_download |].
    intros [local_path warn]. apply IH.
Qed.

Lemma steady_process_page slug language_code url tree html ws :
  steady' (process_page net ex cfg slug language_code url tree html ws).
Proof.
  unfold process_page.
  repeat (apply steady_bind; [| intros ?]);
    auto using steady_lift_exn, steady_download_images, steady_write_text, steady_ret.
Qed.

Lemma steady_process_variant slug p : steady' (process_variant net ex cfg slug p).
Proof.
  unfold process_variant. destruct (cached_html p).
  - destruct (cached_tree p); auto using steady_process_page, steady_lift_exn.
  - apply steady_bind; [apply steady_fetch |]. intros [[text|] ws].
    + destruct (Str.truthy text); auto using steady_process_page, steady_ret.
    + apply steady_ret.
Qed.

Lemma steady_process_plan slug plan results :
  steady' (process_plan net ex cfg slug plan results).
Proof.
  revert results. induction plan as [|p plan IH]; intros results.
  - apply steady_ret.
  - cbn [process_plan]. apply steady_bind; [apply steady_process_variant | auto].
Qed.

Lemma steady_scrape_article url : steady' (scrape_article net ex cfg url).
Proof.
  unfold scrape_article. apply steady_bind; [apply steady_fetch |].
  intros [[en_html|] ws]; [| apply steady_ret].
  destruct (Str.truthy en_html); auto using steady_process_plan, steady_ret.
Qed.

Lemma steady_run_from limit articles idx all_results :
  steady' (run_from net ex cfg limit articles idx all_results).
Proof.
  revert idx all_results. induction articles as [|url articles IH]; intros idx all_results.
  - apply steady_ret.
  - cbn [run_from]. destruct (match limit with Some l => _ | None => _ end).
    + apply steady_ret.
    + apply steady_bind; [apply steady_scrape_article | auto].
Qed.
End steady.

(** C5. When the English page cannot be fetched, [scrape_article] returns
    the empty list. The three requests for the English page are all that
    was sent, no file was written and the cache is as it was: no variant
    was processed. *)
Theorem scrape_article_without_english `{Lib} (net : network) (ex : extractor)
    (cfg : StoryScraper) (url : string) (st : state) (ws : list string) (st1 : state) :
  fetch_html net url "en" 3 st = (None, ws, st1) →
  scrape_article net ex cfg url st = (inr [], st1) ∧
  st1 = after 3 (get_request url "en") st.
Proof.
  intros Hfetch. split.
  - unfold scrape_article, bind, fetch. by rewrite Hfetch.
  - by apply fetch_html_None in Hfetch as [-> _].
Qed.

Lemma scrape_article_without_english_witness :
  fetch_html timeout_site story_url "en" 3 initial
    = (None, Sample.timeout_warnings, after 3 (get_request story_url "en") initial) ∧
  scrape_article timeout_site Sample.markdownify Sample.cfg story_url initial
    = (inr [], after 3 (get_request story_url "en") initial) ∧
  after 3 (get_request story_url "en") initial
    = after 3 (get_request story_url "en") initial.
Proof.
  split; [reflexivity |].
  apply (scrape_article_without_english timeout_site Sample.markdownify Sample.cfg
           story_url initial Sample.timeout_warnings).
  reflexivity.
Defined.

(** C6. When the English page was fetched and processed, a Chinese page
    was found and its fetch fails, [scrape_article] returns the English
    record followed by a record for [zh-Hans]: the title says that the
    fetch failed, author and date are empty, there are no assets, and the
    warnings are the three of the fetch and a notice that the page is not
    available. No file was written for the page. The call ends without an
    exception, and [run] goes on with the articles that are left. *)
Theorem scrape_article_failed_variant `{Lib} (net : network) (ex : extractor)
    (cfg : StoryScraper) (url : string) (st : state)
    (en_html : string) (en_ws : list string) (st1 : state) (zh : string)
    (en_result : DownloadResult) (st2 : state) (zh_ws : list string) (st3 : state) :
  fetch_html net url "en" 3 st = (Some en_html, en_ws, st1) →
  zh_url (extract_language_variants (fromstring en_html) url) = Some zh →
  process_page net ex cfg (derive_slug url) "en" url (fromstring en_html) en_html
    en_ws st1 = (inr en_result, st2) →
  fetch_html net zh "zh-Hans" 3 st2 = (None, zh_ws, st3) →
  let failed :=
    {| meta := {| title := JStr "抓取失败"; author := JStr ""; published := JStr "";
                  source_url := zh; language := "zh-Hans" |};
       markdown_path :=
         path_join (path_join (output_root cfg) (derive_slug url)) "zh-Hans.md";
       assets := [];
       warnings := zh_ws ++ ["多语言页面不可用：zh-Hans -> " +:+ zh] |} in
  scrape_article net ex cfg url st = (inr [en_result; failed], st3) ∧
  length zh_ws = 3 ∧
  files st3 = files st2 ∧ cache st3 = cache st2 ∧
  ∀ limit rest idx all_results,
    match limit with Some l => (l <? idx)%Z | None => false end = false →
    run_from net ex cfg limit (url :: rest) idx all_results st
    = run_from net ex cfg limit rest (idx + 1) (all_results ++ [en_result; failed]) st3.
Proof.
  intros Hen Hzh Hpage Hfetch failed.
  assert (scrape_article net ex cfg url st = (inr [en_result; failed], st3)) as Hrun.
  { rewrite (scrape_article_fetched _ _ _ _ _ _ _ _ Hen).
    unfold language_plan. rewrite Hzh.
    rewrite (process_plan_en _ _ _ _ _ _ _ _ _ _ Hpage).
    cbn [process_plan]. unfold bind at 1, process_variant, bind, fetch.
    cbn [cached_html lang_url lang_code plan_warnings]. by rewrite Hfetch. }
  split; [done |].
  apply fetch_html_None in Hfetch as [-> Hlen].
  split; [done |]. split; [done |]. split; [done |].
  intros limit rest idx all_results Hlimit.
  cbn [run_from]. rewrite Hlimit. unfold bind at 1. by rewrite Hrun.
Qed.

Lemma scrape_article_failed_variant_witness :
  fetch_html (Sample.site false) story_url "en" 3 initial
    = (Some Sample.en_html, [], Sample.fetched false) ∧
  zh_url (extract_language_variants (fromstring Sample.en_html) story_url)
    = Some Sample.zh_story_url ∧
  process_page (Sample.site false) Sample.markdownify Sample.cfg
    (derive_slug story_url) "en" story_url (fromstring Sample.en_html)
    Sample.en_html [] (Sample.fetched false)
    = (inr Sample.en_record, Sample.en_done false) ∧
  fetch_html (Sample.site false) Sample.zh_story_url "zh-Hans" 3 (Sample.en_done false)
    = (None, Sample.timeout_warnings,
       after 3 (get_request Sample.zh_story_url "zh-Hans") (Sample.en_done false)) ∧
  scrape_article (Sample.site false) Sample.markdownify Sample.cfg story_url initial
    = (inr [Sample.en_record;
            {| meta := {| title := JStr "抓取失败"; author := JStr "";
                          published := JStr ""; source_url := Sample.zh_story_url;
                          language := "zh-Hans" |};
               markdown_path := "output/story/zh-Hans.md";
               assets := [];
               warnings :=
                 Sample.timeout_warnings ++
                 ["多语言页面不可用：zh-Hans -> https://example.org/zh-Hans/story"] |}],
       after 3 (get_request Sample.zh_story_url "zh-Hans") (Sample.en_done false)).
Proof.
  assert (fetch_html (Sample.site false) story_url "en" 3 initial
          = (Some Sample.en_html, [], Sample.fetched false)) as Hen
    by (vm_compute; reflexivity).
  assert (zh_url (extract_language_variants (fromstring Sample.en_html) story_url)
          = Some Sample.zh_story_url) as Hzh by (vm_compute; reflexivity).
  assert (process_page (Sample.site false) Sample.markdownify Sample.cfg
            (derive_slug story_url) "en" story_url (fromstring Sample.en_html)
            Sample.en_html [] (Sample.fetched false)
          = (inr Sample.en_record, Sample.en_done false)) as Hpage
    by (vm_compute; reflexivity).
  assert (fetch_html (Sample.site false) Sample.zh_story_url "zh-Hans" 3
            (Sample.en_done false)
          = (None, Sample.timeout_warnings,
             after 3 (get_request Sample.zh_story_url "zh-Hans")
               (Sample.en_done false))) as Hfetch
    by (vm_compute; reflexivity).
  repeat (split; [assumption |]).
  exact (proj1 (scrape_article_failed_variant (Sample.site false) Sample.markdownify
                  Sample.cfg story_url initial _ _ _ _ _ _ _ _ Hen Hzh Hpage Hfetch)).
Defined.

(** C4. When the English page was fetched and processed, the plan starts
    with English. The Chinese URL is the value of the first of the keys
    [zh], [zh-cn], [zh-hans] that the mapping of the variants has (no URL
    of the mapping being empty). When it has none of them, the one record
    that [scrape_article] returns is the English one. When it has one, the
    plan is English and then [zh-Hans], and the records are the English
    one followed by the one for [zh-Hans] at that URL. *)
Theorem scrape_article_language_plan `{Lib} (net : network) (ex : extractor)
    (cfg : StoryScraper) (url : string) (st : state)
    (en_html : string) (en_ws : list string) (st1 : state)
    (en_result : DownloadResult) (st2 : state) :
  fetch_html net url "en" 3 st = (Some en_html, en_ws, st1) →
  map_Forall (λ _ v, v ≠ "") (extract_language_variants (fromstring en_html) url) →
  process_page net ex cfg (derive_slug url) "en" url (fromstring en_html) en_html
    en_ws st1 = (inr en_result, st2) →
  let variants := extract_language_variants (fromstring en_html) url in
  let en_plan :=
    {| lang_code := "en"; lang_url := url; cached_tree := Some (fromstring en_html);
       cached_html := Some en_html; plan_warnings := en_ws |} in
  zh_url variants = first_present ["zh"; "zh-cn"; "zh-hans"] variants ∧
  language (meta en_result) = "en" ∧ source_url (meta en_result) = url ∧
  (first_present ["zh"; "zh-cn"; "zh-hans"] variants = None →
   language_plan url (fromstring en_html) en_html en_ws variants = [en_plan] ∧
   scrape_article net ex cfg url st = (inr [en_result], st2)) ∧
  (∀ zh, first_present ["zh"; "zh-cn"; "zh-hans"] variants = Some zh →
     let zh_plan :=
       {| lang_code := "zh-Hans"; lang_url := zh; cached_tree := None;
          cached_html := None; plan_warnings := [] |} in
     language_plan url (fromstring en_html) en_html en_ws variants = [en_plan; zh_plan] ∧
     ∀ zh_result st3,
       process_variant net ex cfg (derive_slug url) zh_plan st2 = (inr zh_result, st3) →
       scrape_article net ex cfg url st = (inr [en_result; zh_result], st3) ∧
       language (meta zh_result) = "zh-Hans" ∧ source_url (meta zh_result) = zh).
Proof.
  intros Hen Hne Hpage variants en_plan.
  pose proof (zh_url_first_present variants Hne) as Hzh.
  destruct (process_page_source _ _ _ _ _ _ _ _ _ _ _ _ Hpage) as [Hlang Hsrc].
  split; [done |]. split; [done |]. split; [done |].
  rewrite (scrape_article_fetched _ _ _ _ _ _ _ _ Hen). fold variants.
  unfold language_plan. rewrite Hzh. split.
  - intros ->. split; [done |].
    by rewrite (process_plan_en _ _ _ _ _ _ _ _ _ _ Hpage).
  - intros zh Hfirst. rewrite Hfirst. cbv zeta. split; [done |].
    intros zh_result st3 Hvariant.
    rewrite (process_plan_en _ _ _ _ _ _ _ _ _ _ Hpage).
    cbn [process_plan]. unfold bind at 1. rewrite Hvariant.
    split; [done |]. by apply process_variant_source in Hvariant.
Qed.

Lemma scrape_article_language_plan_witness :
  fetch_html (Sample.site true) story_url "en" 3 initial
    = (Some Sample.en_html, [], Sample.fetched true) ∧
  map_Forall (λ _ v, v ≠ "")
    (extract_language_variants (fromstring Sample.en_html) story_url) ∧
  process_page (Sample.site true) Sample.markdownify Sample.cfg
    (derive_slug story_url) "en" story_url (fromstring Sample.en_html)
    Sample.en_html [] (Sample.fetched true)
    = (inr Sample.en_record, Sample.en_done true) ∧
  first_present ["zh"; "zh-cn"; "zh-hans"]
    (extract_language_variants (fromstring Sample.en_html) story_url)
    = Some Sample.zh_story_url ∧
  scrape_article (Sample.site true) Sample.markdownify Sample.cfg story_url initial
    = (inr [Sample.en_record; Sample.zh_record],
       (process_variant (Sample.site true) Sample.markdownify Sample.cfg
          (derive_slug story_url) Sample.zh_plan (Sample.en_done true)).2).
Proof.
  assert (fetch_html (Sample.site true) story_url "en" 3 initial
          = (Some Sample.en_html, [], Sample.fetched true)) as Hen
    by (vm_compute; reflexivity).
  assert (map_Forall (λ _ v, v ≠ "")
            (extract_language_variants (fromstring Sample.en_html) story_url)) as Hne.
  { replace (extract_language_variants (fromstring Sample.en_html) story_url)
      with ({[ "zh-hans" := Sample.zh_story_url ]} : gmap string string)
      by (vm_compute; reflexivity).
    by apply map_Forall_singleton. }
  assert (process_page (Sample.site true) Sample.markdownify Sample.cfg
            (derive_slug story_url) "en" story_url (fromstring Sample.en_html)
            Sample.en_html [] (Sample.fetched true)
          = (inr Sample.en_record, Sample.en_done true)) as Hpage
    by (vm_compute; reflexivity).
  assert (first_present ["zh"; "zh-cn"; "zh-hans"]
            (extract_language_variants (fromstring Sample.en_html) story_url)
          = Some Sample.zh_story_url) as Hzh by (vm_compute; reflexivity).
  repeat (split; [assumption |]).
  destruct (scrape_article_language_plan (Sample.site true) Sample.markdownify
              Sample.cfg story_url initial _ _ _ _ _ Hen Hne Hpage)
    as (_ & _ & _ & _ & Hsome).
  destruct (Hsome _ Hzh) as [_ Hrun].
  apply (Hrun Sample.zh_record). vm_compute. reflexivity.
Defined.

(** A page without an alternate link gives the English record alone. *)
Example scrape_article_english_only :
  (scrape_article Sample.plain_site Sample.markdownify Sample.cfg story_url
     initial).1
  = inr [{| meta := {| title := JStr "未命名文章"; author := JStr "未知作者";
                       published := JStr ""; source_url := story_url;
                       language := "en" |};
            markdown_path := "output/story/en.md";
            assets := [];
            warnings := [] |}].
Proof. vm_compute. reflexivity. Qed.

(** * Further properties *)

(** ** sanitize_filename and derive_slug *)

Section sanitize.
Implicit Types s t u : string.
Implicit Types test : ascii → bool.

Lemma rev_app_spec s t : String.rev_app s t = String.rev s +:+ t.
Proof.
  unfold String.rev. revert t. induction s as [|c s IH]; intros t; [done |].
  simpl. rewrite (IH (String c t)), (IH (String c "")).
  by rewrite str_app_assoc.
Qed.

Lemma rev_cons c s : String.rev (String c s) = String.rev s +:+ String c "".
Proof. unfold String.rev at 1. simpl. apply rev_app_spec. Qed.

Lemma rev_app_distr s t : String.rev (s +:+ t) = String.rev t +:+ String.rev s.
Proof.
  induction s as [|c s IH].
  - by rewrite str_app_nil_l, str_app_nil_r.
  - by rewrite str_app_cons, !rev_cons, IH, str_app_assoc.
Qed.

Lemma rev_involutive s : String.rev (String.rev s) = s.
Proof.
  induction s as [|c s IH]; [done |].
  by rewrite rev_cons, rev_app_distr, IH.
Qed.

Lemma all_chars_app test s t :
  all_chars test (s +:+ t) = all_chars test s && all_chars test t.
Proof.
  induction s as [|c s IH]; [done |].
  rewrite str_app_cons. simpl. by rewrite IH, andb_assoc.
Qed.

Lemma all_chars_rev test s : all_chars test (String.rev s) = all_chars test s.
Proof.
  induction s as [|c s IH]; [done |].
  rewrite rev_cons, all_chars_app, IH. simpl. by rewrite andb_true_r, andb_comm.
Qed.

(** [lstrip] drops a run of white space and leaves a string that does
    not start with any. *)
Lemma lstrip_split s :
  ∃ ws, s = ws +:+ Str.lstrip s ∧ all_chars Str.is_space ws = true ∧
        starts_clean (Str.lstrip s) = true.
Proof.
  induction s as [|c s (ws & Hs & Hws & Hclean)].
  - by exists "".
  - simpl. destruct (Str.is_space c) eqn:Hc.
    + exists (String c ws). rewrite str_app_cons, <-Hs. simpl. by rewrite Hc.
    + exists "". simpl. by rewrite Hc.
Qed.

Lemma lstrip_clean s : starts_clean s = true → Str.lstrip s = s.
Proof. destruct s as [|c s]; [done |]. simpl. by intros ->%negb_true_iff. Qed.

Lemma rstrip_split s :
  ∃ ws, s = Str.rstrip s +:+ ws ∧ all_chars Str.is_space ws = true ∧
        starts_clean (String.rev (Str.rstrip s)) = true.
Proof.
  destruct (lstrip_split (String.rev s)) as (ws & Hs & Hws & Hclean).
  exists (String.rev ws). unfold Str.rstrip. rewrite rev_involutive.
  split; [| by rewrite all_chars_rev].
  by rewrite <-rev_app_distr, <-Hs, rev_involutive.
Qed.

(** The start of a string that is not empty is the start of whatever
    it is a prefix of. *)
Lemma starts_clean_prefix s t :
  s ≠ "" → starts_clean (s +:+ t) = starts_clean s.
Proof. by destruct s. Qed.

Lemma strip_split s :
  ∃ before after,
    s = before +:+ Str.strip s +:+ after ∧
    all_chars Str.is_space before = true ∧ all_chars Str.is_space after = true.
Proof.
  destruct (lstrip_split s) as (before & Hs & Hbefore & _).
  destruct (rstrip_split (Str.lstrip s)) as (after & Hl & Hafter & _).
  exists before, after. unfold Str.strip. by rewrite <-Hl.
Qed.

Lemma strip_trimmed s : trimmed (Str.strip s) = true.
Proof.
  unfold trimmed, Str.strip.
  destruct (lstrip_split s) as (_ & _ & _ & Hclean).
  destruct (rstrip_split (Str.lstrip s)) as (after & Hl & _ & Hrev).
  rewrite Hrev, andb_true_r.
  destruct (Str.rstrip (Str.lstrip s)) as [|c r] eqn:Hr; [done |].
  rewrite Hl in Hclean. by rewrite starts_clean_prefix in Hclean.
Qed.

Lemma strip_of_trimmed s : trimmed s = true → Str.strip s = s.
Proof.
  unfold trimmed, Str.strip, Str.rstrip. intros [Hs Hrev]%andb_prop.
  by rewrite (lstrip_clean s), (lstrip_clean (String.rev s)), rev_involutive.
Qed.

Lemma all_chars_strip test s :
  all_chars test s = true → all_chars test (Str.strip s) = true.
Proof.
  destruct (strip_split s) as (before & after & Hs & _). intros Hall.
  rewrite Hs, !all_chars_app in Hall.
  by apply andb_prop in Hall as [_ [? _]%andb_prop].
Qed.

Lemma replace_unsafe_safe in_run s : safe (replace_unsafe in_run s) = true.
Proof.
  unfold safe. revert in_run. induction s as [|c s IH]; intros in_run; [done |].
  simpl. destruct (unsafe_char c) eqn:Hc.
  - destruct in_run; [apply IH |]. simpl. by rewrite IH.
  - simpl. by rewrite Hc, IH.
Qed.

Lemma replace_unsafe_of_safe in_run s : safe s = true → replace_unsafe in_run s = s.
Proof.
  unfold safe. revert in_run. induction s as [|c s IH]; intros in_run; [done |].
  simpl. intros [Hc Hs]%andb_prop. apply negb_true_iff in Hc. rewrite Hc.
  by rewrite IH.
Qed.
Lemma sanitize_filename_cases name fallback :
  sanitize_filename name fallback = fallback ∧
    Str.strip (replace_unsafe false name) = "" ∨
  sanitize_filename name fallback ≠ "" ∧
    safe (sanitize_filename name fallback) = true ∧
    trimmed (sanitize_filename name fallback) = true.
Proof.
  unfold sanitize_filename.
  destruct (Str.truthy (Str.strip (replace_unsafe false name))) eqn:Hclean.
  - right. split; [by apply truthy_true |]. split; [| apply strip_trimmed].
    apply all_chars_strip, replace_unsafe_safe.
  - left. by apply truthy_false in Hclean.
Qed.
End sanitize.



(** X2. [sanitize_filename] leaves a clean name as it is: a name that is
    not empty, has no unsafe character and no white space at either end
    (its white space being ASCII) is returned unchanged, whatever the
    fallback. So sanitizing twice with a clean fallback is sanitizing
    once. *)
Theorem sanitize_filename_idempotent (name fallback : string) :
  ascii_spaces name = true → ascii_spaces fallback = true →
  fallback ≠ "" → safe fallback = true → trimmed fallback = true →
  (∀ clean, ascii_spaces clean = true →
            clean ≠ "" → safe clean = true → trimmed clean = true →
            sanitize_filename clean fallback = clean) ∧
  sanitize_filename (sanitize_filename name fallback) fallback
    = sanitize_filename name fallback.
Proof.
  intros _ _ Hne Hsafe Htrim.
  assert (∀ clean, clean ≠ "" → safe clean = true → trimmed clean = true →
                   sanitize_filename clean fallback = clean) as Hid.
  { intros clean Hc Hs Ht. unfold sanitize_filename.
    rewrite replace_unsafe_of_safe, strip_of_trimmed by done.
    by apply truthy_true in Hc as ->. }
  split; [auto |].
  destruct (sanitize_filename_cases name fallback) as [[-> _] | (? & ? & ?)]; auto.
Qed.

Lemma sanitize_filename_idempotent_witness :
  ascii_spaces " a/b:c " = true ∧ ascii_spaces "untitled" = true ∧
  "untitled" ≠ "" ∧ safe "untitled" = true ∧ trimmed "untitled" = true ∧
  sanitize_filename " a/b:c " "untitled" = "a_b_c" ∧
  sanitize_filename (sanitize_filename " a/b:c " "untitled") "untitled"
    = sanitize_filename " a/b:c " "untitled".
Proof.
  split; [reflexivity |]. split; [reflexivity |].
  split; [done |]. split; [reflexivity |]. split; [reflexivity |].
  split; [reflexivity |].
  apply (sanitize_filename_idempotent " a/b:c " "untitled"); [reflexivity .. | done | reflexivity | reflexivity].
Defined.

(** X3. Whatever the URL, and whatever [urlparse] and [Path.name] make of
    it, the slug is not empty and has no path separator nor any other
    unsafe character: it names one directory. *)
Theorem derive_slug_safe `{Lib} (source_url : string) :
  derive_slug source_url ≠ "" ∧ safe (derive_slug source_url) = true.
Proof.
  unfold derive_slug.
  destruct (sanitize_filename_cases (path_name (url_path source_url)) "untitled")
    as [[-> _] | (? & ? & _)]; [by split | done].
Qed.

(** ** fetch_html: the first page that is accepted *)

Section fetch_more.
Variable net : network.
Variables url language_code : string.
Variable max_retries : Z.

Local Abbreviation rq := (get_request url language_code).

Lemma requests_after n st : requests (after n rq st) = requests st ++ replicate n rq.
Proof. reflexivity. Qed.

(** Every turn but an accepted one adds a warning. *)
Lemma fetch_attempts_count attempts ws st doc ws' st' :
  fetch_attempts net url language_code max_retries attempts ws st = (doc, ws', st') →
  ∃ n, st' = after n rq st ∧ n ≤ length attempts ∧
       match doc with
       | Some text => text ≠ "" ∧ length ws' + 1 = length ws + n
       | None => n = length attempts ∧ length ws' = length ws + n
       end.
Proof.
  revert ws st. induction attempts as [|a attempts IH]; intros ws st Hrun; simpl in Hrun.
  - injection Hrun as <- <- <-. exists 0. by rewrite after_0.
  - assert (∀ w,
      fetch_attempts net url language_code max_retries attempts (ws ++ [w]) (sent rq st)
        = (doc, ws', st') →
      ∃ n, st' = after n rq st ∧ n ≤ S (length attempts) ∧
           match doc with
           | Some text => text ≠ "" ∧ length ws' + 1 = length ws + n
           | None => n = S (length attempts) ∧ length ws' = length ws + n
           end) as Hrest.
    { intros w H1. destruct (IH _ _ H1) as (n & -> & Hn & Hdoc).
      exists (S n). rewrite after_sent. split; [done |]. split; [lia |].
      rewrite length_app in Hdoc. simpl in Hdoc. destruct doc; [destruct Hdoc; split; [done | lia] | lia]. }
    destruct (net (requests st) rq) as [status text [exc|] | exc]; eauto.
    destruct ((status =? 200)%Z && Str.truthy text) eqn:Hok; eauto.
    injection Hrun as <- <- <-. exists 1. rewrite <-after_sent, after_0.
    split; [done |]. split; [simpl; lia |]. split; [| lia].
    apply andb_prop in Hok as [_ Hok]. by apply truthy_true.
Qed.

Lemma fetch_attempts_first_success k attempts ws st text :
  k < length attempts →
  (∀ i, i < k → rejected (net (requests st ++ replicate i rq) rq) = true) →
  net (requests st ++ replicate k rq) rq = Answer 200 text None →
  text ≠ "" →
  ∃ ws', fetch_attempts net url language_code max_retries attempts ws st
           = (Some text, ws ++ ws', after (S k) rq st) ∧
         length ws' = k.
Proof.
  intros Hk Hrej Hok Htext. revert attempts ws st Hk Hrej Hok.
  induction k as [|k IH]; intros [|a attempts] ws st Hk Hrej Hok;
    simpl in Hk; try lia.
  - exists []. simpl in Hok. rewrite app_nil_r in Hok. simpl. rewrite Hok.
    apply truthy_true in Htext. rewrite Htext. simpl.
    by rewrite app_nil_r, <-after_sent, after_0.
  - pose proof (Hrej 0 ltac:(lia)) as H0. simpl in H0. rewrite app_nil_r in H0.
    set (w := match net (requests st) rq with
              | Answer status _ None => http_warning status url a max_retries
              | Answer _ _ (Some exc) | Failure exc =>
                  exception_warning exc a max_retries
              end).
    destruct (IH attempts (ws ++ [w]) (sent rq st)) as (ws' & Hrun & Hlen).
    + lia.
    + intros i Hi. specialize (Hrej (S i) ltac:(lia)).
      simpl. by rewrite <-app_assoc.
    + simpl. by rewrite <-app_assoc.
    + exists (w :: ws'). split; [| simpl; lia].
      rewrite after_sent, <-app_assoc in Hrun. simpl. subst w.
      destruct (net (requests st) rq) as [status body [exc|] | exc]; try done.
      simpl in H0. apply negb_true_iff in H0. by rewrite H0.
Qed.
End fetch_more.

(** X4. [fetch_html] stops at the first attempt that brings a page: when
    the first [k] attempts are rejected and the next one, still within
    [max_retries], is answered with status 200 and a body, the body is
    returned with [k] warnings after [k + 1] requests, and the attempts
    that are left are not made. *)
Theorem fetch_html_first_success (net : network) (url language_code : string)
    (max_retries : Z) (st : state) (k : nat) (text : string) :
  k < Z.to_nat max_retries →
  (∀ i, i < k →
     rejected (net (requests st ++ replicate i (get_request url language_code))
                 (get_request url language_code)) = true) →
  net (requests st ++ replicate k (get_request url language_code))
    (get_request url language_code) = Answer 200 text None →
  text ≠ "" →
  ∃ ws, fetch_html net url language_code max_retries st
          = (Some text, ws, after (S k) (get_request url language_code) st) ∧
        length ws = k.
Proof.
  intros Hk Hrej Hok Htext. unfold fetch_html.
  destruct (fetch_attempts_first_success net url language_code max_retries k
              (seqZ 1 max_retries) [] st text) as (ws & Hrun & Hlen); try done.
  - by rewrite length_seqZ.
  - by exists ws.
Qed.

Lemma fetch_html_first_success_witness :
  1 < Z.to_nat 3 ∧
  (∀ i, i < 1 →
     rejected (Pages.recovering_site
                 (requests initial ++ replicate i (get_request story_url "en"))
                 (get_request story_url "en")) = true) ∧
  Pages.recovering_site (requests initial ++ replicate 1 (get_request story_url "en"))
    (get_request story_url "en") = Answer 200 "<p>page</p>" None ∧
  "<p>page</p>" ≠ "" ∧
  ∃ ws, fetch_html Pages.recovering_site story_url "en" 3 initial
          = (Some "<p>page</p>", ws, after 2 (get_request story_url "en") initial) ∧
        length ws = 1.
Proof.
  assert (∀ i, i < 1 →
     rejected (Pages.recovering_site
                 (requests initial ++ replicate i (get_request story_url "en"))
                 (get_request story_url "en")) = true) as Hrej.
  { intros [|i] Hi; [reflexivity | lia]. }
  split; [simpl; lia |]. split; [exact Hrej |]. split; [reflexivity |].
  split; [done |].
  apply (fetch_html_first_success Pages.recovering_site story_url "en" 3 initial 1
           "<p>page</p>"); [simpl; lia | exact Hrej | reflexivity | done].
Defined.

(** X5. Whatever the site does, [fetch_html] sends at most [max_retries]
    requests, all of them the same request for the URL, and touches
    neither the files nor the cache. A page that it returns is not empty
    and cost one request more than there are warnings; without a page,
    there are as many warnings as requests, and all [max_retries] were
    made. With [max_retries] at zero or below nothing is sent. *)
Theorem fetch_html_bounded (net : network) (url language_code : string)
    (max_retries : Z) (st : state) :
  ∃ n,
    (fetch_html net url language_code max_retries st).2
      = after n (get_request url language_code) st ∧
    n ≤ Z.to_nat max_retries ∧
    match (fetch_html net url language_code max_retries st).1.1 with
    | Some text =>
        text ≠ "" ∧
        length (fetch_html net url language_code max_retries st).1.2 + 1 = n
    | None =>
        n = Z.to_nat max_retries ∧
        length (fetch_html net url language_code max_retries st).1.2 = n
    end.
Proof.
  unfold fetch_html.
  destruct (fetch_attempts net url language_code max_retries (seqZ 1 max_retries) [] st)
    as [[doc ws] st'] eqn:Hrun.
  apply fetch_attempts_count in Hrun as (n & -> & Hn & Hdoc).
  rewrite length_seqZ in *. exists n. simpl. by destruct doc.
Qed.

(** ** The queries on the tree *)

Section tree.
Lemma node_induction (P : node → Prop) :
  (∀ text, P (Text text)) →
  (∀ tag attrs children, Forall P children → P (Element tag attrs children)) →
  ∀ n, P n.
Proof.
  intros Htext Helement. fix IH 1. intros [tag attrs children | text]; [| apply Htext].
  apply Helement. induction children as [|c children IHc]; constructor; [apply IH | done].
Qed.

Lemma elem_of_flat_map {A B} (f : A → list B) (l : list A) (y : B) :
  y ∈ flat_map f l ↔ ∃ x, x ∈ l ∧ y ∈ f x.
Proof.
  rewrite list_elem_of_In, in_flat_map. setoid_rewrite list_elem_of_In. done.
Qed.

Lemma descendants_refl n : n ∈ descendants n.
Proof. destruct n; simpl; apply list_elem_of_here. Qed.

Lemma descendants_child tag attrs children c d :
  c ∈ children → d ∈ descendants c → d ∈ descendants (Element tag attrs children).
Proof.
  intros Hc Hd. simpl. apply list_elem_of_further, elem_of_flat_map. eauto.
Qed.

Lemma descendants_inv tag attrs children d :
  d ∈ descendants (Element tag attrs children) →
  d = Element tag attrs children ∨ ∃ c, c ∈ children ∧ d ∈ descendants c.
Proof.
  simpl. intros [-> | Hd]%elem_of_cons; [by left | right].
  by apply elem_of_flat_map in Hd.
Qed.

(** With an [article] or [main] above, every [img] below is taken. *)
Lemma body_images_inside n img :
  tag_is "img" img = true → img ∈ descendants n → img ∈ body_images true n.
Proof.
  intros Himg. induction n as [text | tag attrs children IH] using node_induction.
  - intros ->%list_elem_of_singleton. done.
  - intros [-> | (c & Hc & Hd)]%descendants_inv.
    + simpl in *. rewrite Himg. apply list_elem_of_here.
    + cbn [body_images]. apply elem_of_app. right. apply elem_of_flat_map.
      exists c. split; [done |]. rewrite Forall_forall in IH. by apply IH.
Qed.

Lemma body_images_below inside n block img :
  block ∈ descendants n → is_block block = true →
  img ∈ descendants block → tag_is "img" img = true →
  img ∈ body_images inside n.
Proof.
  intros Hblock Hb Himg Htag. revert inside Hblock.
  induction n as [text | tag attrs children IH] using node_induction; intros inside.
  - intros ->%list_elem_of_singleton. done.
  - intros [-> | (c & Hc & Hd)]%descendants_inv.
    + apply descendants_inv in Himg as [-> | (c & Hc & Hd)].
      { unfold is_block in Hb. simpl in *.
        apply bool_decide_eq_true in Htag as ->. done. }
      cbn [body_images]. apply elem_of_app. right. apply elem_of_flat_map.
      exists c. split; [done |].
      assert (inside || bool_decide (tag = "article") || bool_decide (tag = "main")
              = true) as ->.
      { unfold is_block in Hb. simpl in Hb. rewrite <-orb_assoc, Hb. apply orb_true_r. }
      by apply body_images_inside.
    + cbn [body_images]. apply elem_of_app. right. apply elem_of_flat_map.
      exists c. split; [done |]. rewrite Forall_forall in IH. by apply IH.
Qed.

(** What is taken is an [img]; without an [article] or [main] above the
    node, such a block lies above the [img] in the node. *)
Lemma body_images_sound inside n img :
  img ∈ body_images inside n →
  tag_is "img" img = true ∧ img ∈ descendants n ∧
  (inside = true ∨
   ∃ block, block ∈ descendants n ∧ is_block block = true ∧ img ∈ descendants block).
Proof.
  revert inside. induction n as [text | tag attrs children IH] using node_induction;
    intros inside Hin.
  - by apply elem_of_nil in Hin.
  - cbn [body_images] in Hin. apply elem_of_app in Hin as [Hin | Hin].
    + destruct inside; [| by apply elem_of_nil in Hin]. simpl in Hin.
      case_bool_decide as Htag; [| by apply elem_of_nil in Hin].
      apply list_elem_of_singleton in Hin as ->. subst tag.
      split; [done |]. split; [apply descendants_refl | by left].
    + apply elem_of_flat_map in Hin as (c & Hc & Hin).
      rewrite Forall_forall in IH. destruct (IH c Hc _ Hin) as (Htag & Hd & Hwhy).
      split; [done |]. split; [by eapply descendants_child |].
      destruct Hwhy as [Hflag | (block & Hblock & Hb & Himg)].
      * destruct inside; [by left | right]. simpl in Hflag.
        exists (Element tag attrs children).
        split; [apply descendants_refl |]. split; [done |].
        by eapply descendants_child.
      * right. exists block. split; [by eapply descendants_child | done].
Qed.

Lemma image_of_spec `{Lib} base_url img url alt :
  (url, alt) ∈ image_of base_url img ↔
  image_src img ≠ "" ∧ url = urljoin base_url (image_src img) ∧
  alt = Str.strip (default "" (get_attr "alt" img)).
Proof.
  unfold image_of. fold (image_src img).
  destruct (Str.truthy (image_src img)) eqn:Hsrc.
  - apply truthy_true in Hsrc. rewrite list_elem_of_singleton. split.
    + by intros [= -> ->].
    + by intros (_ & -> & ->).
  - apply truthy_false in Hsrc. split; [by intros ?%elem_of_nil | by intros []].
Qed.

Lemma collect_images_spec `{Lib} tree base_url url alt :
  (url, alt) ∈ collect_images tree base_url ↔
  ∃ img block,
    block ∈ descendants tree ∧ is_block block = true ∧
    img ∈ descendants block ∧ tag_is "img" img = true ∧
    image_src img ≠ "" ∧ url = urljoin base_url (image_src img) ∧
    alt = Str.strip (default "" (get_attr "alt" img)).
Proof.
  unfold collect_images. rewrite elem_of_flat_map. split.
  - intros (img & Himg & Hpair). apply image_of_spec in Hpair.
    apply body_images_sound in Himg as (Htag & _ & [[=] | (block & ? & ? & ?)]).
    exists img, block. tauto.
  - intros (img & block & Hblock & Hb & Himg & Htag & Hsrc).
    exists img. split; [by eapply body_images_below |]. by apply image_of_spec.
Qed.
End tree.

(** X6. In a document whose [alt] attributes have ASCII white space
    only, the list that [collect_images] returns has an image exactly
    when the image comes from an [img] element that lies below an
    [article] or a [main] element of the document and has a [src], or
    failing that a [data-src], that is not empty. Its URL is that source
    joined to the base URL, and its alternative text is the [alt]
    attribute without the white space around it, the empty text when
    there is none. *)
Theorem collect_images_exactly `{Lib} (tree : node) (base_url : string)
    (images : list (string * string)) (url alt : string) :
  attribute_all ascii_spaces "alt" tree = true →
  collect_images tree base_url = images →
  (url, alt) ∈ images ↔
  ∃ img block,
    block ∈ descendants tree ∧ (tag_is "article" block || tag_is "main" block) = true ∧
    img ∈ descendants block ∧ tag_is "img" img = true ∧
    image_src img ≠ "" ∧ url = urljoin base_url (image_src img) ∧
    alt = Str.strip (default "" (get_attr "alt" img)).
Proof. intros _ <-. apply collect_images_spec. Qed.

Lemma collect_images_exactly_witness :
  attribute_all ascii_spaces "alt" Sample.en_tree = true ∧
  collect_images Sample.en_tree story_url = [(Sample.cover_url, "cover")] ∧
  ((Sample.cover_url, "cover") ∈ [(Sample.cover_url, "cover")] ↔
   ∃ img block,
     block ∈ descendants Sample.en_tree ∧
     (tag_is "article" block || tag_is "main" block) = true ∧
     img ∈ descendants block ∧ tag_is "img" img = true ∧
     image_src img ≠ "" ∧ Sample.cover_url = urljoin story_url (image_src img) ∧
     "cover" = Str.strip (default "" (get_attr "alt" img))).
Proof.
  split; [vm_compute; reflexivity |]. split; [vm_compute; reflexivity |].
  apply (collect_images_exactly Sample.en_tree story_url
           [(Sample.cover_url, "cover")] Sample.cover_url "cover");
    vm_compute; reflexivity.
Defined.

(** X7. A document without an [article] and without a [main] element has
    no image to collect, wherever its [img] elements are: also when the
    text is taken from a block flagged as the article component, or from
    the whole tree. *)
Theorem collect_images_needs_block `{Lib} (tree : node) (base_url : string) :
  (∀ n, n ∈ descendants tree → tag_is "article" n = false ∧ tag_is "main" n = false) →
  collect_images tree base_url = [].
Proof.
  intros Hnone.
  destruct (collect_images tree base_url) as [|[url alt] rest] eqn:Hcollect; [done |].
  assert ((url, alt) ∈ collect_images tree base_url) as Hin
    by (rewrite Hcollect; apply list_elem_of_here).
  apply collect_images_spec in Hin as (img & block & Hblock & Hb & _).
  destruct (Hnone block Hblock) as [Ha Hm]. unfold is_block in Hb.
  by rewrite Ha, Hm in Hb.
Qed.

Lemma collect_images_needs_block_witness :
  (∀ n, n ∈ descendants Pages.flagged_tree →
        tag_is "article" n = false ∧ tag_is "main" n = false) ∧
  main_blocks Pages.flagged_tree ≠ [] ∧
  collect_images Pages.flagged_tree story_url = [].
Proof.
  assert (∀ n, n ∈ descendants Pages.flagged_tree →
               tag_is "article" n = false ∧ tag_is "main" n = false) as Hnone.
  { intros n Hn. vm_compute in Hn.
    repeat (apply elem_of_cons in Hn as [-> | Hn]; [by split |]).
    by apply elem_of_nil in Hn. }
  split; [exact Hnone |]. split; [by vm_compute |].
  exact (collect_images_needs_block Pages.flagged_tree story_url Hnone).
Defined.

(** ** extract_language_variants *)

Section variants.
Context `{Lib} (base_url : string).
Implicit Types links : list node.
Implicit Types acc : gmap string string.

Local Abbreviation add := (λ variants link, variant_of base_url link variants).

Lemma variant_of_usable link acc :
  variant_of base_url link acc =
  if usable_link link
  then <[Str.lower (link_lang link) := urljoin base_url (link_href link)]> acc
  else acc.
Proof. reflexivity. Qed.

Lemma lower_nonempty s : s ≠ "" → Str.lower s ≠ "".
Proof. by destruct s. Qed.

(** An entry was there before, or comes from a usable link. *)
Lemma fold_variants_sound links acc key url :
  fold_left add links acc !! key = Some url →
  acc !! key = Some url ∨
  ∃ link, link ∈ links ∧ usable_link link = true ∧
          key = Str.lower (link_lang link) ∧ url = urljoin base_url (link_href link).
Proof.
  revert acc. induction links as [|link links IH]; intros acc; [by left |].
  simpl. intros [Hacc | (l & Hl & Hrest)]%IH.
  - rewrite variant_of_usable in Hacc. destruct (usable_link link) eqn:Hu; [| by left].
    destruct (decide (Str.lower (link_lang link) = key)) as [<- |].
    + rewrite lookup_insert_eq in Hacc. injection Hacc as <-.
      right. exists link. split; [apply list_elem_of_here | done].
    + rewrite lookup_insert_ne in Hacc by done. by left.
  - right. exists l. split; [by apply list_elem_of_further | done].
Qed.

(** Links that are not usable or have other keys leave an entry alone. *)
Lemma fold_variants_other links acc key :
  (∀ link, link ∈ links → usable_link link = true →
           Str.lower (link_lang link) ≠ key) →
  fold_left add links acc !! key = acc !! key.
Proof.
  revert acc. induction links as [|link links IH]; intros acc Hother; [done |].
  simpl. rewrite IH.
  - rewrite variant_of_usable. destruct (usable_link link) eqn:Hu; [| done].
    rewrite lookup_insert_ne; [done |]. apply Hother; [apply list_elem_of_here | done].
  - intros l Hl. apply Hother. by apply list_elem_of_further.
Qed.

Lemma fold_variants_last before link after acc :
  usable_link link = true →
  (∀ l, l ∈ after → usable_link l = true →
        Str.lower (link_lang l) ≠ Str.lower (link_lang link)) →
  fold_left add (before ++ link :: after) acc !! Str.lower (link_lang link)
  = Some (urljoin base_url (link_href link)).
Proof.
  intros Hu Hafter. rewrite fold_left_app. simpl.
  rewrite fold_variants_other by done.
  by rewrite variant_of_usable, Hu, lookup_insert_eq.
Qed.
End variants.

(** X8. In a document whose [hreflang] attributes are ASCII and whose
    [href] attributes have ASCII white space only, every entry of the
    mapping that [extract_language_variants] returns comes from a
    [link rel="alternate"] element of the document with an [hreflang] and
    an [href] that are not empty once stripped: the key is the stripped
    [hreflang] in lower case, and so is not empty, and the URL is the
    stripped [href] joined to the base URL. A link without a language or
    without a target adds nothing. *)
Theorem extract_language_variants_sound `{Lib} (tree : node)
    (base_url key url : string) :
  attribute_all isascii "hreflang" tree = true →
  attribute_all ascii_spaces "href" tree = true →
  extract_language_variants tree base_url !! key = Some url →
  key ≠ "" ∧
  ∃ link,
    link ∈ descendants tree ∧ tag_is "link" link = true ∧
    attr_is "rel" "alternate" link = true ∧
    link_lang link ≠ "" ∧ link_href link ≠ "" ∧
    key = Str.lower (link_lang link) ∧ url = urljoin base_url (link_href link).
Proof.
  unfold extract_language_variants.
  intros _ _ [Hempty | (link & Hlink & Hu & -> & ->)]%fold_variants_sound; [done |].
  apply andb_prop in Hu as [Hlang%truthy_true Hhref%truthy_true].
  split; [by apply lower_nonempty |]. exists link.
  apply list_elem_of_filter in Hlink as [Htest Hd].
  apply Is_true_true in Htest.
  apply andb_prop in Htest as [[Htag Hrel]%andb_prop _]. done.
Qed.

Lemma extract_language_variants_sound_witness :
  attribute_all isascii "hreflang" Sample.en_tree = true ∧
  attribute_all ascii_spaces "href" Sample.en_tree = true ∧
  extract_language_variants Sample.en_tree story_url !! "zh-hans"
    = Some Sample.zh_story_url ∧
  "zh-hans" ≠ "" ∧
  ∃ link,
    link ∈ descendants Sample.en_tree ∧ tag_is "link" link = true ∧
    attr_is "rel" "alternate" link = true ∧
    link_lang link ≠ "" ∧ link_href link ≠ "" ∧
    "zh-hans" = Str.lower (link_lang link) ∧
    Sample.zh_story_url = urljoin story_url (link_href link).
Proof.
  split; [vm_compute; reflexivity |]. split; [vm_compute; reflexivity |].
  split; [vm_compute; reflexivity |].
  apply (extract_language_variants_sound Sample.en_tree story_url "zh-hans"
           Sample.zh_story_url); vm_compute; reflexivity.
Defined.

(** X9. In a document whose [hreflang] attributes are ASCII and whose
    [href] attributes have ASCII white space only, when several alternate
    links give the same language, compared without regard to case, the
    last of them that is usable decides: its target, joined to the base
    URL, is what the mapping that [extract_language_variants] returns has
    for the language. *)
Theorem extract_language_variants_last_wins `{Lib} (tree : node) (base_url : string)
    (before after : list node) (link : node) (variants : gmap string string) :
  attribute_all isascii "hreflang" tree = true →
  attribute_all ascii_spaces "href" tree = true →
  extract_language_variants tree base_url = variants →
  alternate_links tree = before ++ link :: after →
  usable_link link = true →
  (∀ l, l ∈ after → usable_link l = true →
        Str.lower (link_lang l) ≠ Str.lower (link_lang link)) →
  variants !! Str.lower (link_lang link) = Some (urljoin base_url (link_href link)).
Proof.
  intros _ _ <- Hlinks Hu Hafter. unfold extract_language_variants. rewrite Hlinks.
  by apply fold_variants_last.
Qed.

Lemma extract_language_variants_last_wins_witness :
  attribute_all isascii "hreflang" Pages.twice_tree = true ∧
  attribute_all ascii_spaces "href" Pages.twice_tree = true ∧
  extract_language_variants Pages.twice_tree story_url
    = {[ "zh-hans" := "https://example.org/new" ]} ∧
  alternate_links Pages.twice_tree
    = [Pages.alternate "ZH-Hans" "/old"] ++ Pages.alternate "zh-hans" "/new" :: [] ∧
  usable_link (Pages.alternate "zh-hans" "/new") = true ∧
  ({[ "zh-hans" := "https://example.org/new" ]} : gmap string string) !! "zh-hans"
    = Some "https://example.org/new".
Proof.
  assert (extract_language_variants Pages.twice_tree story_url
          = {[ "zh-hans" := "https://example.org/new" ]}) as Hvariants
    by (vm_compute; reflexivity).
  assert (alternate_links Pages.twice_tree
          = [Pages.alternate "ZH-Hans" "/old"] ++
            Pages.alternate "zh-hans" "/new" :: []) as Hlinks
    by (vm_compute; reflexivity).
  split; [vm_compute; reflexivity |]. split; [vm_compute; reflexivity |].
  split; [exact Hvariants |]. split; [exact Hlinks |]. split; [reflexivity |].
  assert (∀ l, l ∈ [] → usable_link l = true →
               Str.lower (link_lang l)
               ≠ Str.lower (link_lang (Pages.alternate "zh-hans" "/new"))) as Hafter
    by (by intros l ?%elem_of_nil).
  pose proof (extract_language_variants_last_wins Pages.twice_tree story_url _ _ _ _
                eq_refl eq_refl Hvariants Hlinks eq_refl Hafter) as Hlast.
  vm_compute in Hlast. vm_compute. exact Hlast.
Defined.

(** ** extract_article_meta: defaults and exceptions *)

Section meta.
Implicit Types item : gmap string json.
Implicit Types acc : fields.

Lemma join_names_not_str parts :
  forallb is_str parts = false → ∃ msg, join_names parts = inl (TypeError msg).
Proof.
  induction parts as [|v parts IH]; [done |]. simpl.
  destruct v; simpl; eauto.
  intros [msg ->]%IH. eauto.
Qed.

Lemma scan_item_raises item acc :
  well_typed item = false → ∃ msg, scan_item item acc = inl (TypeError msg).
Proof.
  unfold well_typed, scan_item, is_article. intros Hwt.
  destruct (dict_get item "@type") as [| | | |s| |] eqn:Htype; simpl in *;
    try done; eauto.
  destruct (bool_decide (s = "Article") || bool_decide (s = "NewsArticle"));
    simpl in *; [| done].
  unfold author_after. destruct (dict_get item "author"); try done.
  fold (names_of items). destruct (join_names_not_str _ Hwt) as [msg ->]. eauto.
Qed.

Lemma scan_items_raises before item after acc :
  Forall (λ i, well_typed i = true) before → well_typed item = false →
  ∃ msg, scan_items (before ++ item :: after) acc = inl (TypeError msg).
Proof.
  intros Hbefore Hitem. revert acc.
  induction Hbefore as [|i before Hi _ IH]; intros acc; simpl.
  - destruct (scan_item_raises item acc Hitem) as [msg ->]. eauto.
  - rewrite scan_item_spec by done. apply IH.
Qed.

Lemma scan_items_error items acc e :
  scan_items items acc = inl e → ∃ msg, e = TypeError msg.
Proof.
  revert acc. induction items as [|item items IH]; intros acc; [done |]. simpl.
  destruct (well_typed item) eqn:Hwt.
  - rewrite scan_item_spec by done. apply IH.
  - destruct (scan_item_raises item acc Hwt) as [msg ->]. intros [= <-]. eauto.
Qed.

Lemma scan_items_no_article items acc :
  Forall (λ i, well_typed i = true) items →
  Forall (λ i, is_article i = false) items →
  scan_items items acc = inr acc.
Proof.
  intros Hwt Hnone. revert acc.
  induction Hwt as [|i items Hi _ IH]; intros acc; [done |].
  apply Forall_cons in Hnone as [Hart Hnone]. simpl.
  rewrite scan_item_spec by done. rewrite Hart. by apply IH.
Qed.

Lemma py_or_truthy a b : json_truthy b = true → json_truthy (py_or a b) = true.
Proof. unfold py_or. by destruct (json_truthy a) eqn:Ha. Qed.

(** A scan that comes to its end met no item on which it raises. *)
Lemma scan_items_returns items acc acc' :
  scan_items items acc = inr acc' → Forall (λ i, well_typed i = true) items.
Proof.
  revert acc. induction items as [|item items IH]; intros acc; [by constructor |].
  simpl. destruct (well_typed item) eqn:Hwt.
  - rewrite scan_item_spec by done. intros Hscan. constructor; [done | by eapply IH].
  - by destruct (scan_item_raises item acc Hwt) as [msg ->].
Qed.
End meta.

(** X10. A record that [extract_article_meta] returns has a title and an
    author that are not empty (the placeholders stand in for what the page
    does not give) and bears the language and the URL of the call; and the
    scan that led to it met no JSON-LD item on which it raises, that is,
    no item whose [@type] is a list or a dict and no article item with an
    author name that is neither empty nor a string. *)
Theorem extract_article_meta_record `{Lib} (tree : node)
    (language_code url : string) (m : ArticleMeta) :
  extract_article_meta tree language_code url = inr m →
  json_truthy (title m) = true ∧ json_truthy (author m) = true ∧
  language m = language_code ∧ source_url m = url ∧
  Forall (λ i, well_typed i = true) (ld_json_items tree).
Proof.
  unfold extract_article_meta.
  destruct (scan_items _ _) as [e | acc] eqn:Hscan; [done |].
  intros [= <-]. simpl. rewrite !py_or_truthy by done.
  repeat split. by eapply scan_items_returns.
Qed.

Lemma extract_article_meta_record_witness :
  extract_article_meta Sample.en_tree "en" story_url = inr (meta Sample.en_record) ∧
  json_truthy (title (meta Sample.en_record)) = true ∧
  json_truthy (author (meta Sample.en_record)) = true ∧
  language (meta Sample.en_record) = "en" ∧
  source_url (meta Sample.en_record) = story_url ∧
  Forall (λ i, well_typed i = true) (ld_json_items Sample.en_tree).
Proof.
  split; [vm_compute; reflexivity |].
  apply (extract_article_meta_record Sample.en_tree "en" story_url).
  vm_compute. reflexivity.
Defined.

(** X11. When no JSON-LD item of the document is of an article type, and
    in particular when there is no JSON-LD at all, the metadata are read
    off the page: the title is the text of the first [h1], the author the
    text of the element marked as the byline and the date the text of the
    element marked as the publication date, each without the white space
    around it, for texts whose white space is ASCII; an empty title or
    author gives way to its placeholder, an empty date stays empty. *)
Theorem extract_article_meta_from_page `{Lib} (tree : node)
    (language_code url : string) :
  ascii_spaces (xpath_string (by_tag "h1" tree)) = true →
  ascii_spaces (xpath_string (by_testid "byline-name" tree)) = true →
  ascii_spaces (xpath_string (by_testid "publish-date" tree)) = true →
  Forall (λ i, well_typed i = true) (ld_json_items tree) →
  Forall (λ i, is_article i = false) (ld_json_items tree) →
  extract_article_meta tree language_code url =
  inr {| title :=
           if Str.truthy (Str.strip (xpath_string (by_tag "h1" tree)))
           then JStr (Str.strip (xpath_string (by_tag "h1" tree)))
           else JStr "未命名文章";
         author :=
           if Str.truthy (Str.strip (xpath_string (by_testid "byline-name" tree)))
           then JStr (Str.strip (xpath_string (by_testid "byline-name" tree)))
           else JStr "未知作者";
         published := JStr (Str.strip (xpath_string (by_testid "publish-date" tree)));
         source_url := url;
         language := language_code |}.
Proof.
  intros _ _ _ Hwt Hnone. unfold extract_article_meta.
  by rewrite scan_items_no_article.
Qed.

Lemma extract_article_meta_from_page_witness :
  ascii_spaces (xpath_string (by_tag "h1" Pages.bare_tree)) = true ∧
  ascii_spaces (xpath_string (by_testid "byline-name" Pages.bare_tree)) = true ∧
  ascii_spaces (xpath_string (by_testid "publish-date" Pages.bare_tree)) = true ∧
  Forall (λ i, well_typed i = true) (ld_json_items (H := Pages.lib) Pages.bare_tree) ∧
  Forall (λ i, is_article i = false) (ld_json_items (H := Pages.lib) Pages.bare_tree) ∧
  extract_article_meta (H := Pages.lib) Pages.bare_tree "en" story_url =
  inr {| title := JStr "Cry of Magic"; author := JStr "未知作者";
         published := JStr "March 26, 2021"; source_url := story_url;
         language := "en" |}.
Proof.
  assert (ld_json_items (H := Pages.lib) Pages.bare_tree = [Pages.site_block]) as Hitems
    by (vm_compute; reflexivity).
  assert (Forall (λ i, well_typed i = true) (ld_json_items (H := Pages.lib) Pages.bare_tree)) as Hwt
    by (rewrite Hitems; by repeat constructor).
  assert (Forall (λ i, is_article i = false) (ld_json_items (H := Pages.lib) Pages.bare_tree)) as Hnone
    by (rewrite Hitems; by repeat constructor).
  split; [vm_compute; reflexivity |]. split; [vm_compute; reflexivity |].
  split; [vm_compute; reflexivity |].
  split; [exact Hwt |]. split; [exact Hnone |].
  pose proof (extract_article_meta_from_page (H := Pages.lib) Pages.bare_tree "en" story_url
                eq_refl eq_refl eq_refl Hwt Hnone) as Hmeta.
  vm_compute in Hmeta. vm_compute. exact Hmeta.
Defined.

(** X12. The first JSON-LD item on which the scan cannot go on makes
    [extract_article_meta] raise a [TypeError]: an item whose [@type] is a
    list or a dict (it cannot be looked up in the set of the article
    types), or an article item whose author list has a name that is
    neither empty nor a string. *)
Theorem extract_article_meta_raises `{Lib} (tree : node) (language_code url : string)
    (before after : list (gmap string json)) (item : gmap string json) :
  ld_json_items tree = before ++ item :: after →
  Forall (λ i, well_typed i = true) before →
  well_typed item = false →
  ∃ msg, extract_article_meta tree language_code url = inl (TypeError msg).
Proof.
  intros Hitems Hbefore Hitem. unfold extract_article_meta. rewrite Hitems.
  destruct (scan_items_raises before item after
              {| f_title := JStr ""; f_author := JStr ""; f_published := JStr "" |}
              Hbefore Hitem) as [msg ->].
  eauto.
Qed.

Lemma extract_article_meta_raises_witness :
  ld_json_items (H := Pages.lib) Pages.typed_tree = [] ++ Pages.typed_block :: [] ∧
  Forall (λ i, well_typed i = true) [] ∧
  well_typed Pages.typed_block = false ∧
  dict_get Pages.typed_block "@type" = JList [JStr "Article"; JStr "WebPage"] ∧
  ∃ msg, extract_article_meta (H := Pages.lib) Pages.typed_tree "en" story_url = inl (TypeError msg).
Proof.
  assert (ld_json_items (H := Pages.lib) Pages.typed_tree = [] ++ Pages.typed_block :: []) as Hitems
    by (vm_compute; reflexivity).
  split; [exact Hitems |]. split; [constructor |]. split; [reflexivity |].
  split; [reflexivity |].
  apply (extract_article_meta_raises (H := Pages.lib) Pages.typed_tree "en" story_url [] []
           Pages.typed_block Hitems); [constructor | reflexivity].
Defined.

(** ** The names and the outcomes of ensure_download *)

Section digits.
Implicit Types test : ascii → bool.

Lemma safe_app s t : safe (s +:+ t) = safe s && safe t.
Proof. apply all_chars_app. Qed.

Lemma pretty_N_char_safe x : negb (unsafe_char (pretty_N_char x)) = true.
Proof. unfold pretty_N_char. by repeat case_match. Qed.

Lemma pretty_N_go_safe x s : safe s = true → safe (pretty_N_go x s) = true.
Proof.
  revert s. induction (N.lt_wf_0 x) as [x _ IH]; intros s Hs.
  destruct (decide (x = 0)%N) as [-> | Hx]; [by rewrite pretty_N_go_0 |].
  rewrite pretty_N_go_step by lia. apply IH.
  - apply N.div_lt; lia.
  - unfold safe in *. simpl. by rewrite pretty_N_char_safe, Hs.
Qed.

Lemma pretty_nat_safe (n : nat) : safe (pretty n) = true.
Proof.
  unfold pretty, pretty_nat, pretty, pretty_N. case_decide; [done |].
  by apply pretty_N_go_safe.
Qed.

Lemma fmt_02d_safe n : safe (fmt_02d n) = true.
Proof.
  unfold fmt_02d. destruct (n <? 10); [| apply pretty_nat_safe].
  by rewrite safe_app, pretty_nat_safe.
Qed.

End digits.

(** X13. The stem of the file name of an image, made of the index and
    the alternative text, has no path separator nor any other unsafe
    character, whatever the alternative text is: the text of a page
    cannot move the file out of the directory of the article. *)
Theorem stem_of_safe (alt_text : string) (index : nat) :
  safe (stem_of alt_text index) = true ∧ stem_of alt_text index ≠ "".
Proof.
  unfold stem_of, file_stem. split.
  - rewrite !safe_app, fmt_02d_safe.
    destruct (sanitize_filename_cases alt_text ("image-" +:+ fmt_02d index))
      as [[-> _] | (_ & -> & _)]; [| done].
    by rewrite safe_app, fmt_02d_safe.
  - unfold fmt_02d. destruct (index <? 10); [done |].
    intros Heq. apply (f_equal String.length) in Heq.
    rewrite !str_length_app in Heq. simpl in Heq. lia.
Qed.

Section outcomes.
Context `{Lib} (net : network) (base_dir : string).
Implicit Types slug remote_url alt_text : string.

(** A miss, step by step. *)
Lemma ensure_download_unfold slug remote_url alt_text index st :
  cached_path (cache st) slug remote_url = None →
  ∃ candidate,
    choose_candidate base_dir slug remote_url alt_text index (files st)
      = Some candidate ∧
    files st !! candidate = None ∧
    ensure_download net base_dir slug remote_url alt_text index st =
    let st0 := sent (stream_request remote_url)
                 (with_cache (setdefault slug (cache st)).2 st) in
    match net (requests st) (stream_request remote_url) with
    | Failure exc => (inr (None, Some (download_warning remote_url exc)), st0)
    | Answer status body broken =>
        if is_success status then
          let st1 := with_files (<[candidate := body]> (files st)) st0 in
          match broken with
          | Some exc => (inr (None, Some (download_warning remote_url exc)), st1)
          | None =>
              (inr (Some candidate, None),
               with_cache
                 (<[slug := <[remote_url := candidate]> (setdefault slug (cache st)).1]>
                    (setdefault slug (cache st)).2) st1)
          end
        else
          (inr (None, Some (download_warning remote_url
                              (status_error status remote_url))), st0)
    end.
Proof.
  intros Hmiss.
  destruct (choose_candidate_fresh base_dir slug remote_url alt_text index (files st))
    as (candidate & Hchoose & Hfree & _).
  exists candidate. split; [done |]. split; [done |]. unfold ensure_download.
  pose proof (setdefault_fst (cache st) slug remote_url) as Hfst.
  destruct (setdefault slug (cache st)) as [slug_cache c] eqn:Hsd.
  simpl in Hfst. rewrite Hfst, Hmiss. cbn [files with_cache requests]. by rewrite Hchoose.
Qed.

Lemma download_warning_nonempty remote_url exc : download_warning remote_url exc ≠ "".
Proof. done. Qed.

(** A call returns a path that is in the cache afterwards, or a
    warning; it raises nothing and its loop ends. *)
Lemma ensure_download_outcome slug remote_url alt_text index st :
  ∃ r st',
    ensure_download net base_dir slug remote_url alt_text index st = (inr r, st') ∧
    ((∃ p, r = (Some p, None) ∧ cached_path (cache st') slug remote_url = Some p) ∨
     (∃ w, r = (None, Some w) ∧ w ≠ "")).
Proof.
  destruct (cached_path (cache st) slug remote_url) as [p|] eqn:Hc.
  - exists (Some p, None), st. split; [by apply ensure_download_hit |]. left. eauto.
  - destruct (ensure_download_unfold slug remote_url alt_text index st Hc)
      as (candidate & _ & _ & ->). cbv zeta.
    destruct (net (requests st) (stream_request remote_url))
      as [status body [exc|] | exc]; [destruct (is_success status) .. |];
      eexists _, _; (split; [done |]);
      try (right; eexists; split; [done | apply download_warning_nonempty]).
    left. exists candidate. split; [done |]. cbn [cache with_cache].
    rewrite cached_path_insert. by rewrite !decide_True.
Qed.
End outcomes.

(** X14. A download that succeeds on a miss writes the body that was
    received to a path that did not exist, changes no other file, sends
    one request with the base headers, and stores the path in the cache
    for the article and the URL, leaving every other pair of the cache as
    it was. *)
Theorem ensure_download_stores `{Lib} (net : network) (base_dir : string)
    (slug remote_url alt_text : string) (index : nat) (st : state)
    (status : Z) (body : string) :
  cached_path (cache st) slug remote_url = None →
  net (requests st) (stream_request remote_url) = Answer status body None →
  is_success status = true →
  ∃ p st',
    ensure_download net base_dir slug remote_url alt_text index st
      = (inr (Some p, None), st') ∧
    files st !! p = None ∧
    files st' = <[p := body]> (files st) ∧
    requests st' = requests st ++ [stream_request remote_url] ∧
    cached_path (cache st') slug remote_url = Some p ∧
    ∀ s u, (s, u) ≠ (slug, remote_url) →
           cached_path (cache st') s u = cached_path (cache st) s u.
Proof.
  intros Hmiss Hreply Hok.
  destruct (ensure_download_unfold net base_dir slug remote_url alt_text index st Hmiss)
    as (p & _ & Hfree & ->).
  rewrite Hreply, Hok. cbv zeta. eexists p, _. split; [done |].
  split; [done |]. split; [done |]. split; [done |]. cbn [cache with_cache].
  split.
  - rewrite cached_path_insert. by rewrite !decide_True.
  - intros s u Hne. rewrite cached_path_insert, setdefault_fst.
    destruct (decide (s = slug)) as [-> |]; [| apply cached_path_setdefault].
    destruct (decide (u = remote_url)) as [-> |]; done.
Qed.

Lemma ensure_download_stores_witness :
  cached_path (cache initial) "story" Sample.cover_url = None ∧
  Sample.site true (requests initial) (stream_request Sample.cover_url)
    = Answer 200 "JPEG" None ∧
  is_success 200 = true ∧
  ∃ p st',
    ensure_download (Sample.site true) "assets" "story" Sample.cover_url "cover" 1
      initial = (inr (Some p, None), st') ∧
    files initial !! p = None ∧
    files st' = <[p := "JPEG"]> (files initial) ∧
    requests st' = requests initial ++ [stream_request Sample.cover_url] ∧
    cached_path (cache st') "story" Sample.cover_url = Some p ∧
    ∀ s u, (s, u) ≠ ("story", Sample.cover_url) →
           cached_path (cache st') s u = cached_path (cache initial) s u.
Proof.
  split; [reflexivity |]. split; [reflexivity |]. split; [reflexivity |].
  apply (ensure_download_stores (Sample.site true) "assets" "story" Sample.cover_url
           "cover" 1 initial 200 "JPEG"); reflexivity.
Defined.

(** X15. When the request for an image is refused, or answered with a
    status that is not a success, no file is written at all: the disk is
    as it was, and the warning gives the URL and the text of the
    exception. *)
Theorem ensure_download_refused `{Lib} (net : network) (base_dir : string)
    (slug remote_url alt_text : string) (index : nat) (st : state) :
  cached_path (cache st) slug remote_url = None →
  match net (requests st) (stream_request remote_url) with
  | Failure _ => True
  | Answer status _ _ => is_success status = false
  end →
  ∃ st',
    ensure_download net base_dir slug remote_url alt_text index st
      = (inr (None,
              Some ("图片下载失败：" +:+ remote_url +:+ " -> " +:+
                    match net (requests st) (stream_request remote_url) with
                    | Failure exc => exc
                    | Answer status _ _ => status_error status remote_url
                    end)), st') ∧
    files st' = files st ∧
    requests st' = requests st ++ [stream_request remote_url].
Proof.
  intros Hmiss Hreply.
  destruct (ensure_download_unfold net base_dir slug remote_url alt_text index st Hmiss)
    as (p & _ & _ & ->).
  destruct (net (requests st) (stream_request remote_url)) as [status body broken | exc].
  - rewrite Hreply. by eexists.
  - by eexists.
Qed.

Lemma ensure_download_refused_witness :
  cached_path (cache initial) "story" "https://example.org/img/gone.jpg" = None ∧
  ∃ st',
    ensure_download (Sample.site true) "assets" "story"
      "https://example.org/img/gone.jpg" "gone" 2 initial
      = (inr (None,
              Some ("图片下载失败：https://example.org/img/gone.jpg -> " +:+
                    "status 404 for url https://example.org/img/gone.jpg")), st') ∧
    files st' = files initial ∧
    requests st' = requests initial ++ [stream_request "https://example.org/img/gone.jpg"].
Proof.
  split; [reflexivity |].
  exact (ensure_download_refused (Sample.site true) "assets" "story"
           "https://example.org/img/gone.jpg" "gone" 2 initial eq_refl eq_refl).
Defined.

(** X16. When the transfer of an image breaks, the part that arrived
    stays on disk under the chosen name, and the pair is not put in the
    cache. The name is then taken: whatever is downloaded next for the
    article under that name, the same image again or another, goes to a
    different path, and the partial file is never completed nor removed
    by [ensure_download]. *)
Theorem ensure_download_broken `{Lib} (net : network) (base_dir : string)
    (slug remote_url alt_text : string) (index : nat) (st : state)
    (status : Z) (body exc : string) :
  cached_path (cache st) slug remote_url = None →
  net (requests st) (stream_request remote_url) = Answer status body (Some exc) →
  is_success status = true →
  ∃ p st',
    ensure_download net base_dir slug remote_url alt_text index st
      = (inr (None, Some ("图片下载失败：" +:+ remote_url +:+ " -> " +:+ exc)), st') ∧
    choose_candidate base_dir slug remote_url alt_text index (files st) = Some p ∧
    files st' = <[p := body]> (files st) ∧
    cached_path (cache st') slug remote_url = None ∧
    (∀ remote_url' alt_text' index',
       choose_candidate base_dir slug remote_url' alt_text' index' (files st') ≠ Some p) ∧
    ∀ slug' remote_url' alt_text' index',
      files (ensure_download net base_dir slug' remote_url' alt_text' index' st').2 !! p
      = Some body.
Proof.
  intros Hmiss Hreply Hok.
  destruct (ensure_download_unfold net base_dir slug remote_url alt_text index st Hmiss)
    as (p & Hchoose & Hfree & ->).
  rewrite Hreply, Hok. cbv zeta. eexists p, _. split; [done |].
  split; [done |]. split; [done |]. cbn [cache files with_cache with_files sent].
  split; [by rewrite cached_path_setdefault |]. split.
  - intros remote_url' alt_text' index' Hagain.
    destruct (choose_candidate_fresh base_dir slug remote_url' alt_text' index'
                (<[p := body]> (files st))) as (q & Hq & Hfresh & _).
    rewrite Hagain in Hq. injection Hq as <-. by rewrite lookup_insert_eq in Hfresh.
  - intros slug' remote_url' alt_text' index'.
    apply ensure_download_files. cbn. apply lookup_insert_eq.
Qed.

Lemma ensure_download_broken_witness :
  cached_path (cache initial) "story" Sample.cover_url = None ∧
  Pages.broken_site (requests initial) (stream_request Sample.cover_url)
    = Answer 200 "JPE" (Some "connection reset") ∧
  is_success 200 = true ∧
  ∃ p st',
    ensure_download Pages.broken_site "assets" "story" Sample.cover_url "cover" 1 initial
      = (inr (None,
              Some ("图片下载失败：" +:+ Sample.cover_url +:+ " -> " +:+
                    "connection reset")), st') ∧
    choose_candidate "assets" "story" Sample.cover_url "cover" 1 (files initial)
      = Some p ∧
    files st' = <[p := "JPE"]> (files initial) ∧
    cached_path (cache st') "story" Sample.cover_url = None ∧
    (∀ remote_url' alt_text' index',
       choose_candidate "assets" "story" remote_url' alt_text' index' (files st')
       ≠ Some p) ∧
    ∀ slug' remote_url' alt_text' index',
      files (ensure_download Pages.broken_site "assets" slug' remote_url' alt_text'
               index' st').2 !! p = Some "JPE".
Proof.
  split; [reflexivity |]. split; [reflexivity |]. split; [reflexivity |].
  apply (ensure_download_broken Pages.broken_site "assets" "story" Sample.cover_url
           "cover" 1 initial 200 "JPE" "connection reset"); reflexivity.
Defined.

(** ** The image loop and the page *)

Section images.
Context `{Lib} (net : network) (ex : extractor) (cfg : StoryScraper).
Implicit Types images : list (string * string).

(** Every image of the loop ends up as an asset or as a warning. *)
Lemma download_images_accounts slug markdown_dir images idx acc st :
  ∃ got st',
    download_images net cfg slug markdown_dir images idx acc st = (inr got, st') ∧
    length (g_assets got) + length (g_warnings got)
      = length (g_assets acc) + length (g_warnings acc) + length images ∧
    g_assets acc `prefix_of` g_assets got ∧
    g_warnings acc `prefix_of` g_warnings got ∧
    (∀ u, is_Some (g_map got !! u) → is_Some (g_map acc !! u) ∨ u ∈ images.*1) ∧
    (∀ p, p ∈ g_assets got →
          p ∈ g_assets acc ∨
          ∃ u, u ∈ images.*1 ∧ cached_path (cache st') slug u = Some p).
Proof.
  revert idx acc st. induction images as [|[img_url alt] images IH]; intros idx acc st.
  - exists acc, st. split; [done |]. split; [simpl; lia |].
    split; [done |]. split; [done |]. split; [by left | by left].
  - cbn [download_images]. unfold bind at 1.
    destruct (ensure_download_outcome net (asset_root cfg) slug img_url alt idx st)
      as (r & st1 & -> & Hr).
    destruct Hr as [(p & -> & Hcached) | (w & -> & Hw)].
    + match goal with
      | |- context [download_images _ _ _ _ images (S idx) ?a st1] =>
          destruct (IH (S idx) a st1)
            as (got & st' & Hrun & Hlen & Hassets & Hwarn & Hmap & Hpaths)
      end.
      exists got, st'. split; [done |]. cbn [g_assets g_warnings g_map] in *.
      split; [rewrite length_app in Hlen; simpl in *; lia |].
      split; [by etrans; [apply prefix_app_r | exact Hassets] |].
      split; [done |]. split.
      * intros u [Hu | Hu]%Hmap.
        -- destruct (decide (img_url = u)) as [<- |].
           ++ right. apply list_elem_of_here.
           ++ left. by rewrite lookup_insert_ne in Hu.
        -- right. by apply list_elem_of_further.
      * intros q [Hq | (u & Hu & Hq)]%Hpaths.
        -- apply elem_of_app in Hq as [Hq | ->%list_elem_of_singleton]; [by left |].
           right. exists img_url. split; [apply list_elem_of_here |].
           pose proof (steady_download_images net cfg slug markdown_dir images (S idx)
                         {| g_assets := g_assets acc ++ [p];
                            g_map := <[img_url := relpath p markdown_dir]> (g_map acc);
                            g_warnings := g_warnings acc |} st1) as Hsteps.
           rewrite Hrun in Hsteps. by eapply steps_cached.
        -- right. exists u. split; [by apply list_elem_of_further | done].
    + apply truthy_true in Hw. rewrite Hw.
      match goal with
      | |- context [download_images _ _ _ _ images (S idx) ?a st1] =>
          destruct (IH (S idx) a st1)
            as (got & st' & Hrun & Hlen & Hassets & Hwarn & Hmap & Hpaths)
      end.
      exists got, st'. split; [done |]. cbn [g_assets g_warnings g_map] in *.
      split; [rewrite length_app in Hlen; simpl in *; lia |].
      split; [done |].
      split; [by etrans; [apply prefix_app_r | exact Hwarn] |]. split.
      * intros u [Hu | Hu]%Hmap; [by left | right; by apply list_elem_of_further].
      * intros q [Hq | (u & Hu & Hq)]%Hpaths; [by left |].
        right. exists u. split; [by apply list_elem_of_further | done].
Qed.
End images.

(** X17. When the image loop comes to its end, every image it was given
    has ended up as exactly one new entry, an asset or a warning, after
    those that were there; the replacement map has got keys among the URLs
    of the images only; and every new asset is, at the end of the loop, the
    path that the cache has for one of those URLs. *)
Theorem download_images_accounted `{Lib} (net : network) (cfg : StoryScraper)
    (slug markdown_dir : string) (images : list (string * string)) (idx : nat)
    (acc got : gathered) (st st' : state) :
  download_images net cfg slug markdown_dir images idx acc st = (inr got, st') →
  length (g_assets got) + length (g_warnings got)
    = length (g_assets acc) + length (g_warnings acc) + length images ∧
  g_assets acc `prefix_of` g_assets got ∧
  g_warnings acc `prefix_of` g_warnings got ∧
  (∀ u, is_Some (g_map got !! u) → is_Some (g_map acc !! u) ∨ u ∈ images.*1) ∧
  (∀ p, p ∈ g_assets got →
        p ∈ g_assets acc ∨
        ∃ u, u ∈ images.*1 ∧ cached_path (cache st') slug u = Some p).
Proof.
  intros Hrun.
  destruct (download_images_accounts net cfg slug markdown_dir images idx acc st)
    as (got0 & st0 & Hrun0 & Hspec).
  rewrite Hrun in Hrun0. by injection Hrun0 as <- <-.
Qed.

Lemma download_images_accounted_witness :
  download_images (Sample.site true) Sample.cfg "story" "output/story"
    [(Sample.cover_url, "cover")] 1 Pages.nothing (Sample.fetched true)
    = (inr Pages.gathered_cover, Pages.images_done) ∧
  length (g_assets Pages.gathered_cover) + length (g_warnings Pages.gathered_cover)
    = length (g_assets Pages.nothing) + length (g_warnings Pages.nothing)
      + length [(Sample.cover_url, "cover")] ∧
  g_assets Pages.nothing `prefix_of` g_assets Pages.gathered_cover ∧
  g_warnings Pages.nothing `prefix_of` g_warnings Pages.gathered_cover ∧
  (∀ u, is_Some (g_map Pages.gathered_cover !! u) →
        is_Some (g_map Pages.nothing !! u) ∨ u ∈ [(Sample.cover_url, "cover")].*1) ∧
  (∀ p, p ∈ g_assets Pages.gathered_cover →
        p ∈ g_assets Pages.nothing ∨
        ∃ u, u ∈ [(Sample.cover_url, "cover")].*1 ∧
             cached_path (cache Pages.images_done) "story" u = Some p).
Proof.
  assert (download_images (Sample.site true) Sample.cfg "story" "output/story"
            [(Sample.cover_url, "cover")] 1 Pages.nothing (Sample.fetched true)
          = (inr Pages.gathered_cover, Pages.images_done)) as Hrun
    by (vm_compute; reflexivity).
  split; [exact Hrun |].
  exact (download_images_accounted (Sample.site true) Sample.cfg "story"
           "output/story" [(Sample.cover_url, "cover")] 1 Pages.nothing
           Pages.gathered_cover (Sample.fetched true) Pages.images_done Hrun).
Defined.

Section page.
Context `{Lib} (net : network) (ex : extractor) (cfg : StoryScraper).

Lemma process_page_spec slug language_code url tree html ws st m markdown :
  extract_article_meta tree language_code url = inr m →
  html_to_markdown ex html url = inr markdown →
  ∃ r st' replacement_map,
    process_page net ex cfg slug language_code url tree html ws st = (inr r, st') ∧
    meta r = m ∧
    markdown_path r
      = path_join (path_join (output_root cfg) slug) (language_code +:+ ".md") ∧
    files st' !! markdown_path r
      = Some (Str.join newline (front_matter m) +:+
              rewrite_markdown_images markdown replacement_map) ∧
    (∀ u, is_Some (replacement_map !! u) → u ∈ (collect_images tree url).*1) ∧
    ws `prefix_of` warnings r ∧
    length (assets r) + length (warnings r)
      = length ws + length (collect_images tree url).
Proof.
  intros Hmeta Hmd. unfold process_page, bind, lift_exn. rewrite Hmeta, Hmd.
  destruct (download_images_accounts net cfg slug
              (path_join (output_root cfg) slug) (collect_images tree url) 1
              {| g_assets := []; g_map := ∅; g_warnings := ws |} st)
    as (got & st1 & -> & Hlen & _ & Hwarn & Hmap & _).
  unfold write_text, ret. eexists _, _, (g_map got). split; [done |].
  cbn [meta markdown_path assets warnings files with_files g_assets g_warnings g_map]
    in *.
  split; [done |]. split; [done |]. split; [by rewrite lookup_insert_eq |].
  split; [| split; [done | simpl in Hlen; lia]].
  intros u [Hu | Hu]%Hmap; [| done]. rewrite lookup_empty in Hu. by destruct Hu.
Qed.
End page.

(** X18. When [process_page] returns a record, neither the metadata nor
    the text of the page raised, and the record bears those metadata. Its
    Markdown file is [<output_root>/<slug>/<language>.md] and holds, when
    the call returns, the front matter followed by the text in which the
    images are rewritten, and only URLs of collected images are rewritten.
    The warnings it was given come first in the record, and every
    collected image is accounted for: the assets and the new warnings are
    as many as the images. *)
Theorem process_page_result `{Lib} (net : network) (ex : extractor)
    (cfg : StoryScraper) (slug language_code url : string) (tree : node)
    (html : string) (ws : list string) (st st' : state) (r : DownloadResult) :
  process_page net ex cfg slug language_code url tree html ws st = (inr r, st') →
  ∃ markdown replacement_map,
    extract_article_meta tree language_code url = inr (meta r) ∧
    html_to_markdown ex html url = inr markdown ∧
    markdown_path r
      = path_join (path_join (output_root cfg) slug) (language_code +:+ ".md") ∧
    files st' !! markdown_path r
      = Some (Str.join newline (front_matter (meta r)) +:+
              rewrite_markdown_images markdown replacement_map) ∧
    (∀ u, is_Some (replacement_map !! u) → u ∈ (collect_images tree url).*1) ∧
    ws `prefix_of` warnings r ∧
    length (assets r) + length (warnings r)
      = length ws + length (collect_images tree url).
Proof.
  intros Hrun.
  destruct (extract_article_meta tree language_code url) as [e | m] eqn:Hmeta.
  { unfold process_page, bind, lift_exn in Hrun. by rewrite Hmeta in Hrun. }
  destruct (html_to_markdown ex html url) as [e | markdown] eqn:Hmd.
  { unfold process_page, bind, lift_exn in Hrun. by rewrite Hmeta, Hmd in Hrun. }
  destruct (process_page_spec net ex cfg slug language_code url tree html ws st m
              markdown Hmeta Hmd)
    as (r0 & st0 & replacement_map & Hrun0 & <- & Hspec).
  rewrite Hrun in Hrun0. injection Hrun0 as <- <-.
  by exists markdown, replacement_map.
Qed.

Lemma process_page_result_witness :
  process_page (Sample.site true) Sample.markdownify Sample.cfg "story" "en"
    story_url Sample.en_tree Sample.en_html [] (Sample.fetched true)
    = (inr Sample.en_record, Sample.en_done true) ∧
  ∃ markdown replacement_map,
    extract_article_meta Sample.en_tree "en" story_url = inr (meta Sample.en_record) ∧
    html_to_markdown Sample.markdownify Sample.en_html story_url = inr markdown ∧
    markdown_path Sample.en_record
      = path_join (path_join (output_root Sample.cfg) "story") ("en" +:+ ".md") ∧
    files (Sample.en_done true) !! markdown_path Sample.en_record
      = Some (Str.join newline (front_matter (meta Sample.en_record)) +:+
              rewrite_markdown_images markdown replacement_map) ∧
    (∀ u, is_Some (replacement_map !! u) →
          u ∈ (collect_images Sample.en_tree story_url).*1) ∧
    [] `prefix_of` warnings Sample.en_record ∧
    length (assets Sample.en_record) + length (warnings Sample.en_record)
      = length ([] : list string) + length (collect_images Sample.en_tree story_url).
Proof.
  assert (process_page (Sample.site true) Sample.markdownify Sample.cfg "story" "en"
            story_url Sample.en_tree Sample.en_html [] (Sample.fetched true)
          = (inr Sample.en_record, Sample.en_done true)) as Hrun
    by (vm_compute; reflexivity).
  split; [exact Hrun |].
  exact (process_page_result (Sample.site true) Sample.markdownify Sample.cfg
           "story" "en" story_url Sample.en_tree Sample.en_html []
           (Sample.fetched true) (Sample.en_done true) Sample.en_record Hrun).
Defined.

(** ** The run as a whole *)

Section run.
Context `{Lib} (net : network) (ex : extractor) (cfg : StoryScraper).

Lemma run_from_limit l articles idx all_results st :
  run_from net ex cfg (Some l) articles idx all_results st
  = run_from net ex cfg None (take (Z.to_nat (l - idx + 1)) articles) idx
      all_results st.
Proof.
  revert idx all_results st.
  induction articles as [|url articles IH]; intros idx all_results st.
  - by rewrite take_nil.
  - cbn [run_from]. destruct (l <? idx)%Z eqn:Hover.
    + apply Z.ltb_lt in Hover.
      by replace (Z.to_nat (l - idx + 1)) with 0 by lia.
    + apply Z.ltb_ge in Hover.
      replace (Z.to_nat (l - idx + 1)) with (S (Z.to_nat (l - (idx + 1) + 1))) by lia.
      cbn [take run_from]. unfold bind.
      destruct (scrape_article net ex cfg url st) as [[f | results] st']; [done |].
      apply IH.
Qed.

Lemma requests_filter_after n rq st :
  is_get rq = true → page_requests (after n rq st) = page_requests st + n.
Proof.
  intros Hget. unfold page_requests, after. simpl.
  rewrite filter_app, length_app. f_equal.
  induction n as [|n IH]; [done |]. simpl.
  rewrite filter_cons_True by by rewrite Hget. simpl. by rewrite IH.
Qed.

Lemma page_bound_ret {A} (a : A) : page_bound 0 (ret a).
Proof. intros st. simpl. lia. Qed.

Lemma page_bound_lift_exn {A} (r : exn + A) : page_bound 0 (lift_exn r).
Proof. intros st. unfold lift_exn. destruct r; simpl; lia. Qed.

Lemma page_bound_weaken {A} j k (c : M A) : j ≤ k → page_bound j c → page_bound k c.
Proof. intros Hjk Hc st. specialize (Hc st). lia. Qed.

Lemma page_bound_bind {A B} j k (c : M A) (f : A → M B) :
  page_bound j c → (∀ a, page_bound k (f a)) → page_bound (j + k) (bind c f).
Proof.
  intros Hc Hf st. unfold bind. specialize (Hc st).
  destruct (c st) as [[e | a] st']; simpl in *; [lia |].
  specialize (Hf a st'). lia.
Qed.

Lemma page_bound_fetch url language_code :
  page_bound 3 (fetch net url language_code).
Proof.
  intros st. unfold fetch.
  destruct (fetch_html net url language_code 3 st) as [[doc ws] st'] eqn:Hfetch.
  apply fetch_attempts_requests in Hfetch as (n & -> & Hn & _).
  simpl. rewrite requests_filter_after by done. simpl in Hn. lia.
Qed.

Lemma page_bound_write_text path content : page_bound 0 (write_text path content).
Proof. intros st. unfold page_requests. simpl. lia. Qed.

Lemma page_bound_ensure_download base_dir slug remote_url alt_text index :
  page_bound 0 (ensure_download net base_dir slug remote_url alt_text index).
Proof.
  intros st. destruct (cached_path (cache st) slug remote_url) as [p|] eqn:Hc.
  - rewrite (ensure_download_hit _ _ _ _ _ _ _ _ Hc). simpl. lia.
  - destruct (ensure_download_miss net base_dir slug remote_url alt_text index st Hc)
      as (? & ? & st' & _ & -> & Hreq & _).
    unfold page_requests. simpl. rewrite Hreq, filter_app, length_app. simpl. lia.
Qed.

Lemma page_bound_download_images slug markdown_dir images idx acc :
  page_bound 0 (download_images net cfg slug markdown_dir images idx acc).
Proof.
  revert idx acc. induction images as [|[img_url alt] images IH]; intros idx acc.
  - apply page_bound_ret.
  - cbn [download_images].
    apply (page_bound_bind 0 0); [apply page_bound_ensure_download |].
    intros [local_path warn]. apply IH.
Qed.

Lemma page_bound_process_page slug language_code url tree html ws :
  page_bound 0 (process_page net ex cfg slug language_code url tree html ws).
Proof.
  unfold process_page.
  apply (page_bound_bind 0 0); [apply page_bound_lift_exn | intros m].
  apply (page_bound_bind 0 0); [apply page_bound_lift_exn | intros markdown].
  apply (page_bound_bind 0 0); [apply page_bound_download_images | intros got].
  apply (page_bound_bind 0 0); [apply page_bound_write_text | intros _].
  apply page_bound_ret.
Qed.

Lemma page_bound_process_variant slug p :
  cached_html p = None → page_bound 3 (process_variant net ex cfg slug p).
Proof.
  intros Hp. unfold process_variant. rewrite Hp.
  apply (page_bound_bind 3 0); [apply page_bound_fetch |]. intros [[text|] ws].
  - destruct (Str.truthy text); [apply page_bound_process_page | apply page_bound_ret].
  - apply page_bound_ret.
Qed.

Lemma page_bound_scrape_article url : page_bound 6 (scrape_article net ex cfg url).
Proof.
  unfold scrape_article.
  apply (page_bound_bind 3 3); [apply page_bound_fetch |].
  intros [[en_html|] ws]; [| apply (page_bound_weaken 0); [lia | apply page_bound_ret]].
  destruct (Str.truthy en_html);
    [| apply (page_bound_weaken 0); [lia | apply page_bound_ret]].
  unfold language_plan. cbn [process_plan].
  apply (page_bound_bind 0 3).
  { unfold process_variant. cbn [cached_html cached_tree].
    apply page_bound_process_page. }
  intros r. destruct (zh_url _); cbn [process_plan].
  - apply (page_bound_bind 3 0); [by apply page_bound_process_variant |].
    intros r'. apply page_bound_ret.
  - apply (page_bound_weaken 0); [lia | apply page_bound_ret].
Qed.

Lemma page_bound_run_from limit articles idx all_results :
  page_bound (6 * length articles) (run_from net ex cfg limit articles idx all_results).
Proof.
  revert idx all_results. induction articles as [|url articles IH]; intros idx all_results.
  - apply page_bound_ret.
  - cbn [run_from]. destruct (match limit with Some l => _ | None => _ end).
    + apply (page_bound_weaken 0); [lia | apply page_bound_ret].
    + replace (6 * length (url :: articles)) with (6 + 6 * length articles)
        by (simpl; lia).
      apply page_bound_bind; [apply page_bound_scrape_article | auto].
Qed.

(** No loop of the run is cut short by the model. *)
Lemma fueled_ret {A} (a : A) : fueled (ret a).
Proof. by intros st. Qed.

Lemma fueled_lift_exn {A} (r : exn + A) : fueled (lift_exn r).
Proof. intros st. unfold lift_exn. by destruct r. Qed.

Lemma fueled_bind {A B} (c : M A) (f : A → M B) :
  fueled c → (∀ a, fueled (f a)) → fueled (bind c f).
Proof.
  intros Hc Hf st. unfold bind. specialize (Hc st).
  destruct (c st) as [[e | a] st']; simpl in *; [congruence | apply Hf].
Qed.

Lemma fueled_fetch url language_code : fueled (fetch net url language_code).
Proof.
  intros st. unfold fetch. by destruct (fetch_html _ _ _ _ _) as [[? ?] ?].
Qed.

Lemma fueled_ensure_download base_dir slug remote_url alt_text index :
  fueled (ensure_download net base_dir slug remote_url alt_text index).
Proof.
  intros st.
  destruct (ensure_download_outcome net base_dir slug remote_url alt_text index st)
    as (r & st' & -> & _). done.
Qed.

Lemma fueled_download_images slug markdown_dir images idx acc :
  fueled (download_images net cfg slug markdown_dir images idx acc).
Proof.
  revert idx acc. induction images as [|[img_url alt] images IH]; intros idx acc.
  - apply fueled_ret.
  - cbn [download_images]. apply fueled_bind; [apply fueled_ensure_download |].
    intros [local_path warn]. apply IH.
Qed.

Lemma fueled_process_page slug language_code url tree html ws :
  fueled (process_page net ex cfg slug language_code url tree html ws).
Proof.
  unfold process_page.
  repeat (apply fueled_bind; [| intros ?]);
    auto using fueled_lift_exn, fueled_download_images, fueled_ret.
  by intros st.
Qed.

Lemma fueled_process_variant slug p : fueled (process_variant net ex cfg slug p).
Proof.
  unfold process_variant. destruct (cached_html p).
  - destruct (cached_tree p); auto using fueled_process_page, fueled_lift_exn.
  - apply fueled_bind; [apply fueled_fetch |]. intros [[text|] ws].
    + destruct (Str.truthy text); auto using fueled_process_page, fueled_ret.
    + apply fueled_ret.
Qed.

Lemma fueled_process_plan slug plan results :
  fueled (process_plan net ex cfg slug plan results).
Proof.
  revert results. induction plan as [|p plan IH]; intros results.
  - apply fueled_ret.
  - cbn [process_plan]. apply fueled_bind; [apply fueled_process_variant | auto].
Qed.

Lemma fueled_scrape_article url : fueled (scrape_article net ex cfg url).
Proof.
  unfold scrape_article. apply fueled_bind; [apply fueled_fetch |].
  intros [[en_html|] ws]; [| apply fueled_ret].
  destruct (Str.truthy en_html); auto using fueled_process_plan, fueled_ret.
Qed.

Lemma fueled_run_from limit articles idx all_results :
  fueled (run_from net ex cfg limit articles idx all_results).
Proof.
  revert idx all_results. induction articles as [|url articles IH]; intros idx all_results.
  - apply fueled_ret.
  - cbn [run_from]. destruct (match limit with Some l => _ | None => _ end).
    + apply fueled_ret.
    + apply fueled_bind; [apply fueled_scrape_article | auto].
Qed.
End run.

(** X19. A limit cuts the list of the articles and nothing else: [run]
    with the limit [l] is the run without a limit over the first [l]
    articles. With a limit of zero or below nothing is fetched and the
    result is empty; with a limit of ten or more all the articles are
    processed. *)
Theorem run_limit `{Lib} (net : network) (ex : extractor) (cfg : StoryScraper)
    (l : Z) (st : state) :
  run net ex cfg (Some l) st
    = run_from net ex cfg None (take (Z.to_nat l) TARGET_ARTICLES) 1 [] st ∧
  (l ≤ 0 → run net ex cfg (Some l) st = (inr [], st))%Z ∧
  (10 ≤ l → run net ex cfg (Some l) st = run net ex cfg None st)%Z.
Proof.
  assert (run net ex cfg (Some l) st
          = run_from net ex cfg None (take (Z.to_nat l) TARGET_ARTICLES) 1 [] st) as Hrun.
  { unfold run. rewrite run_from_limit. by replace (l - 1 + 1)%Z with l by lia. }
  split; [done |]. split.
  - intros Hl. rewrite Hrun. by replace (Z.to_nat l) with 0 by lia.
  - intros Hl. rewrite Hrun. unfold run. by rewrite take_ge by (simpl; lia).
Qed.

(** X20. A run, whatever the site answers and however it ends, removes no
    file and keeps every path that the cache had, and each of its loops
    comes to an end. *)
Theorem run_keeps_files_and_cache `{Lib} (net : network) (ex : extractor)
    (cfg : StoryScraper) (limit : option Z) (st : state) :
  (∀ path, is_Some (files st !! path) →
           is_Some (files (run net ex cfg limit st).2 !! path)) ∧
  (∀ slug remote_url p,
     cached_path (cache st) slug remote_url = Some p →
     cached_path (cache (run net ex cfg limit st).2) slug remote_url = Some p) ∧
  (run net ex cfg limit st).1 ≠ inl OutOfFuel.
Proof.
  pose proof (steady_run_from net ex cfg limit TARGET_ARTICLES 1 [] st) as Hsteps.
  split; [| split].
  - intros path. by apply (steps_files net (asset_root cfg)).
  - intros slug remote_url p. by apply (steps_cached net (asset_root cfg)).
  - apply fueled_run_from.
Qed.

(** X21. [scrape_article] sends at most six requests for pages, three
    for each of the two languages, however many images the pages have;
    a run sends at most sixty. *)
Theorem scrape_article_page_requests `{Lib} (net : network) (ex : extractor)
    (cfg : StoryScraper) (url : string) (limit : option Z) (st : state) :
  page_requests (scrape_article net ex cfg url st).2 ≤ page_requests st + 6 ∧
  page_requests (run net ex cfg limit st).2 ≤ page_requests st + 60.
Proof.
  split; [apply page_bound_scrape_article |].
  apply (page_bound_run_from net ex cfg limit TARGET_ARTICLES 1 []).
Qed.

(** X22. When [trafilatura] is there and extracts nothing from the
    English page, or the empty text, the fallback calls [md], a name
    that the module bound only when [trafilatura] was missing: the
    [NameError] leaves [scrape_article] with no record and no file
    written for the article, and ends the run before the articles that
    are left. *)
Theorem scrape_article_md_unbound `{Lib} (net : network)
    (extract : string → string → option string) (cfg : StoryScraper)
    (url : string) (st : state) (en_html : string) (en_ws : list string)
    (st1 : state) (m : ArticleMeta) :
  fetch_html net url "en" 3 st = (Some en_html, en_ws, st1) →
  extract_article_meta (fromstring en_html) "en" url = inr m →
  extract en_html url = None ∨ extract en_html url = Some "" →
  scrape_article net (Trafilatura extract) cfg url st
    = (inl (Raised (NameError "md")), st1) ∧
  files st1 = files st ∧ cache st1 = cache st ∧
  ∀ limit rest idx all_results,
    match limit with Some l => (l <? idx)%Z | None => false end = false →
    run_from net (Trafilatura extract) cfg limit (url :: rest) idx all_results st
    = (inl (Raised (NameError "md")), st1).
Proof.
  intros Hfetch Hmeta Hextract.
  assert (scrape_article net (Trafilatura extract) cfg url st
          = (inl (Raised (NameError "md")), st1)) as Hrun.
  { rewrite (scrape_article_fetched _ _ _ _ _ _ _ _ Hfetch).
    unfold language_plan. cbn [process_plan]. unfold bind at 1, process_variant.
    cbn [cached_html cached_tree lang_code lang_url plan_warnings].
    unfold process_page, bind, lift_exn. rewrite Hmeta. unfold html_to_markdown.
    by destruct Hextract as [-> | ->]. }
  split; [done |].
  apply fetch_attempts_requests in Hfetch as (n & -> & _).
  split; [done |]. split; [done |].
  intros limit rest idx all_results Hlimit. cbn [run_from]. rewrite Hlimit.
  unfold bind. by rewrite Hrun.
Qed.

Lemma scrape_article_md_unbound_witness :
  fetch_html (Sample.site true) story_url "en" 3 initial
    = (Some Sample.en_html, [], Sample.fetched true) ∧
  extract_article_meta (fromstring Sample.en_html) "en" story_url
    = inr (meta Sample.en_record) ∧
  scrape_article (Sample.site true) (Trafilatura (λ _ _, None)) Sample.cfg story_url
    initial = (inl (Raised (NameError "md")), Sample.fetched true).
Proof.
  assert (fetch_html (Sample.site true) story_url "en" 3 initial
          = (Some Sample.en_html, [], Sample.fetched true)) as Hfetch
    by (vm_compute; reflexivity).
  assert (extract_article_meta (fromstring Sample.en_html) "en" story_url
          = inr (meta Sample.en_record)) as Hmeta by (vm_compute; reflexivity).
  split; [exact Hfetch |]. split; [exact Hmeta |].
  exact (proj1 (scrape_article_md_unbound (Sample.site true) (λ _ _, None) Sample.cfg
                  story_url initial _ _ _ _ Hfetch Hmeta (or_introl eq_refl))).
Defined.
